(** * The untangling heuristic of [untangle.py], embedded in Rocq.

    The Python functions are embedded shallowly: integers are [Z], lists
    are lists, the dictionary of [group_partitions_by_size] is a [gmap],
    exceptions and the unbounded [while True] loop of [get_codewords] are
    results of an [outcome] type, and the in-place updates of the
    transaction object are explicit state passing. *)

From Stdlib Require Import ZArith Lia.
From Stdlib Require Import Sorted.
From stdpp Require Import base list gmap strings sorting.

(** ** Results of running Python code *)

(** The exceptions the embedded functions can raise. *)
Inductive pyerror : Type :=
  | IndexError   (* a list subscript out of range *)
  | KeyError     (* a dictionary subscript that is not a key *)
  | ValueError   (* [max] of an empty sequence *)
  | TypeError.   (* a subscript applied to [None] *)

(** A call either returns, raises, or is still running when the fuel given
    to the [while True] loop of [get_codewords] is used up. *)
Inductive outcome (A : Type) : Type :=
  | Done (a : A)
  | Raised (e : pyerror)
  | OutOfFuel.
Arguments Done {A} a.
Arguments Raised {A} e.
Arguments OutOfFuel {A}.

Global Instance outcome_bind : MBind outcome := λ A B f c,
  match c with
  | Done a => f a
  | Raised e => Raised e
  | OutOfFuel => OutOfFuel
  end.

(** [for x in l: s = body(s, x)], stopping at the first exception. *)
Fixpoint for_each {A S : Type} (l : list A) (body : S → A → outcome S) (s : S)
  : outcome S :=
  match l with
  | [] => Done s
  | x :: l' => s' ← body s x; for_each l' body s'
  end.

(** [l[i]] for an index that a [range] produced (never negative). *)
Definition py_get {A : Type} (l : list A) (i : nat) : outcome A :=
  match l !! i with
  | Some x => Done x
  | None => Raised IndexError
  end.

(** The position that the subscript [l[i]] denotes in a list of length
    [len]: negative subscripts count from the end. *)
Definition py_index (len : nat) (i : Z) : outcome nat :=
  if decide (0 ≤ i < Z.of_nat len)%Z then Done (Z.to_nat i)
  else if decide (- Z.of_nat len ≤ i < 0)%Z then Done (Z.to_nat (Z.of_nat len + i))
  else Raised IndexError.

(** [max(l)] on a list of integers. *)
Definition py_max (l : list Z) : outcome Z :=
  match l with
  | [] => Raised ValueError
  | v :: vs => Done (foldl Z.max v vs)
  end.

(** ** [get_codewords] *)

(** How one pass of the inner [while startIndex >= 0] loop ends: with the
    [return], with the [break] after an increment, or because the loop
    condition failed. The last two carry the codeword as the pass left it. *)
Inductive scan_exit : Type :=
  | ScanReturn
  | ScanBreak (codeword : list Z)
  | ScanEnd (codeword : list Z).

(** The inner loop, entered with [startIndex = j - 1]: [j = 0] is the
    failed loop condition, [j = S startIndex] one more iteration. *)
Fixpoint scan (k : Z) (codeword : list Z) (j : nat) : outcome scan_exit :=
  match j with
  | O => Done (ScanEnd codeword)
  | S startIndex =>
      match take startIndex codeword with
      | [] => Done ScanReturn
      | prefix =>
          maxValue ← py_max prefix;
          codewordAtStartIndex ← py_get codeword startIndex;
          if (maxValue >? k)%Z
             || (codewordAtStartIndex >? maxValue)%Z
             || (codewordAtStartIndex >=? k)%Z
          then scan k (<[startIndex := 1%Z]> codeword) startIndex
          else Done (ScanBreak (<[startIndex := (codewordAtStartIndex + 1)%Z]> codeword))
      end
  end.

(** The outer [while True] loop; each iteration takes one unit of fuel.
    [n] is a length in the only call of the source, hence a [nat]. *)
Fixpoint codewords_loop (fuel n : nat) (k : Z) (codeword : list Z)
    (codewords : list (list Z)) : outcome (list (list Z)) :=
  match fuel with
  | O => OutOfFuel
  | S fuel' =>
      let codewords := codewords ++ [codeword] in
      exit ← scan k codeword n;
      match exit with
      | ScanReturn => Done codewords
      | ScanBreak codeword' => codewords_loop fuel' n k codeword' codewords
      | ScanEnd codeword' => codewords_loop fuel' n k codeword' codewords
      end
  end.

Definition get_codewords (fuel n : nat) (k : Z) : outcome (list (list Z)) :=
  codewords_loop fuel n k (replicate n 1%Z) [].

(** ** [get_partitions] *)

(** The second [for] loop of [get_partitions], from index [i] on: the
    element at each index is appended to the subset its codeword entry
    names. *)
Fixpoint fill {A : Type} (elements : list A) (i : nat) (codeword : list Z)
    (partition : list (list A)) : outcome (list (list A)) :=
  match codeword with
  | [] => Done partition
  | subset :: rest =>
      element ← py_get elements i;
      pos ← py_index (length partition) (subset - 1);
      fill elements (S i) rest (alter (λ s, s ++ [element]) pos partition)
  end.

(** The body of the loop over the codewords. The source calls the list of
    elements [list], which is the name of the type here. *)
Definition to_partition {A : Type} (elements : list A) (codeword : list Z)
  : outcome (list (list A)) :=
  num_subsets ← py_max codeword;
  fill elements 0 codeword (replicate (Z.to_nat num_subsets) []).

Definition get_partitions {A : Type} (fuel : nat) (elements : list A) (max_size : Z)
  : outcome (list (list (list A))) :=
  let n := length elements in
  codewords ← get_codewords fuel n max_size;
  for_each codewords
    (λ partitions codeword,
       partition ← to_partition elements codeword;
       Done (partitions ++ [partition]))
    [].

(** ** [group_partitions_by_size] *)

Definition group_step {A : Type} (partition_dict : gmap nat (list (list (list A))))
    (partition : list (list A)) : gmap nat (list (list (list A))) :=
  let size := length partition in
  match partition_dict !! size with
  | Some bucket => <[size := bucket ++ [partition]]> partition_dict
  | None => <[size := [partition]]> partition_dict
  end.

Definition group_partitions_by_size {A : Type} (partitions : list (list (list A)))
  : gmap nat (list (list (list A))) :=
  foldl group_step ∅ partitions.

(** [d[key]] on a dictionary. *)
Definition py_item {V : Type} (d : gmap nat V) (key : nat) : outcome V :=
  match d !! key with
  | Some v => Done v
  | None => Raised KeyError
  end.

(** ** Entries and transactions *)

(** An entry is the tuple [(identifier, value)]. *)
Definition entry : Type := string * Z.

(** [sum([item[1] for item in subset])] *)
Definition sum_values (subset : list entry) : Z := foldr Z.add 0%Z (subset.*2).

(** The list [[identifier, inputs, outputs, fee]]. *)
Record transaction : Type := Transaction {
  tx_id : string;
  tx_inputs : list entry;
  tx_outputs : list entry;
  tx_fee : Z
}.

(** The pair [(input_partition, output_ordering)]. *)
Definition acceptable_partition : Type := list (list entry) * list (list entry).

(** ** [is_connectable] *)

Definition is_connectable (input_subset output_subset : list entry)
    (transaction_fee : Z) : bool :=
  let input_sum := sum_values input_subset in
  let output_sum := sum_values output_subset in
  let a := (output_sum + transaction_fee)%Z in
  (a >=? input_sum)%Z && (input_sum >=? output_sum)%Z.

(** ** [itertools.permutations] *)

(** Each element of a list with the others, in order of position. *)
Fixpoint picks {A : Type} (l : list A) : list (A * list A) :=
  match l with
  | [] => []
  | x :: l' => (x, l') :: map (λ p, (p.1, x :: p.2)) (picks l')
  end.

(** The orderings of [r] elements of [l], in the order [itertools] yields
    them: lexicographic in the positions. *)
Fixpoint permutations_of {A : Type} (r : nat) (l : list A) : list (list A) :=
  match r with
  | O => [[]]
  | S r' => flat_map (λ p, map (cons p.1) (permutations_of r' p.2)) (picks l)
  end.

Definition permutations {A : Type} (l : list A) (r : nat) : list (list A) :=
  permutations_of r l.

(** ** [get_acceptable_connections] *)

(** The loop over [range(partition_size)] with its [break]: the flag
    [acceptable] at the end of the loop. *)
Fixpoint pairs_connectable (indices : list nat)
    (input_partition output_ordering : list (list entry)) (transaction_fee : Z)
  : outcome bool :=
  match indices with
  | [] => Done true
  | i :: rest =>
      input_subset ← py_get input_partition i;
      output_subset ← py_get output_ordering i;
      if is_connectable input_subset output_subset transaction_fee
      then pairs_connectable rest input_partition output_ordering transaction_fee
      else Done false
  end.

Definition get_acceptable_connections (partition_size : nat)
    (input_partition output_partition : list (list entry)) (transaction_fee : Z)
  : outcome (list acceptable_partition) :=
  let output_orders := permutations output_partition (length output_partition) in
  for_each output_orders
    (λ acceptable_connections output_ordering,
       acceptable ← pairs_connectable (seq 0 partition_size)
                      input_partition output_ordering transaction_fee;
       if acceptable : bool
       then Done (acceptable_connections ++ [(input_partition, output_ordering)])
       else Done acceptable_connections)
    [].

(** ** [get_acceptable_partitions] *)

Definition get_acceptable_partitions (fuel : nat) (t : transaction)
  : outcome (list acceptable_partition) :=
  let inputs := tx_inputs t in
  let outputs := tx_outputs t in
  let transaction_fee := tx_fee t in
  let num_inputs := length inputs in
  let num_outputs := length outputs in
  let max_partition_size := num_inputs `min` num_outputs in
  input_partitions ← get_partitions fuel inputs (Z.of_nat max_partition_size);
  output_partitions ← get_partitions fuel outputs (Z.of_nat max_partition_size);
  let input_partitions := group_partitions_by_size input_partitions in
  let output_partitions := group_partitions_by_size output_partitions in
  for_each (seq 2 (max_partition_size - 1))
    (λ acceptable_partitions i,
       input_bucket ← py_item input_partitions i;
       for_each input_bucket
         (λ acceptable_partitions input_partition,
            output_bucket ← py_item output_partitions i;
            for_each output_bucket
              (λ acceptable_partitions output_partition,
                 connections ← get_acceptable_connections i input_partition
                                  output_partition transaction_fee;
                 Done (acceptable_partitions ++ connections))
              acceptable_partitions)
         acceptable_partitions)
    [].

(** ** The simplifier *)

Definition sort_key (input : entry) : Z := input.2.

(** [l.sort(key=key)]: Python's sort is stable, and a list has one stable
    sorted arrangement; insertion before the first element whose key is not
    smaller produces it. *)
Fixpoint insert_sorted {A : Type} (key : A → Z) (x : A) (l : list A) : list A :=
  match l with
  | [] => [x]
  | y :: l' => if (key x <=? key y)%Z then x :: y :: l' else y :: insert_sorted key x l'
  end.

Definition py_sort {A : Type} (key : A → Z) (l : list A) : list A :=
  foldr (insert_sorted key) [] l.

(** What a call hands back as far as these functions are concerned: [None],
    or the reference to the transaction object the caller passed in. No
    function allocates a transaction, so that object is the whole store. *)
Inductive pyval : Type :=
  | PyNone
  | PyTransaction.

(** A call on the object a value refers to; subscripting [None] raises. *)
Definition on_transaction {A : Type} (v : pyval)
    (f : transaction → outcome (A * transaction)) (t : transaction)
  : outcome (A * transaction) :=
  match v with
  | PyTransaction => f t
  | PyNone => Raised TypeError
  end.

(** The [for input in inputs] loop of [remove_small_inputs], with its
    [break]: the marked inputs and the fee that is left. *)
Fixpoint mark_small_inputs (inputs : list entry) (transaction_fee : Z)
    (inputs_to_remove : list entry) : list entry * Z :=
  match inputs with
  | [] => (inputs_to_remove, transaction_fee)
  | input :: rest =>
      if (input.2 <=? transaction_fee)%Z
      then mark_small_inputs rest (transaction_fee - input.2)%Z
             (inputs_to_remove ++ [input])
      else (inputs_to_remove, transaction_fee)
  end.

(** The state of the transaction object after the call, and the returned
    reference to it. *)
Definition remove_small_inputs (t : transaction) : outcome (pyval * transaction) :=
  let inputs := py_sort sort_key (tx_inputs t) in
  let '(inputs_to_remove, transaction_fee) := mark_small_inputs inputs (tx_fee t) [] in
  Done (PyTransaction,
        {| tx_id := tx_id t;
           tx_inputs := filter (λ x, x ∉ inputs_to_remove) inputs;
           tx_outputs := tx_outputs t;
           tx_fee := transaction_fee |}).

(** The loop over [range(1, partition_size)] that lowers [min_flow]. *)
Fixpoint lower_min_flow (indices : list nat)
    (input_partition output_partition : list (list entry)) (min_flow : Z)
  : outcome Z :=
  match indices with
  | [] => Done min_flow
  | i :: rest =>
      input_subset ← py_get input_partition i;
      output_subset ← py_get output_partition i;
      let flow := (sum_values input_subset - sum_values output_subset)%Z in
      lower_min_flow rest input_partition output_partition
        (if (flow <? min_flow)%Z then flow else min_flow)
  end.

(** The body of the loop over the acceptable partitions. *)
Definition raise_delta (delta : Z) (partition : acceptable_partition) : outcome Z :=
  let input_partition := partition.1 in
  let output_partition := partition.2 in
  let partition_size := length input_partition in
  input_subset ← py_get input_partition 0;
  output_subset ← py_get output_partition 0;
  let min_flow := (sum_values input_subset - sum_values output_subset)%Z in
  min_flow ← lower_min_flow (seq 1 (partition_size - 1))
                input_partition output_partition min_flow;
  Done (if (min_flow >? delta)%Z then min_flow else delta).

(** The [for output in outputs] loop of [remove_small_outputs]. *)
Fixpoint mark_small_outputs (outputs : list entry) (delta transaction_fee : Z)
    (outputs_to_remove : list entry) : list entry * Z :=
  match outputs with
  | [] => (outputs_to_remove, transaction_fee)
  | output :: rest =>
      if (output.2 <=? delta)%Z
      then mark_small_outputs rest delta (transaction_fee + output.2)%Z
             (outputs_to_remove ++ [output])
      else mark_small_outputs rest delta transaction_fee outputs_to_remove
  end.

Definition remove_small_outputs (fuel : nat) (t : transaction)
  : outcome (pyval * transaction) :=
  acceptable_partitions ← get_acceptable_partitions fuel t;
  delta ← for_each acceptable_partitions raise_delta 0%Z;
  let outputs := py_sort sort_key (tx_outputs t) in
  let '(outputs_to_remove, transaction_fee) :=
    mark_small_outputs outputs delta (tx_fee t) [] in
  Done (PyTransaction,
        {| tx_id := tx_id t;
           tx_inputs := tx_inputs t;
           tx_outputs := filter (λ x, x ∉ outputs_to_remove) outputs;
           tx_fee := transaction_fee |}).

(** [simplify] rebinds its local name to what each step returns and ends
    without a [return] statement: the call evaluates to [None]. *)
Definition simplify (fuel : nat) (t : transaction) : outcome (pyval * transaction) :=
  '(transaction, t) ← remove_small_inputs t;
  '(transaction, t) ← on_transaction transaction (remove_small_outputs fuel) t;
  Done (PyNone, t).

(** [untangle] drops what [simplify] returns and reads the object it was
    given. *)
Definition untangle (fuel : nat) (t : transaction)
  : outcome (list acceptable_partition * transaction) :=
  '(_, t) ← simplify fuel t;
  acceptable_partitions ← get_acceptable_partitions fuel t;
  Done (acceptable_partitions, t).

(** The example transactions of the source. *)
Definition figure6 : transaction :=
  Transaction "t0" [("a1", 20%Z); ("a2", 10%Z)]
    [("b1", 19%Z); ("b2", 7%Z); ("b3", 3%Z)] 1.

Definition figure10 : transaction :=
  Transaction "t0" [("a1", 50%Z); ("a2", 40%Z); ("a3", 1%Z)]
    [("b1", 49%Z); ("b2", 39%Z)] 3.

(** ** The two formatters of [untangle.py] *)

(** [s[:-3]] on a string. *)
Definition drop_last3 (s : string) : string :=
  String.substring 0 (String.length s - 3) s.

(** The inner loop of [single_partition_to_string], over the elements after
    the first: [fmt] is how Python formats an element in an f-string. *)
Fixpoint append_elements {A : Type} (fmt : A → string) (rest : list A)
    (subset_string : string) : string :=
  match rest with
  | [] => subset_string
  | x :: rest' => append_elements fmt rest' (subset_string +:+ " " +:+ fmt x)
  end.

(** One iteration of the outer loop: [partition[i][0]] raises on an empty
    subset. *)
Definition subset_to_string {A : Type} (fmt : A → string) (subset : list A)
  : outcome string :=
  first ← py_get subset 0;
  let subset_string := "[" +:+ fmt first in
  let subset_string := append_elements fmt (drop 1 subset) subset_string in
  Done (subset_string +:+ "]").

Definition single_partition_to_string {A : Type} (fmt : A → string)
    (partition : list (list A)) : outcome string :=
  partition_string ←
    for_each partition
      (λ partition_string subset,
         subset_string ← subset_to_string fmt subset;
         Done (partition_string +:+ subset_string +:+ " - "))
      "";
  Done (drop_last3 partition_string).

(** How an f-string shows a list of strings, [repr_str] being Python's
    [repr] of a string. *)
Definition show_names (repr_str : string → string) (names : list string) : string :=
  "[" +:+ String.concat ", " (map repr_str names) +:+ "]".

Definition tx_partition_to_string (repr_str : string → string)
    (tx_partition : acceptable_partition) : outcome string :=
  let input_partition := tx_partition.1 in
  let output_partition := tx_partition.2 in
  let partition_size := length input_partition in
  for_each (seq 0 partition_size)
    (λ tx_partition_string i,
       input_subset ← py_get input_partition i;
       let input := map fst input_subset in
       output_subset ← py_get output_partition i;
       let output := map fst output_subset in
       Done (tx_partition_string +:+ show_names repr_str input +:+ " --> "
             +:+ show_names repr_str output +:+ String (Ascii.ascii_of_nat 10) ""))
    "".

(** ** [get_days] of [collect_blocks.py] *)

(** A [datetime] is its reading on the wall clock, in microseconds since
    the first instant of year 1: how Python orders and steps two
    [datetime]s that are both naive or carry the same time zone, as the two
    of the script do. The last [datetime] is the last microsecond of year
    9999, and a sum beyond it raises [OverflowError]. *)
Definition datetime : Type := Z.

Definition day_us : Z := 86400000000%Z.

Definition datetime_max : datetime := 315537897599999999%Z.

(** [get_days] returns its list, raises [OverflowError] from the step by
    [relativedelta(days=+1)], or has used up the fuel of its loop. *)
Inductive days_outcome : Type :=
  | DaysDone (days : list datetime)
  | DaysOverflow
  | DaysOutOfFuel.

(** The [while current_day <= end_day] loop, one unit of fuel a test. *)
Fixpoint days_loop (fuel : nat) (current_day end_day : datetime)
    (days : list datetime) : days_outcome :=
  match fuel with
  | O => DaysOutOfFuel
  | S fuel' =>
      if (current_day <=? end_day)%Z then
        let days := days ++ [current_day] in
        if (current_day + day_us <=? datetime_max)%Z
        then days_loop fuel' (current_day + day_us)%Z end_day days
        else DaysOverflow
      else DaysDone days
  end.

Definition get_days (fuel : nat) (start_day end_day : datetime) : days_outcome :=
  days_loop fuel start_day end_day [].

(** * Definitions the properties are stated with *)

(** The values a position may take after a prefix whose largest entry is
    [m]: from [1] up to [m + 1], and no more than [k]. *)
Definition next_values (k m : Z) : list Z := seqZ 1 (Z.min (m + 1) k).

(** All ways to extend such a prefix by [r] positions, in lexicographic
    order. *)
Fixpoint rgs_ext (k m : Z) (r : nat) : list (list Z) :=
  match r with
  | O => [[]]
  | S r' => flat_map (λ c, map (cons c) (rgs_ext k (Z.max m c) r')) (next_values k m)
  end.

(** The restricted growth strings of length [n] bounded by [k]. *)
Definition rgs_all (k : Z) (n : nat) : list (list Z) :=
  match n with
  | O => []
  | S r => map (cons 1%Z) (rgs_ext k 1 r)
  end.

(** What the outer loop does once the inner loop of an iteration has ended. *)
Definition resume (fuel n : nat) (k : Z) (codewords : list (list Z))
    (r : outcome scan_exit) : outcome (list (list Z)) :=
  exit ← r;
  match exit with
  | ScanReturn => Done codewords
  | ScanBreak codeword' => codewords_loop fuel n k codeword' codewords
  | ScanEnd codeword' => codewords_loop fuel n k codeword' codewords
  end.

(** The codewords of a call that returned. *)
Definition codewords_of (n : nat) (k : Z) : list (list Z) :=
  if decide (1 ≤ k)%Z then rgs_all k n else [replicate n 1%Z].

(** A string grows after a prefix whose largest entry is [m] when each
    entry is at least 1 and at most one more than the largest before it. *)
Fixpoint grows (m : Z) (s : list Z) : Prop :=
  match s with
  | [] => True
  | c :: s' => (1 ≤ c ≤ m + 1)%Z ∧ grows (Z.max m c) s'
  end.

(** A subset that holds an element. *)
Definition filled {A : Type} (partition : list (list A)) (j : nat) : Prop :=
  ∃ s, partition !! j = Some s ∧ s ≠ [].

(** The positions of a list paired with the elements at them. *)
Definition at_positions {A : Type} (elements : list A)
  : list (list nat) → list (list A) → Prop :=
  Forall2 (Forall2 (λ i x, elements !! i = Some x)).

(** A partition as the claims describe it: no subset is empty, and the
    subsets are made of the positions of the list, each taken once. *)
Definition is_partition_of {A : Type} (elements : list A)
    (partition : list (list A)) : Prop :=
  Forall (λ s, s ≠ []) partition ∧
  concat partition ≡ₚ elements ∧
  ∃ blocks, at_positions elements blocks partition ∧
            NoDup (concat blocks) ∧
            concat blocks ≡ₚ seq 0 (length elements).

(** The sum of [f 0], ..., [f (n - 1)]. *)
Fixpoint sum_to (n : nat) (f : nat → nat) : nat :=
  match n with
  | O => 0
  | S n' => f 0 + sum_to n' (λ j, f (S j))
  end.

(** Stirling numbers of the second kind: the partitions of [n] elements
    into [k] nonempty subsets. *)
Fixpoint stirling2 (n k : nat) : nat :=
  match n, k with
  | O, O => 1
  | O, S _ => 0
  | S _, O => 0
  | S n', S k' => S k' * stirling2 n' (S k') + stirling2 n' k'
  end.

(** The Bell numbers: the partitions of [n] elements. *)
Definition bell (n : nat) : nat := sum_to (S n) (stirling2 n).

(** The ways to extend a prefix whose largest entry is [m] by [r] positions
    so that the largest entry ends up [m + j]. *)
Fixpoint ext_count (r m j : nat) : nat :=
  match r with
  | O => match j with O => 1 | S _ => 0 end
  | S r' => m * ext_count r' m j
            + match j with O => 0 | S j' => ext_count r' (S m) j' end
  end.

(** What the claims ask of an acceptable partition: as many input subsets
    as output subsets, and every aligned pair within the fee. *)
Definition within_fee (fee : Z) (partition : acceptable_partition) : Prop :=
  length partition.1 = length partition.2 ∧
  ∀ i a b, partition.1 !! i = Some a → partition.2 !! i = Some b →
    (0 ≤ sum_values a - sum_values b ≤ fee)%Z.

(** The invariant of a transaction: what goes in is what comes out plus
    the fee. *)
Definition balanced (t : transaction) : Prop :=
  sum_values (tx_inputs t) = (sum_values (tx_outputs t) + tx_fee t)%Z.

(** A transaction with two equal inputs, of which the fee covers one. *)
Definition twin_inputs : transaction :=
  Transaction "t0" [("a", 1%Z); ("a", 1%Z); ("b", 5%Z)] [("c", 6%Z)] 1.

(** A restricted growth string after a prefix whose largest entry is [m]:
    each entry is at least 1, at most one more than the largest before it,
    and at most [k]. *)
Fixpoint grows_within (k m : Z) (s : list Z) : Prop :=
  match s with
  | [] => True
  | c :: s' => (1 ≤ c ≤ m + 1)%Z ∧ (c ≤ k)%Z ∧ grows_within k (Z.max m c) s'
  end.

(** Every aligned pair of two lists of subsets passes [is_connectable]. *)
Definition aligned_connectable (input_partition output_ordering : list (list entry))
    (fee : Z) : bool :=
  forallb (λ pair, is_connectable pair.1 pair.2 fee)
    (zip input_partition output_ordering).

(** What the matcher returns: a partition of the inputs against a
    reordering of a partition of the outputs, both with the same number of
    subsets, two at least, and every aligned pair within the fee. *)
Definition untangling (t : transaction) (partition : acceptable_partition) : Prop :=
  is_partition_of (tx_inputs t) partition.1 ∧
  (∃ output_partition,
     is_partition_of (tx_outputs t) output_partition ∧
     partition.2 ≡ₚ output_partition) ∧
  2 ≤ length partition.1 ∧
  length partition.1 ≤ length (tx_inputs t) `min` length (tx_outputs t) ∧
  within_fee (tx_fee t) partition.

(** The loops of [get_acceptable_partitions] over the sizes and the two
    dictionaries, once the partitions are there. *)
Definition match_sizes (max_partition_size : nat)
    (input_partitions output_partitions : gmap nat (list (list (list entry))))
    (transaction_fee : Z) : outcome (list acceptable_partition) :=
  for_each (seq 2 (max_partition_size - 1))
    (λ acceptable_partitions i,
       input_bucket ← py_item input_partitions i;
       for_each input_bucket
         (λ acceptable_partitions input_partition,
            output_bucket ← py_item output_partitions i;
            for_each output_bucket
              (λ acceptable_partitions output_partition,
                 connections ← get_acceptable_connections i input_partition
                                  output_partition transaction_fee;
                 Done (acceptable_partitions ++ connections))
              acceptable_partitions)
         acceptable_partitions)
    [].

(** A balanced transaction all of whose outputs [remove_small_outputs]
    takes for dust. *)
Definition all_dust : transaction :=
  Transaction "t0" [("a", 100%Z); ("b", 100%Z)]
    [("c", 45%Z); ("d", 10%Z); ("e", 45%Z); ("f", 10%Z)] 90.

(** A subset as [single_partition_to_string] shows it. *)
Definition show_subset {A : Type} (fmt : A → string) (subset : list A) : string :=
  "[" +:+ String.concat " " (map fmt subset) +:+ "]".

(** A line of [tx_partition_to_string]. *)
Definition show_pair (repr_str : string → string)
    (pair : list entry * list entry) : string :=
  show_names repr_str (map fst pair.1) +:+ " --> "
  +:+ show_names repr_str (map fst pair.2) +:+ String (Ascii.ascii_of_nat 10) "".

(** Strings one after the other. *)
Definition concat_strings (l : list string) : string := foldr String.append "" l.

(** Python's order [a < b] on lists of integers: at the first position where
    the lists differ the entry of [a] is the smaller one, or [a] ends first. *)
Fixpoint lex_lt (a b : list Z) : Prop :=
  match a, b with
  | _, [] => False
  | [], _ :: _ => True
  | x :: a', y :: b' => (x < y)%Z ∨ (x = y ∧ lex_lt a' b')
  end.

(** A listing of a partition of the positions [0], ..., [n - 1]: no block is
    empty, and the blocks together hold each position once. *)
Definition set_partition (n : nat) (blocks : list (list nat)) : Prop :=
  Forall (λ b, b ≠ []) blocks ∧ concat blocks ≡ₚ seq 0 n.

(** The canonical listing of a partition of positions: every block in
    ascending order, and the blocks in the order of their least positions.
    A partition has one such listing. *)
Definition canonical (blocks : list (list nat)) : Prop :=
  Forall (StronglySorted lt) blocks ∧
  ∀ j b b' x x', blocks !! j = Some b → blocks !! S j = Some b' →
    head b = Some x → head b' = Some x' → x < x'.

(** The block that holds a position, and the codeword that names for each
    position its block. *)
Fixpoint block_index (blocks : list (list nat)) (x : nat) : nat :=
  match blocks with
  | [] => 0
  | b :: blocks' => if decide (x ∈ b) then 0 else S (block_index blocks' x)
  end.

Definition code_of (n : nat) (blocks : list (list nat)) : list Z :=
  (λ x, Z.of_nat (S (block_index blocks x))) <$> seq 0 n.

(** * The embedding on small inputs *)

Example get_codewords_3_3 :
  get_codewords 10 3 3 = Done [[1;1;1]; [1;1;2]; [1;2;1]; [1;2;2]; [1;2;3]]%Z.
Proof. reflexivity. Qed.

Example get_partitions_abc :
  get_partitions 10 ["a"; "b"; "c"] 3 =
  Done [[["a"; "b"; "c"]]; [["a"; "b"]; ["c"]]; [["a"; "c"]; ["b"]];
        [["a"]; ["b"; "c"]]; [["a"]; ["b"]; ["c"]]].
Proof. reflexivity. Qed.

Example permutations_123 :
  permutations [1; 2; 3] 3 =
  [[1; 2; 3]; [1; 3; 2]; [2; 1; 3]; [2; 3; 1]; [3; 1; 2]; [3; 2; 1]].
Proof. reflexivity. Qed.

Example untangle_figure6 :
  untangle 10 figure6 =
  Done ([([[("a2", 10%Z)]; [("a1", 20%Z)]],
          [[("b3", 3%Z); ("b2", 7%Z)]; [("b1", 19%Z)]])],
        Transaction "t0" [("a2", 10%Z); ("a1", 20%Z)]
          [("b3", 3%Z); ("b2", 7%Z); ("b1", 19%Z)] 1).
Proof. vm_compute. reflexivity. Qed.

Example simplify_figure10 :
  simplify 10 figure10 =
  Done (PyNone,
        Transaction "t0" [("a2", 40%Z); ("a1", 50%Z)]
          [("b2", 39%Z); ("b1", 49%Z)] 2).
Proof. vm_compute. reflexivity. Qed.

(** * The codewords are the restricted growth strings *)

Lemma codewords_loop_S fuel n k codeword codewords :
  codewords_loop (S fuel) n k codeword codewords =
  resume fuel n k (codewords ++ [codeword]) (scan k codeword n).
Proof. reflexivity. Qed.

Lemma py_max_snoc p m c :
  py_max p = Done m → py_max (p ++ [c]) = Done (Z.max m c).
Proof.
  destruct p as [|v vs]; simpl; [done|].
  intros [= <-]. by rewrite foldl_app.
Qed.

Lemma py_get_middle {A} (p : list A) x s : py_get (p ++ x :: s) (length p) = Done x.
Proof. unfold py_get. by rewrite list_lookup_middle. Qed.

Lemma insert_middle {A} (p : list A) x y s :
  <[length p := y]> (p ++ x :: s) = p ++ y :: s.
Proof. by rewrite insert_app_r_alt, Nat.sub_diag by lia. Qed.

Lemma snoc_app {A} (p : list A) c s : (p ++ [c]) ++ s = p ++ c :: s.
Proof. by rewrite <- (assoc_L (++)). Qed.

(** One iteration of the inner loop at the position just after [p]. *)
Lemma scan_at k p m c s :
  p ≠ [] → py_max p = Done m →
  scan k (p ++ c :: s) (S (length p)) =
  if (m >? k)%Z || (c >? m)%Z || (c >=? k)%Z
  then scan k (p ++ 1%Z :: s) (length p)
  else Done (ScanBreak (p ++ (c + 1)%Z :: s)).
Proof.
  intros Hp Hm. simpl.
  rewrite take_app_length.
  destruct p as [|v vs]; [done|].
  simpl in Hm. injection Hm as <-.
  change (S (length vs)) with (length (v :: vs)).
  change (v :: vs ++ c :: s) with ((v :: vs) ++ c :: s).
  rewrite py_get_middle. simpl.
  by rewrite !insert_middle.
Qed.

Section enumeration.
Variables (k : Z) (n : nat).

(** The loop started on the first codeword with prefix [p] lists every
    codeword with that prefix and then goes on as the inner loop does
    from the last position of [p], the positions after it back at 1. *)
Lemma block_enumerated r : ∀ p m codewords,
  p ≠ [] → length p + r = n → py_max p = Done m → (1 ≤ m ≤ k)%Z →
  ∃ F, ∀ f,
    codewords_loop (F + f) n k (p ++ replicate r 1%Z) codewords =
    resume f n k (codewords ++ map (app p) (rgs_ext k m r))
      (scan k (p ++ replicate r 1%Z) (length p)).
Proof.
  induction r as [|r IH]; intros p m codewords Hp Hlen Hmax Hm.
  - exists 1. intros f. simpl replicate. simpl rgs_ext. simpl map.
    rewrite app_nil_r. replace (length p) with n by lia. reflexivity.
  - assert (Hblock : ∀ d c codewords, (1 ≤ c)%Z →
      (c + Z.of_nat d = Z.min (m + 1) k)%Z →
      ∃ F, ∀ f,
        codewords_loop (F + f) n k (p ++ c :: replicate r 1%Z) codewords =
        resume f n k
          (codewords ++ map (app p)
             (flat_map (λ c, map (cons c) (rgs_ext k (Z.max m c) r))
                (seqZ c (Z.of_nat (S d)))))
          (scan k (p ++ replicate (S r) 1%Z) (length p))).
    { induction d as [|d IHd]; intros c acc Hc Hd.
      - destruct (IH (p ++ [c]) (Z.max m c) acc) as [F HF].
        { by destruct p. }
        { rewrite length_app. simpl. lia. }
        { by apply py_max_snoc. }
        { lia. }
        exists F. intros f. rewrite <- (snoc_app p c), HF, snoc_app.
        rewrite length_app. simpl length. rewrite Nat.add_1_r.
        rewrite (scan_at k p m c) by done.
        replace ((m >? k)%Z || (c >? m)%Z || (c >=? k)%Z) with true; last first.
        { symmetry. rewrite !orb_true_iff. lia. }
        simpl. rewrite app_nil_r, map_map.
        f_equal. f_equal. apply map_ext. intros a. by rewrite <- (assoc_L (++)).
      - destruct (IH (p ++ [c]) (Z.max m c) acc) as [F1 HF1].
        { by destruct p. }
        { rewrite length_app. simpl. lia. }
        { by apply py_max_snoc. }
        { lia. }
        destruct (IHd (c + 1)%Z
                    (acc ++ map (app (p ++ [c])) (rgs_ext k (Z.max m c) r)))
          as [F2 HF2]; [lia | lia |].
        exists (F1 + F2). intros f.
        rewrite <- Nat.add_assoc, <- (snoc_app p c), HF1, snoc_app.
        rewrite length_app. simpl length. rewrite Nat.add_1_r.
        rewrite (scan_at k p m c) by done.
        replace ((m >? k)%Z || (c >? m)%Z || (c >=? k)%Z) with false; last first.
        { symmetry. rewrite !orb_false_iff. lia. }
        simpl. rewrite HF2.
        rewrite (seqZ_cons c (Z.of_nat (S (S d)))) by lia.
        simpl flat_map. rewrite map_app, map_map, (assoc_L (++)).
        replace (Z.pred (Z.of_nat (S (S d)))) with (Z.of_nat (S d)) by lia.
        replace (Z.succ c) with (c + 1)%Z by lia.
        f_equal. f_equal. f_equal. apply map_ext. intros a.
        by rewrite <- (assoc_L (++)). }
    simpl rgs_ext. unfold next_values.
    destruct (Hblock (Z.to_nat (Z.min (m + 1) k - 1)) 1%Z codewords) as [F HF];
      [lia | lia |].
    exists F. intros f.
    replace (Z.of_nat (S (Z.to_nat (Z.min (m + 1) k - 1))))
      with (Z.min (m + 1) k) in HF by lia.
    exact (HF f).
Qed.
End enumeration.

(** With a bound of at least 1 the loop returns the restricted growth
    strings, in order. *)
Lemma get_codewords_rgs n k :
  0 < n → (1 ≤ k)%Z →
  ∃ F, ∀ f, get_codewords (F + f) n k = Done (rgs_all k n).
Proof.
  intros Hn Hk. destruct n as [|r]; [lia|].
  destruct (block_enumerated k (S r) r [1%Z] 1%Z []) as [F HF];
    [done | done | done | lia |].
  exists F. intros f. unfold get_codewords. simpl replicate.
  change (1%Z :: replicate r 1%Z) with ([1%Z] ++ replicate r 1%Z).
  by rewrite HF.
Qed.

(** With a bound below 1 the inner loop resets every position and returns
    in the first iteration. *)
Lemma scan_ones_below k n j :
  (k < 1)%Z → 0 < j ≤ n → scan k (replicate n 1%Z) j = Done ScanReturn.
Proof.
  intros Hk. induction j as [|j IH]; intros Hj; [lia|].
  simpl. rewrite take_replicate.
  replace (j `min` n) with j by lia.
  destruct j as [|j]; [done|].
  cbn [replicate]. cbn [py_max mbind outcome_bind].
  unfold py_get. rewrite lookup_replicate_2 by lia.
  cbn [mbind outcome_bind].
  assert (Hmax : ∀ i, foldl Z.max 1%Z (replicate i 1%Z) = 1%Z).
  { induction i as [|i IHi]; [done|]. exact IHi. }
  rewrite Hmax.
  replace (1 >? k)%Z with true by lia. simpl orb. cbv iota.
  rewrite list_insert_id by (apply lookup_replicate_2; lia).
  apply IH. lia.
Qed.

Lemma get_codewords_below n k fuel :
  0 < n → (k < 1)%Z → get_codewords (S fuel) n k = Done [replicate n 1%Z].
Proof.
  intros Hn Hk. unfold get_codewords. rewrite codewords_loop_S.
  by rewrite scan_ones_below by lia.
Qed.

(** On no elements the inner loop is never entered and the outer loop
    never left: whatever the fuel, it is used up. *)
Lemma codewords_loop_empty fuel k codewords :
  codewords_loop fuel 0 k [] codewords = OutOfFuel.
Proof.
  revert codewords. induction fuel as [|fuel IH]; intros codewords; [done|].
  rewrite codewords_loop_S. simpl. apply IH.
Qed.

Lemma get_codewords_empty fuel k : get_codewords fuel 0 k = OutOfFuel.
Proof. apply codewords_loop_empty. Qed.

(** More fuel does not change a result. *)
Lemma codewords_loop_more fuel extra n k codeword codewords r :
  codewords_loop fuel n k codeword codewords = r → r ≠ OutOfFuel →
  codewords_loop (fuel + extra) n k codeword codewords = r.
Proof.
  revert codeword codewords.
  induction fuel as [|fuel IH]; intros codeword codewords Hr Hne.
  - simpl in Hr. congruence.
  - change (S fuel + extra) with (S (fuel + extra)).
    rewrite codewords_loop_S in *. unfold resume in *.
    destruct (scan k codeword n) as [[| |]| |]; simpl in *; auto.
Qed.

Lemma get_codewords_agree f1 f2 n k a b :
  get_codewords f1 n k = Done a → get_codewords f2 n k = Done b → a = b.
Proof.
  unfold get_codewords. intros H1 H2.
  apply (codewords_loop_more _ f2) in H1; [|done].
  apply (codewords_loop_more _ f1) in H2; [|done].
  rewrite (Nat.add_comm f2 f1) in H2. congruence.
Qed.

Lemma get_codewords_total n k :
  0 < n → ∃ F, ∀ f, get_codewords (F + f) n k = Done (codewords_of n k).
Proof.
  intros Hn. unfold codewords_of. destruct (decide (1 ≤ k)%Z) as [Hk|Hk].
  - by apply get_codewords_rgs.
  - exists 1. intros f. apply get_codewords_below; lia.
Qed.

Lemma get_codewords_done fuel n k cws :
  get_codewords fuel n k = Done cws → 0 < n ∧ cws = codewords_of n k.
Proof.
  intros H. destruct n as [|n].
  - by rewrite get_codewords_empty in H.
  - split; [lia|]. destruct (get_codewords_total (S n) k) as [F HF]; [lia|].
    specialize (HF 0). eapply get_codewords_agree; eauto.
Qed.

(** * From codewords to partitions *)

Lemma rgs_ext_spec k m r s :
  s ∈ rgs_ext k m r → length s = r ∧ grows m s.
Proof.
  revert m s. induction r as [|r IH]; intros m s Hs; simpl in Hs.
  - apply list_elem_of_singleton in Hs as ->. done.
  - apply list_elem_of_In, in_flat_map in Hs as (c & Hc & Hs).
    apply in_map_iff in Hs as (s' & <- & Hs').
    apply list_elem_of_In in Hc, Hs'.
    apply IH in Hs' as [Hlen Hg].
    unfold next_values in Hc. apply elem_of_seqZ in Hc.
    simpl. repeat split; [lia | lia | lia | done].
Qed.

Lemma grows_ones m r : (1 ≤ m)%Z → grows m (replicate r 1%Z).
Proof.
  revert m. induction r as [|r IH]; intros m Hm; simpl; [done|].
  split; [lia|]. apply IH. lia.
Qed.

(** Every codeword of a call that returned starts with 1, grows from
    there, and has one entry per element. *)
Lemma codewords_of_spec n k c :
  0 < n → c ∈ codewords_of n k →
  length c = n ∧ ∃ s, c = 1%Z :: s ∧ grows 1 s.
Proof.
  intros Hn. unfold codewords_of. destruct n as [|r]; [lia|].
  destruct (decide (1 ≤ k)%Z).
  - simpl. intros (s & <- & Hs)%list_elem_of_In%in_map_iff.
    apply list_elem_of_In, rgs_ext_spec in Hs as [Hlen Hg]. simpl. eauto.
  - intros ->%list_elem_of_singleton. rewrite length_replicate. split; [done|].
    exists (replicate r 1%Z). split; [done|]. by apply grows_ones.
Qed.

Lemma foldl_max_le m s : (m ≤ foldl Z.max m s)%Z.
Proof.
  revert m. induction s as [|c s IH]; intros m; simpl; [lia|].
  specialize (IH (Z.max m c)). lia.
Qed.

Lemma foldl_max_bound m s v : v ∈ s → (v ≤ foldl Z.max m s)%Z.
Proof.
  revert m. induction s as [|c s IH]; intros m Hv; [by apply elem_of_nil in Hv|].
  apply elem_of_cons in Hv as [->|Hv]; simpl.
  - pose proof (foldl_max_le (Z.max m c) s). lia.
  - by apply IH.
Qed.

Lemma grows_positive m s v : grows m s → v ∈ s → (1 ≤ v)%Z.
Proof.
  revert m. induction s as [|c s IH]; intros m Hg Hv; [by apply elem_of_nil in Hv|].
  destruct Hg as [Hc Hg]. apply elem_of_cons in Hv as [->|Hv]; [lia|eauto].
Qed.

(** Every value between the largest of the prefix and the largest of the
    whole string occurs: no subset stays empty. *)
Lemma grows_covers m s j :
  grows m s → (m < j ≤ foldl Z.max m s)%Z → j ∈ s.
Proof.
  revert m. induction s as [|c s IH]; intros m Hg Hj; simpl in *; [lia|].
  destruct Hg as [Hc Hg].
  destruct (decide (j = c)) as [->|Hne]; [left|].
  right. apply (IH (Z.max m c)); [done|]. lia.
Qed.

Lemma concat_alter_snoc {A} (partition : list (list A)) pos x :
  pos < length partition →
  concat (alter (λ s, s ++ [x]) pos partition) ≡ₚ concat partition ++ [x].
Proof.
  revert pos. induction partition as [|s partition IH]; intros pos Hpos;
    simpl in *; [lia|].
  destruct pos as [|pos]; simpl.
  - rewrite <- !(assoc_L (++)). f_equiv. apply Permutation_app_comm.
  - rewrite <- (assoc_L (++)). f_equiv. apply IH. lia.
Qed.

Lemma filled_alter_snoc {A} (partition : list (list A)) pos x j :
  filled partition j → filled (alter (λ s, s ++ [x]) pos partition) j.
Proof.
  intros (s & Hs & Hne). destruct (decide (pos = j)) as [->|Hj].
  - exists (s ++ [x]). rewrite list_lookup_alter_eq, Hs. split; [done|].
    by destruct s.
  - exists s. by rewrite list_lookup_alter_ne.
Qed.

Lemma filled_alter_here {A} (partition : list (list A)) pos x :
  pos < length partition → filled (alter (λ s, s ++ [x]) pos partition) pos.
Proof.
  intros [s Hs]%lookup_lt_is_Some_2. exists (s ++ [x]).
  rewrite list_lookup_alter_eq, Hs. split; [done|]. by destruct s.
Qed.

Lemma py_index_subset len v :
  (1 ≤ v ≤ Z.of_nat len)%Z → py_index len (v - 1) = Done (Z.to_nat (v - 1)).
Proof. intros Hv. unfold py_index. rewrite decide_True by lia. done. Qed.

(** The loop that fills the subsets: it returns when every codeword entry
    names a subset and every index an element; it adds each index from [i]
    on to one subset, and leaves no subset empty that a codeword entry
    names. *)
Lemma fill_spec {A} (elements : list A) codeword : ∀ i partition blocks,
  (∀ v, v ∈ codeword → (1 ≤ v ≤ Z.of_nat (length partition))%Z) →
  i + length codeword ≤ length elements →
  at_positions elements blocks partition →
  ∃ partition' blocks',
    fill elements i codeword partition = Done partition' ∧
    length partition' = length partition ∧
    at_positions elements blocks' partition' ∧
    concat blocks' ≡ₚ concat blocks ++ seq i (length codeword) ∧
    concat partition' ≡ₚ
      concat partition ++ take (length codeword) (drop i elements) ∧
    (∀ j, filled partition j ∨
          (j < length partition ∧ Z.of_nat (S j) ∈ codeword) →
          filled partition' j).
Proof.
  induction codeword as [|v codeword IH]; intros i partition blocks Hv Hi Hpos.
  - exists partition, blocks. simpl. rewrite !app_nil_r.
    repeat split; try done.
    intros j [Hj|[_ Hj]]; [done|]. by apply elem_of_nil in Hj.
  - simpl in Hi.
    destruct (lookup_lt_is_Some_2 elements i) as [x Hx]; [lia|].
    assert (Hvr : (1 ≤ v ≤ Z.of_nat (length partition))%Z) by (apply Hv; left).
    set (pos := Z.to_nat (v - 1)).
    assert (Hlt : pos < length partition) by (unfold pos; lia).
    destruct (IH (S i) (alter (λ s, s ++ [x]) pos partition)
                (alter (λ b, b ++ [i]) pos blocks))
      as (partition' & blocks' & Hfill & Hlen & Hpos' & Hperm & Hperm' & Hfilled).
    { intros w Hw. rewrite length_alter. apply Hv. by right. }
    { lia. }
    { apply Forall2_alter; [done|]. intros b s _ _ Hbs.
      apply Forall2_app; [done|]. by constructor. }
    exists partition', blocks'. simpl.
    unfold py_get. rewrite Hx. simpl.
    rewrite py_index_subset by done. simpl. fold pos.
    rewrite length_alter in Hlen.
    split; [done|]. split; [done|]. split; [done|]. split; [|split].
    + rewrite Hperm, concat_alter_snoc, <- (assoc_L (++)); [done|].
      by rewrite (Forall2_length _ _ _ Hpos).
    + rewrite Hperm', concat_alter_snoc, <- (assoc_L (++)) by done.
      by rewrite (drop_S _ _ _ Hx).
    + intros j [Hj|[Hj Hin]]; apply Hfilled.
      * left. by apply filled_alter_snoc.
      * apply elem_of_cons in Hin as [Heq|Hin].
        -- left. replace j with pos by (unfold pos; lia).
           by apply filled_alter_here.
        -- right. by rewrite length_alter.
Qed.

Lemma at_positions_empty {A} (elements : list A) m :
  at_positions elements (replicate m []) (replicate m []).
Proof. induction m; constructor; [constructor | done]. Qed.

Lemma concat_replicate_nil {A} m : concat (replicate m (@nil A)) = [].
Proof. induction m; simpl; [done|]. done. Qed.

(** The body of the loop over the codewords returns a partition for every
    string that starts with 1 and grows. *)
Lemma to_partition_spec {A} (elements : list A) s :
  grows 1 s → S (length s) = length elements →
  ∃ partition,
    to_partition elements (1%Z :: s) = Done partition ∧
    length partition = Z.to_nat (foldl Z.max 1%Z s) ∧
    is_partition_of elements partition.
Proof.
  intros Hg Hlen. unfold to_partition. simpl py_max. simpl mbind.
  set (m := foldl Z.max 1%Z s).
  assert (Hm : (1 ≤ m)%Z) by apply foldl_max_le.
  destruct (fill_spec elements (1%Z :: s) 0 (replicate (Z.to_nat m) [])
              (replicate (Z.to_nat m) []))
    as (partition & blocks & Hfill & Hl & Hpos & Hperm & Hperm' & Hfilled).
  { intros v Hv. rewrite length_replicate.
    apply elem_of_cons in Hv as [->|Hv]; [lia|].
    split; [by eapply grows_positive|].
    pose proof (foldl_max_bound 1 s v Hv). fold m in H. lia. }
  { simpl. lia. }
  { apply at_positions_empty. }
  rewrite length_replicate in Hl, Hfilled.
  rewrite concat_replicate_nil in Hperm. rewrite concat_replicate_nil in Hperm'.
  simpl app in Hperm, Hperm'.
  exists partition. split; [done|]. split; [done|]. split; [|split].
  - apply Forall_lookup. intros j b Hb.
    destruct (Hfilled j) as (b' & Hb' & Hne).
    { right. apply lookup_lt_Some in Hb. split; [lia|].
      destruct (decide (j = 0)) as [->|Hj]; [left|].
      right. apply (grows_covers 1); [done|]. fold m. lia. }
    congruence.
  - rewrite Hperm'. simpl length. rewrite Hlen, drop_0.
    by rewrite firstn_all.
  - exists blocks. split; [done|].
    change (0 :: seq 1 (length s)) with (seq 0 (S (length s))) in Hperm.
    rewrite Hlen in Hperm.
    split; [|done]. rewrite Hperm. apply NoDup_seq.
Qed.

(** A loop that appends one result per element returns the list of the
    results, in order, when every step returns. *)
Lemma for_each_collect {A B} (g : A → outcome B) l acc r :
  for_each l (λ acc x, y ← g x; Done (acc ++ [y])) acc = Done r ↔
  ∃ ys, r = acc ++ ys ∧ Forall2 (λ x y, g x = Done y) l ys.
Proof.
  revert acc. induction l as [|x l IH]; intros acc; simpl.
  - split.
    + intros [= <-]. exists []. by rewrite app_nil_r.
    + intros (ys & -> & ->%Forall2_nil_inv_l). by rewrite app_nil_r.
  - destruct (g x) as [y| |] eqn:Hx; simpl.
    + rewrite IH. split.
      * intros (ys & -> & Hys). exists (y :: ys).
        rewrite <- (assoc_L (++)). split; [done|]. by constructor.
      * intros (ys & -> & Hys).
        apply Forall2_cons_inv_l in Hys as (y' & ys' & Hy & Hys & ->).
        exists ys'. rewrite <- (assoc_L (++)). split; [|done].
        rewrite Hx in Hy. by injection Hy as ->.
    + split; [done|]. intros (ys & _ & Hys).
      apply Forall2_cons_inv_l in Hys as (y' & ys' & Hy & _). congruence.
    + split; [done|]. intros (ys & _ & Hys).
      apply Forall2_cons_inv_l in Hys as (y' & ys' & Hy & _). congruence.
Qed.

Lemma Forall2_choose {A B} (R : A → B → Prop) l :
  (∀ x, x ∈ l → ∃ y, R x y) → ∃ ys, Forall2 R l ys.
Proof.
  induction l as [|x l IH]; intros H.
  - exists []. constructor.
  - destruct (H x) as [y Hy]; [left|].
    destruct IH as [ys Hys]; [intros; apply H; by right|].
    exists (y :: ys). by constructor.
Qed.

(** [get_partitions] returns exactly when [get_codewords] does and every
    codeword turns into a partition. *)
Lemma get_partitions_done {A} fuel (elements : list A) max_size partitions :
  get_partitions fuel elements max_size = Done partitions ↔
  ∃ codewords,
    get_codewords fuel (length elements) max_size = Done codewords ∧
    Forall2 (λ codeword partition, to_partition elements codeword = Done partition)
      codewords partitions.
Proof.
  unfold get_partitions.
  destruct (get_codewords fuel (length elements) max_size) as [cws| |]; simpl.
  - rewrite for_each_collect. split.
    + intros (ys & -> & Hys). eauto.
    + intros (cws' & [= <-] & Hys). eauto.
  - split; [done|]. by intros (? & ? & _).
  - split; [done|]. by intros (? & ? & _).
Qed.

(** The partitions of a call that returned, one per codeword. *)
Lemma get_partitions_inv {A} fuel (elements : list A) max_size partitions :
  get_partitions fuel elements max_size = Done partitions →
  elements ≠ [] ∧
  Forall2 (λ codeword partition, to_partition elements codeword = Done partition)
    (codewords_of (length elements) max_size) partitions.
Proof.
  intros (cws & Hcws & Hps)%get_partitions_done.
  apply get_codewords_done in Hcws as [Hn ->].
  split; [|done]. intros ->. simpl in Hn. lia.
Qed.

Lemma codeword_to_partition {A} (elements : list A) max_size codeword :
  elements ≠ [] → codeword ∈ codewords_of (length elements) max_size →
  ∃ partition,
    to_partition elements codeword = Done partition ∧
    length partition = Z.to_nat (foldl Z.max 1%Z codeword) ∧
    is_partition_of elements partition.
Proof.
  intros Hne Hc.
  apply codewords_of_spec in Hc as (Hlen & s & -> & Hg);
    [|destruct elements; [done | simpl; lia]].
  destruct (to_partition_spec elements s) as (p & Hp & Hl & Hpart); [done..|].
  exists p. split; [done|]. split; [exact Hl | done].
Qed.

(** On a list with an element the call returns, whatever the bound. *)
Lemma get_partitions_total {A} (elements : list A) max_size :
  elements ≠ [] →
  ∃ F partitions, ∀ f, get_partitions (F + f) elements max_size = Done partitions.
Proof.
  intros Hne.
  destruct (get_codewords_total (length elements) max_size) as [F HF].
  { destruct elements; [done | simpl; lia]. }
  destruct (Forall2_choose
              (λ codeword partition, to_partition elements codeword = Done partition)
              (codewords_of (length elements) max_size)) as [ps Hps].
  { intros c Hc. destruct (codeword_to_partition elements max_size c)
      as (p & Hp & _); eauto. }
  exists F, ps. intros f. apply get_partitions_done. eauto.
Qed.

Lemma get_partitions_agree {A} f1 f2 (elements : list A) max_size a b :
  get_partitions f1 elements max_size = Done a →
  get_partitions f2 elements max_size = Done b → a = b.
Proof.
  intros [_ Ha]%get_partitions_inv [_ Hb]%get_partitions_inv.
  revert b Hb. induction Ha as [|c p cws ps Hp _ IH]; intros b Hb.
  - by apply Forall2_nil_inv_l in Hb.
  - apply Forall2_cons_inv_l in Hb as (p' & ps' & Hp' & Hb & ->).
    f_equal; [congruence | by apply IH].
Qed.

(** * Counting the codewords *)

Example bell_first : map bell [0; 1; 2; 3; 4; 5; 6] = [1; 1; 2; 5; 15; 52; 203].
Proof. reflexivity. Qed.

Lemma sum_to_ext n f g : (∀ j, f j = g j) → sum_to n f = sum_to n g.
Proof.
  revert f g. induction n as [|n IH]; intros f g H; simpl; [done|].
  rewrite H. f_equal. apply IH. intros j. apply H.
Qed.

Lemma sum_to_zero n f : (∀ j, f j = 0) → sum_to n f = 0.
Proof.
  revert f. induction n as [|n IH]; intros f H; simpl; [done|].
  rewrite H, IH; [done|]. intros j. apply H.
Qed.

Lemma sum_to_linear n a f g :
  sum_to n (λ j, a * f j + g j) = a * sum_to n f + sum_to n g.
Proof.
  revert f g. induction n as [|n IH]; intros f g; simpl; [lia|].
  rewrite (IH (λ j, f (S j)) (λ j, g (S j))). lia.
Qed.

(** The counts also obey the recurrence that adds the last position
    instead of the first. *)
Lemma ext_count_last r : ∀ m j,
  ext_count (S r) m j =
  (m + j) * ext_count r m j + match j with O => 0 | S j' => ext_count r m j' end.
Proof.
  induction r as [|r IH]; intros m j.
  - destruct j as [|[|j]]; simpl; lia.
  - change (ext_count (S (S r)) m j) with
      (m * ext_count (S r) m j
       + match j with O => 0 | S j' => ext_count (S r) (S m) j' end).
    destruct j as [|j]; [rewrite (IH m 0); simpl; lia|].
    pose proof (IH m (S j)) as E1. pose proof (IH (S m) j) as E2.
    assert (D1 : ext_count (S r) m (S j) =
                 m * ext_count r m (S j) + ext_count r (S m) j) by done.
    assert (D2 : ext_count (S r) m j =
                 m * ext_count r m j
                 + match j with O => 0 | S j' => ext_count r (S m) j' end) by done.
    cbv beta iota in E1.
    generalize dependent (ext_count (S r) m (S j)). intros X E1 D1.
    generalize dependent (ext_count (S r) (S m) j). intros Y E2.
    generalize dependent (ext_count (S r) m j). intros Z D2.
    generalize dependent (match j with O => 0 | S j' => ext_count r (S m) j' end).
    intros d E2 D2.
    generalize dependent (ext_count r m (S j)). intros a E1 D1.
    generalize dependent (ext_count r (S m) j). intros b E2 D1.
    generalize dependent (ext_count r m j). intros c E1 D2.
    clear IH. subst X Y Z.
    assert (Hb : b = S j * a + c) by nia. subst b. nia.
Qed.

Lemma ext_count_stirling r b : ext_count r 0 b = stirling2 r b.
Proof.
  revert b. induction r as [|r IH]; intros b; [by destruct b|].
  rewrite ext_count_last. destruct b as [|b]; simpl; [lia|].
  rewrite !IH. lia.
Qed.

Lemma flat_map_length_same {A B} (g : A → list B) l a :
  (∀ x, x ∈ l → length (g x) = a) → length (flat_map g l) = length l * a.
Proof.
  induction l as [|x l IH]; intros H; simpl; [done|].
  rewrite length_app, H, IH; [done | | left]. intros y Hy. apply H. by right.
Qed.

(** The extensions of a prefix, counted by where the largest entry ends. *)
Lemma rgs_ext_count r : ∀ m k,
  1 ≤ m ≤ k →
  length (rgs_ext (Z.of_nat k) (Z.of_nat m) r) = sum_to (S (k - m)) (ext_count r m).
Proof.
  induction r as [|r IH]; intros m k Hm.
  - simpl. rewrite sum_to_zero; done.
  - cbn [rgs_ext]. unfold next_values.
    rewrite (sum_to_ext _ _
      (λ j, m * ext_count r m j
            + match j with O => 0 | S j' => ext_count r (S m) j' end))
      by done.
    rewrite sum_to_linear, <- IH by done.
    change (sum_to (S (k - m))
              (λ j, match j with O => 0 | S j' => ext_count r (S m) j' end))
      with (0 + sum_to (k - m) (ext_count r (S m))).
    assert (Hlow : ∀ len, len ≤ m →
      length (flat_map
        (λ c, map (cons c) (rgs_ext (Z.of_nat k) (Z.max (Z.of_nat m) c) r))
        (seqZ 1 (Z.of_nat len))) =
      len * length (rgs_ext (Z.of_nat k) (Z.of_nat m) r)).
    { intros len Hlen. rewrite (flat_map_length_same _ _
        (length (rgs_ext (Z.of_nat k) (Z.of_nat m) r))).
      - rewrite length_seqZ. f_equal. lia.
      - intros c Hc%elem_of_seqZ. rewrite length_map.
        by replace (Z.max (Z.of_nat m) c) with (Z.of_nat m) by lia. }
    destruct (decide (m = k)) as [->|Hne].
    + replace (Z.min (Z.of_nat k + 1) (Z.of_nat k)) with (Z.of_nat k) by lia.
      rewrite Hlow by done. rewrite Nat.sub_diag. cbn [sum_to]. lia.
    + replace (Z.min (Z.of_nat m + 1) (Z.of_nat k)) with (Z.of_nat (S m)) by lia.
      rewrite seqZ_S, flat_map_app, length_app, Hlow by done.
      simpl flat_map. rewrite app_nil_r, length_map.
      replace (Z.max (Z.of_nat m) (1 + Z.of_nat m)) with (Z.of_nat (S m)) by lia.
      rewrite (IH (S m) k) by lia.
      replace (k - m) with (S (k - S m)) by lia. lia.
Qed.

(** With the bound at the length, the strings number the Bell number. *)
Lemma rgs_all_count n : 0 < n → length (rgs_all (Z.of_nat n) n) = bell n.
Proof.
  intros Hn. destruct n as [|r]; [lia|].
  unfold rgs_all, bell. rewrite length_map.
  change (rgs_ext (Z.of_nat (S r)) 1 r)
    with (rgs_ext (Z.of_nat (S r)) (Z.of_nat 1) r).
  rewrite (rgs_ext_count r 1 (S r)) by lia.
  replace (S r - 1) with r by lia.
  rewrite (sum_to_ext _ (stirling2 (S r)) (ext_count (S r) 0))
    by (intros; by rewrite ext_count_stirling).
  change (sum_to (S (S r)) (ext_count (S r) 0))
    with (0 + sum_to (S r) (λ j, ext_count (S r) 0 (S j))).
  rewrite Nat.add_0_l. apply sum_to_ext. intros j. simpl. lia.
Qed.

(** * The matcher *)

(** A loop keeps what every iteration that returns keeps. *)
Lemma for_each_invariant {A S} (P : S → Prop) (l : list A) body s r :
  P s →
  (∀ s x s', x ∈ l → P s → body s x = Done s' → P s') →
  for_each l body s = Done r → P r.
Proof.
  revert s. induction l as [|x l IH]; intros s Hs Hbody; simpl.
  - by intros [= <-].
  - destruct (body s x) as [s'| |] eqn:Hx; simpl; [|done..].
    apply IH.
    + eapply Hbody; [left | done..].
    + intros s1 y s2 Hy. apply Hbody. by right.
Qed.

(** The bucket under a key holds partitions with that many subsets. *)
Lemma group_partitions_sizes {A} (partitions : list (list (list A))) size bucket :
  group_partitions_by_size partitions !! size = Some bucket →
  Forall (λ partition, length partition = size) bucket.
Proof.
  unfold group_partitions_by_size.
  assert (H : ∀ d : gmap nat (list (list (list A))),
    (∀ i b, d !! i = Some b → Forall (λ p, length p = i) b) →
    ∀ i b, foldl group_step d partitions !! i = Some b →
           Forall (λ p, length p = i) b).
  { induction partitions as [|p ps IH]; intros d Hd; simpl; [done|].
    apply IH. intros i b. unfold group_step.
    destruct (d !! length p) as [bucket'|] eqn:Hp.
    - destruct (decide (length p = i)) as [<-|Hne].
      + rewrite lookup_insert_eq. intros [= <-].
        apply Forall_app. split; [by eapply Hd|]. by repeat constructor.
      + rewrite lookup_insert_ne by done. apply Hd.
    - destruct (decide (length p = i)) as [<-|Hne].
      + rewrite lookup_insert_eq. intros [= <-]. by repeat constructor.
      + rewrite lookup_insert_ne by done. apply Hd. }
  apply H. intros i b. by rewrite lookup_empty.
Qed.

Lemma permutations_of_length {A} r (l : list A) ordering :
  ordering ∈ permutations_of r l → length ordering = r.
Proof.
  revert l ordering. induction r as [|r IH]; intros l o Ho; simpl in Ho.
  - by apply list_elem_of_singleton in Ho as ->.
  - apply list_elem_of_In, in_flat_map in Ho as ([x rest] & _ & Ho).
    apply in_map_iff in Ho as (o' & <- & Ho'). simpl.
    f_equal. eapply IH. by apply list_elem_of_In.
Qed.

(** The flag is true only when every pair the loop looked at passed. *)
Lemma pairs_connectable_true indices input_partition output_ordering fee :
  pairs_connectable indices input_partition output_ordering fee = Done true →
  ∀ i, i ∈ indices → ∃ a b,
    input_partition !! i = Some a ∧ output_ordering !! i = Some b ∧
    is_connectable a b fee = true.
Proof.
  induction indices as [|j indices IH]; simpl; intros H i Hi.
  - by apply elem_of_nil in Hi.
  - unfold py_get in H.
    destruct (input_partition !! j) as [a|] eqn:Ha; [|done].
    destruct (output_ordering !! j) as [b|] eqn:Hb; [|done].
    simpl in H. destruct (is_connectable a b fee) eqn:Hc; [|done].
    apply elem_of_cons in Hi as [->|Hi]; eauto.
Qed.

Lemma is_connectable_bounds input_subset output_subset fee :
  is_connectable input_subset output_subset fee = true ↔
  (sum_values output_subset ≤ sum_values input_subset
                            ≤ sum_values output_subset + fee)%Z.
Proof. unfold is_connectable. rewrite andb_true_iff. lia. Qed.

Lemma get_acceptable_connections_within size input_partition output_partition
    fee connections :
  length input_partition = size → length output_partition = size →
  get_acceptable_connections size input_partition output_partition fee
    = Done connections →
  Forall (within_fee fee) connections.
Proof.
  intros Hin Hout. unfold get_acceptable_connections.
  apply for_each_invariant; [constructor|].
  intros acc o acc' Ho Hacc.
  destruct (pairs_connectable _ _ _ _) as [[|]| |] eqn:Hp; simpl; try done;
    intros [= <-]; [|done].
  apply Forall_app. split; [done|]. constructor; [|constructor].
  apply permutations_of_length in Ho.
  split; simpl; [lia|].
  intros i a b Ha Hb.
  destruct (pairs_connectable_true _ _ _ _ Hp i) as (a' & b' & Ha' & Hb' & Hc).
  { apply elem_of_seq. apply lookup_lt_Some in Ha. lia. }
  rewrite Ha in Ha'. rewrite Hb in Hb'. injection Ha' as <-. injection Hb' as <-.
  apply is_connectable_bounds in Hc. lia.
Qed.

Lemma bind_done {A B} (c : outcome A) (f : A → outcome B) r :
  c ≫= f = Done r → ∃ a, c = Done a ∧ f a = Done r.
Proof. destruct c as [a| |]; simpl; [eauto | done..]. Qed.

Lemma py_item_done {V} (d : gmap nat V) key v :
  py_item d key = Done v → d !! key = Some v.
Proof. unfold py_item. destruct (d !! key); [by intros [= ->] | done]. Qed.

Lemma get_acceptable_partitions_within fuel t partitions :
  get_acceptable_partitions fuel t = Done partitions →
  Forall (within_fee (tx_fee t)) partitions.
Proof.
  unfold get_acceptable_partitions.
  intros (ips & _ & (ops & _ & H)%bind_done)%bind_done. revert H.
  apply for_each_invariant; [constructor|].
  intros acc i acc' _ Hacc (ib & Hib%py_item_done & H)%bind_done. revert H.
  apply group_partitions_sizes in Hib.
  apply for_each_invariant; [done|].
  intros acc1 ip acc1' Hip Hacc1 (ob & Hob%py_item_done & H)%bind_done. revert H.
  apply group_partitions_sizes in Hob.
  apply for_each_invariant; [done|].
  intros acc2 op acc2' Hop Hacc2 (conns & Hc & [= <-])%bind_done.
  apply Forall_app. split; [done|].
  eapply get_acceptable_connections_within; [| |exact Hc].
  - by apply (proj1 (Forall_forall _ _) Hib).
  - by apply (proj1 (Forall_forall _ _) Hob).
Qed.

(** * The simplifier *)

Lemma sum_values_cons x l : sum_values (x :: l) = (x.2 + sum_values l)%Z.
Proof. reflexivity. Qed.

Lemma sum_values_app a b : sum_values (a ++ b) = (sum_values a + sum_values b)%Z.
Proof.
  induction a as [|x a IH]; [done|].
  change ((x :: a) ++ b) with (x :: (a ++ b)).
  rewrite !sum_values_cons, IH. lia.
Qed.

Lemma sum_values_perm a b : a ≡ₚ b → sum_values a = sum_values b.
Proof.
  induction 1 as [|x a b _ IH|x y a|a b c _ IH1 _ IH2];
    rewrite ?sum_values_cons; [done | lia | lia | congruence].
Qed.

Lemma insert_sorted_perm {A} (key : A → Z) x l : insert_sorted key x l ≡ₚ x :: l.
Proof.
  induction l as [|y l IH]; simpl; [done|].
  destruct (key x <=? key y)%Z; [done|].
  rewrite IH. apply Permutation_swap.
Qed.

Lemma py_sort_perm {A} (key : A → Z) l : py_sort key l ≡ₚ l.
Proof.
  induction l as [|x l IH]; simpl; [done|].
  by rewrite insert_sorted_perm, IH.
Qed.

(** The model of [sort] does what Python's sort does: the result is in
    ascending order of the keys, and elements with the same key keep their
    order. *)
Lemma insert_sorted_sorted {A} (key : A → Z) x l :
  Sorted (λ a b, (key a ≤ key b)%Z) l →
  Sorted (λ a b, (key a ≤ key b)%Z) (insert_sorted key x l).
Proof.
  induction 1 as [|y l Hl IH Hy]; simpl.
  - by repeat constructor.
  - destruct (key x <=? key y)%Z eqn:Hxy.
    + constructor; [by constructor|]. constructor. lia.
    + constructor; [done|]. destruct Hy as [|z l Hz]; simpl.
      * constructor. lia.
      * destruct (key x <=? key z)%Z; constructor; lia.
Qed.

Lemma py_sort_sorted {A} (key : A → Z) l :
  Sorted (λ a b, (key a ≤ key b)%Z) (py_sort key l).
Proof.
  induction l as [|x l IH]; simpl; [constructor|].
  by apply insert_sorted_sorted.
Qed.

Lemma insert_sorted_stable {A} (key : A → Z) x l v :
  filter (λ y, key y = v) (insert_sorted key x l) =
  filter (λ y, key y = v) (x :: l).
Proof.
  induction l as [|y l IH]; simpl; [done|].
  destruct (key x <=? key y)%Z eqn:Hxy; [done|].
  rewrite (filter_cons _ y), IH, !(filter_cons _ x), !(filter_cons _ y).
  repeat case_decide; try done; lia.
Qed.

Lemma py_sort_stable {A} (key : A → Z) l v :
  filter (λ y, key y = v) (py_sort key l) = filter (λ y, key y = v) l.
Proof.
  induction l as [|x l IH]; simpl; [done|].
  by rewrite insert_sorted_stable, !filter_cons, IH.
Qed.

(** The scan over the sorted inputs marks a leading run of them and takes
    their values off the fee; it stops at the first input the fee that is
    left does not cover. *)
Lemma mark_small_inputs_spec inputs : ∀ fee marked marked' fee',
  mark_small_inputs inputs fee marked = (marked', fee') →
  ∃ taken rest,
    inputs = taken ++ rest ∧ marked' = marked ++ taken ∧
    fee' = (fee - sum_values taken)%Z ∧
    match rest with [] => True | x :: _ => (fee' < x.2)%Z end.
Proof.
  induction inputs as [|x inputs IH]; intros fee marked marked' fee'; simpl.
  - intros [= <- <-]. exists [], [].
    split_and!; rewrite ?app_nil_r; try done. change (sum_values []) with 0%Z. lia.
  - destruct (x.2 <=? fee)%Z eqn:Hx.
    + intros (taken & rest & -> & -> & -> & Hrest)%IH.
      exists (x :: taken), rest. rewrite <- (assoc_L (++)).
      split_and!; try done. rewrite sum_values_cons. lia.
    + intros [= <- <-]. exists [], (x :: inputs).
      split_and!; rewrite ?app_nil_r; try done;
        [change (sum_values []) with 0%Z; lia | lia].
Qed.

(** The scan over the sorted outputs marks every output up to [delta]. *)
Lemma mark_small_outputs_spec outputs delta : ∀ fee marked,
  mark_small_outputs outputs delta fee marked =
  (marked ++ filter (λ x, (x.2 ≤ delta)%Z) outputs,
   (fee + sum_values (filter (λ x, (x.2 ≤ delta)%Z) outputs))%Z).
Proof.
  induction outputs as [|x outputs IH]; intros fee marked; simpl.
  - rewrite filter_nil, app_nil_r. change (sum_values []) with 0%Z. f_equal. lia.
  - destruct (x.2 <=? delta)%Z eqn:Hx.
    + rewrite IH, filter_cons_True by lia.
      by rewrite <- (assoc_L (++)), sum_values_cons, Z.add_assoc.
    + rewrite IH, filter_cons_False by lia. done.
Qed.

Lemma filter_not_in_self (marked : list entry) :
  filter (λ x, x ∉ marked) marked = [].
Proof.
  assert (H : ∀ l, (∀ x, x ∈ l → x ∈ marked) → filter (λ x, x ∉ marked) l = []).
  { induction l as [|x l IH]; intros Hl; [done|].
    rewrite filter_cons_False; [|intros Hx; apply Hx, Hl; left].
    apply IH. intros y Hy. apply Hl. by right. }
  by apply H.
Qed.

(** What [remove_small_inputs] leaves: the unmarked inputs that equal no
    marked one, and the fee less the marked values. *)
Lemma remove_small_inputs_spec t :
  let inputs := py_sort sort_key (tx_inputs t) in
  let marked := (mark_small_inputs inputs (tx_fee t) []).1 in
  ∃ rest t',
    remove_small_inputs t = Done (PyTransaction, t') ∧
    inputs = marked ++ rest ∧
    match rest with [] => True | x :: _ => (tx_fee t' < x.2)%Z end ∧
    tx_id t' = tx_id t ∧ tx_outputs t' = tx_outputs t ∧
    tx_fee t' = (tx_fee t - sum_values marked)%Z ∧
    tx_inputs t' = filter (λ x, x ∉ marked) rest.
Proof.
  intros inputs marked. unfold marked, inputs, remove_small_inputs.
  destruct (mark_small_inputs (py_sort sort_key (tx_inputs t)) (tx_fee t) [])
    as [taken fee'] eqn:Hmark.
  apply mark_small_inputs_spec in Hmark as (taken' & rest & Hs & -> & -> & Hrest).
  simpl in *. exists rest. eexists. split; [done|]. simpl.
  split_and!; try done.
  by rewrite Hs, filter_app, filter_not_in_self.
Qed.

(** What [remove_small_outputs] leaves when it returns. *)
Lemma remove_small_outputs_spec fuel t v t' :
  remove_small_outputs fuel t = Done (v, t') →
  ∃ delta marked,
    marked = filter (λ x, (x.2 ≤ delta)%Z) (py_sort sort_key (tx_outputs t)) ∧
    v = PyTransaction ∧
    tx_id t' = tx_id t ∧ tx_inputs t' = tx_inputs t ∧
    tx_fee t' = (tx_fee t + sum_values marked)%Z ∧
    tx_outputs t' = filter (λ x, x ∉ marked) (py_sort sort_key (tx_outputs t)).
Proof.
  unfold remove_small_outputs.
  intros (aps & _ & (delta & _ & H)%bind_done)%bind_done.
  rewrite mark_small_outputs_spec in H. injection H as <- <-.
  exists delta. eexists. split; [done|]. simpl. done.
Qed.

Lemma filter_all {A} (P : A → Prop) `{!∀ x, Decision (P x)} (l : list A) :
  (∀ x, x ∈ l → P x) → filter P l = l.
Proof.
  induction l as [|x l IH]; intros Hall; [done|].
  rewrite filter_cons_True by (apply Hall; left).
  f_equal. apply IH. intros y Hy. apply Hall. by right.
Qed.

Lemma sum_values_split (P Q : entry → Prop)
    `{!∀ x, Decision (P x), !∀ x, Decision (Q x)} (l : list entry) :
  (∀ x, x ∈ l → (Q x ↔ ¬ P x)) →
  sum_values l = (sum_values (filter P l) + sum_values (filter Q l))%Z.
Proof.
  induction l as [|x l IH]; intros Hiff; [done|].
  assert (Hl : ∀ y, y ∈ l → (Q y ↔ ¬ P y)) by (intros y Hy; apply Hiff; by right).
  specialize (IH Hl).
  assert (Hx : Q x ↔ ¬ P x) by (apply Hiff; left).
  destruct (decide (P x)) as [HP|HP].
  - rewrite (filter_cons_True P), (filter_cons_False Q) by tauto.
    rewrite !sum_values_cons. lia.
  - rewrite (filter_cons_False P), (filter_cons_True Q) by tauto.
    rewrite !sum_values_cons. lia.
Qed.

Lemma outputs_step_balance fuel t v t' :
  remove_small_outputs fuel t = Done (v, t') → balanced t → balanced t'.
Proof.
  intros (delta & marked & Hmarked & _ & _ & Hin & Hfee & Hout)%remove_small_outputs_spec.
  unfold balanced. rewrite Hin, Hfee, Hout. intros ->.
  rewrite <- (sum_values_perm _ _ (py_sort_perm sort_key (tx_outputs t))).
  rewrite (sum_values_split (λ x, (x.2 ≤ delta)%Z) (λ x, x ∉ marked)
             (py_sort sort_key (tx_outputs t))).
  - match goal with
    | |- (sum_values ?a + _ + _)%Z = _ =>
        assert (Hm : sum_values marked = sum_values a)
          by (rewrite Hmarked; reflexivity)
    end.
    lia.
  - intros x Hx. rewrite Hmarked, list_elem_of_filter. tauto.
Qed.

(** X1: when [remove_small_outputs] returns on a balanced transaction, the
    transaction it leaves is balanced: an output equal to a marked one is
    marked itself. *)
Lemma remove_small_outputs_balanced fuel t v t' :
  remove_small_outputs fuel t = Done (v, t') → balanced t → balanced t'.
Proof. apply outputs_step_balance. Qed.

Lemma remove_small_outputs_balanced_witness :
  balanced (Transaction "t1" [("a1", 20%Z); ("a2", 10%Z)]
              [("b2", 8%Z); ("b1", 17%Z)] 5).
Proof.
  apply (remove_small_outputs_balanced 10
           (Transaction "t1" [("a1", 20%Z); ("a2", 10%Z)]
              [("b1", 17%Z); ("b2", 8%Z); ("b3", 1%Z)] 4) PyTransaction).
  - vm_compute. reflexivity.
  - reflexivity.
Defined.

Lemma inputs_step_balance t v t' :
  NoDup (tx_inputs t) →
  remove_small_inputs t = Done (v, t') → balanced t → balanced t'.
Proof.
  intros Hnodup Hrun.
  pose proof (remove_small_inputs_spec t) as Hspec. cbv zeta in Hspec.
  set (marked := (mark_small_inputs _ _ _).1) in Hspec. clearbody marked.
  destruct Hspec as (rest & t1 & Ht1 & Hs & _ & _ & Hout & Hfee & Hin).
  rewrite Ht1 in Hrun. injection Hrun as <- <-.
  unfold balanced. rewrite Hout, Hfee, Hin.
  rewrite <- (sum_values_perm _ _ (py_sort_perm sort_key (tx_inputs t))).
  rewrite <- (py_sort_perm sort_key (tx_inputs t)) in Hnodup.
  rewrite Hs in Hnodup |- *. apply NoDup_app in Hnodup as (_ & Hdisj & _).
  rewrite filter_all, sum_values_app; [lia|].
  intros x Hx Hm. by apply (Hdisj x).
Qed.

(** X2: on a balanced transaction no two inputs of which are equal,
    [remove_small_inputs] leaves a balanced transaction. *)
Lemma remove_small_inputs_balanced t v t' :
  NoDup (tx_inputs t) →
  remove_small_inputs t = Done (v, t') → balanced t → balanced t'.
Proof. apply inputs_step_balance. Qed.

Lemma remove_small_inputs_balanced_witness :
  balanced (Transaction "t0" [("a2", 40%Z); ("a1", 50%Z)]
              [("b1", 49%Z); ("b2", 39%Z)] 2).
Proof.
  apply (remove_small_inputs_balanced figure10 PyTransaction).
  - apply (bool_decide_unpack _). vm_compute. exact I.
  - vm_compute. reflexivity.
  - reflexivity.
Defined.

Lemma mark_small_inputs_fee inputs : ∀ fee marked,
  (0 ≤ fee)%Z → (0 ≤ (mark_small_inputs inputs fee marked).2)%Z.
Proof.
  induction inputs as [|x inputs IH]; intros fee marked Hfee; simpl; [done|].
  destruct (x.2 <=? fee)%Z eqn:Hx; [|done]. apply IH. lia.
Qed.

(** X3: [remove_small_inputs] never drives the fee below 0. *)
Lemma remove_small_inputs_fee_nonneg t v t' :
  (0 ≤ tx_fee t)%Z → remove_small_inputs t = Done (v, t') → (0 ≤ tx_fee t')%Z.
Proof.
  intros Hfee. unfold remove_small_inputs.
  pose proof (mark_small_inputs_fee (py_sort sort_key (tx_inputs t)) (tx_fee t) [] Hfee)
    as Hmark.
  destruct (mark_small_inputs _ _ _) as [marked fee']. by intros [= <- <-].
Qed.

Lemma remove_small_inputs_fee_nonneg_witness : (0 ≤ 2)%Z.
Proof.
  apply (remove_small_inputs_fee_nonneg figure10 PyTransaction
           (Transaction "t0" [("a2", 40%Z); ("a1", 50%Z)]
              [("b1", 49%Z); ("b2", 39%Z)] 2)).
  - simpl. lia.
  - vm_compute. reflexivity.
Defined.

Lemma simplify_inv fuel t v t' :
  simplify fuel t = Done (v, t') ↔
  v = PyNone ∧
  ∃ t1, remove_small_inputs t = Done (PyTransaction, t1) ∧
        remove_small_outputs fuel t1 = Done (PyTransaction, t').
Proof.
  unfold simplify.
  pose proof (remove_small_inputs_spec t) as Hspec. cbv zeta in Hspec.
  destruct Hspec as (_ & t1 & Ht1 & _).
  rewrite Ht1. simpl.
  destruct (remove_small_outputs fuel t1) as [[v2 t2]| |] eqn:H2; simpl.
  - pose proof H2 as (_ & _ & _ & -> & _)%remove_small_outputs_spec.
    split.
    + intros [= <- <-]. split; [done|]. eauto.
    + intros (-> & t1' & [= <-] & H2'). rewrite H2 in H2'. by injection H2' as <-.
  - split; [done|]. intros (_ & t1' & [= <-] & H2'). congruence.
  - split; [done|]. intros (_ & t1' & [= <-] & H2'). congruence.
Qed.

Lemma py_max_ones n : 0 < n → py_max (replicate n 1%Z) = Done 1%Z.
Proof.
  intros Hn. destruct n as [|n]; [lia|]. clear Hn. simpl. f_equal.
  induction n as [|n IH]; [done | exact IH].
Qed.

Lemma fill_ones {A} (elements : list A) r : ∀ i s,
  i + r ≤ length elements →
  fill elements i (replicate r 1%Z) [s] = Done [s ++ take r (drop i elements)].
Proof.
  induction r as [|r IH]; intros i s Hi; simpl.
  - by rewrite app_nil_r.
  - destruct (lookup_lt_is_Some_2 elements i) as [x Hx]; [lia|].
    unfold py_get. rewrite Hx. simpl.
    rewrite IH by lia.
    by rewrite (drop_S _ _ _ Hx), <- (assoc_L (++)).
Qed.

Lemma to_partition_ones {A} (elements : list A) :
  elements ≠ [] →
  to_partition elements (replicate (length elements) 1%Z) = Done [elements].
Proof.
  intros Hne. unfold to_partition.
  rewrite py_max_ones by (destruct elements; [done | simpl; lia]).
  simpl mbind. change (replicate (Z.to_nat 1) []) with [@nil A].
  rewrite fill_ones by done. by rewrite drop_0, firstn_all.
Qed.

Lemma get_partitions_below {A} fuel (elements : list A) max_size :
  elements ≠ [] → (max_size < 1)%Z →
  get_partitions (S fuel) elements max_size = Done [[elements]].
Proof.
  intros Hne Hk. unfold get_partitions.
  rewrite get_codewords_below; [|destruct elements; [done | simpl; lia] | done].
  simpl. by rewrite to_partition_ones.
Qed.

Lemma get_partitions_empty {A} fuel max_size :
  get_partitions fuel (@nil A) max_size = OutOfFuel.
Proof. unfold get_partitions. simpl. by rewrite get_codewords_empty. Qed.

Lemma NoDup_map_cons (c : Z) (l : list (list Z)) : NoDup l → NoDup (map (cons c) l).
Proof.
  induction 1 as [|s l Hs _ IH]; simpl; constructor; [|done].
  intros (s' & [= ->] & Hs')%list_elem_of_In%in_map_iff.
  by apply Hs, list_elem_of_In.
Qed.

Lemma NoDup_by_head (h : Z → list (list Z)) (cs : list Z) :
  NoDup cs → (∀ c, NoDup (h c)) →
  NoDup (flat_map (λ c, map (cons c) (h c)) cs).
Proof.
  intros Hcs Hh. induction Hcs as [|c cs Hc _ IH]; simpl; [constructor|].
  apply NoDup_app. split_and!; [by apply NoDup_map_cons | | done].
  intros s (s1 & <- & _)%list_elem_of_In%in_map_iff
           (c' & Hc' & (s2 & [= -> _] & _)%in_map_iff)%list_elem_of_In%in_flat_map.
  by apply Hc, list_elem_of_In.
Qed.

Lemma rgs_ext_NoDup k r : ∀ m, NoDup (rgs_ext k m r).
Proof.
  induction r as [|r IH]; intros m; simpl.
  - apply NoDup_singleton.
  - apply (NoDup_by_head (λ c, rgs_ext k (Z.max m c) r)); [apply NoDup_seqZ|].
    intros c. apply IH.
Qed.

Lemma rgs_ext_complete k r : ∀ m s,
  s ∈ rgs_ext k m r ↔ length s = r ∧ grows_within k m s.
Proof.
  induction r as [|r IH]; intros m s; simpl.
  - rewrite list_elem_of_singleton. split; [by intros ->|].
    intros [Hlen _]. by destruct s.
  - rewrite list_elem_of_In, in_flat_map. split.
    + intros (c & Hc%list_elem_of_In & (s' & <- & Hs')%in_map_iff).
      apply list_elem_of_In, IH in Hs' as [Hlen Hg].
      unfold next_values in Hc. apply elem_of_seqZ in Hc.
      simpl. split_and!; [lia.. | done].
    + intros [Hlen Hg]. destruct s as [|c s']; [done|].
      destruct Hg as (Hc1 & Hc2 & Hg). exists c. split.
      * apply list_elem_of_In, elem_of_seqZ. lia.
      * apply in_map, list_elem_of_In, IH. split; [simpl in Hlen; lia | done].
Qed.

(** With a bound of at least 1 the codewords are the restricted growth
    strings of the length. *)
Lemma codewords_of_complete n k c :
  (1 ≤ k)%Z →
  c ∈ codewords_of n k ↔
  length c = n ∧ ∃ s, c = 1%Z :: s ∧ grows_within k 1 s.
Proof.
  intros Hk. unfold codewords_of. rewrite decide_True by done.
  destruct n as [|r]; simpl.
  - split; [by intros ?%elem_of_nil|]. by intros (? & s & -> & _).
  - rewrite list_elem_of_In, in_map_iff. split.
    + intros (s & <- & [Hlen Hg]%list_elem_of_In%rgs_ext_complete).
      simpl. split; [lia|]. eauto.
    + intros (Hlen & s & -> & Hg). exists s. split; [done|].
      apply list_elem_of_In, rgs_ext_complete. split; [simpl in Hlen; lia | done].
Qed.

(** No codeword comes twice. *)
Lemma codewords_of_NoDup n k : NoDup (codewords_of n k).
Proof.
  unfold codewords_of. destruct (decide (1 ≤ k)%Z); [|apply NoDup_singleton].
  destruct n as [|r]; simpl; [constructor|].
  apply NoDup_map_cons, rgs_ext_NoDup.
Qed.

Lemma nonempty_length {A} (l : list A) : l ≠ [] → 0 < length l.
Proof. destruct l; [done | simpl; lia]. Qed.

(** * The partitions are the canonical set partitions *)

(** The loop puts the elements where it would put their positions. *)
Lemma fill_at_positions {A} (elements : list A) codeword :
  ∀ i partition blocks partition',
  at_positions elements blocks partition →
  fill elements i codeword partition = Done partition' →
  ∃ blocks', fill (seq 0 (length elements)) i codeword blocks = Done blocks' ∧
             at_positions elements blocks' partition'.
Proof.
  induction codeword as [|v codeword IH];
    intros i partition blocks partition' Hpos Hfill.
  - simpl in *. injection Hfill as <-. eauto.
  - cbn [fill] in *. unfold py_get in *.
    destruct (elements !! i) as [x|] eqn:Hx; [|done].
    rewrite lookup_seq_lt by (by eapply lookup_lt_Some).
    rewrite <- (Forall2_length _ _ _ Hpos) in Hfill.
    destruct (py_index (length blocks) (v - 1)) as [pos| |]; simpl in *; [|done..].
    eapply IH; [|done]. apply Forall2_alter; [done|].
    intros b s _ _ Hbs. apply Forall2_app; [done|]. by constructor.
Qed.

Lemma to_partition_at_positions {A} (elements : list A) codeword partition :
  to_partition elements codeword = Done partition →
  ∃ blocks, to_partition (seq 0 (length elements)) codeword = Done blocks ∧
            at_positions elements blocks partition.
Proof.
  unfold to_partition. destruct (py_max codeword) as [m| |]; simpl; [|done..].
  apply fill_at_positions, at_positions_empty.
Qed.

(** The loop run on the positions themselves: block [j] receives, in
    ascending order, the positions that the codeword gives the value
    [j + 1]. *)
Lemma fill_seq_spec n codeword : ∀ i blocks blocks',
  fill (seq 0 n) i codeword blocks = Done blocks' →
  (∀ v, v ∈ codeword → (1 ≤ v ≤ Z.of_nat (length blocks))%Z) →
  Forall (λ b, StronglySorted lt b ∧ Forall (λ x, x < i) b) blocks →
  length blocks' = length blocks ∧
  Forall (StronglySorted lt) blocks' ∧
  ∀ j x, (∃ b', blocks' !! j = Some b' ∧ x ∈ b') ↔
         ((∃ b, blocks !! j = Some b ∧ x ∈ b) ∨
          (i ≤ x ∧ codeword !! (x - i) = Some (Z.of_nat (S j)))).
Proof.
  induction codeword as [|v codeword IH]; intros i blocks blocks' Hfill Hv Hblocks.
  - simpl in Hfill. injection Hfill as <-. split; [done|]. split.
    { eapply Forall_impl; [done|]. by intros ? [? _]. }
    intros j x. split; [eauto|]. intros [?|[_ Hc]]; [done|].
    by rewrite lookup_nil in Hc.
  - cbn [fill] in Hfill. unfold py_get in Hfill.
    destruct (seq 0 n !! i) as [x0|] eqn:Hi; [|done].
    apply lookup_seq in Hi as [-> Hi].
    assert (Hvr : (1 ≤ v ≤ Z.of_nat (length blocks))%Z) by (apply Hv; left).
    simpl in Hfill. rewrite py_index_subset in Hfill by done. simpl in Hfill.
    set (pos := Z.to_nat (v - 1)) in *.
    apply IH in Hfill as (Hlen & Hsorted & Hmem).
    + rewrite length_alter in Hlen. split; [done|]. split; [done|].
      intros j x. rewrite Hmem. split.
      * intros [(b & Hb & Hx)|[Hx Hc]].
        -- destruct (decide (pos = j)) as [<-|Hne].
           ++ rewrite list_lookup_alter_eq in Hb.
              destruct (blocks !! pos) as [b0|] eqn:Hb0; simplify_eq/=.
              apply elem_of_app in Hx as [Hx|Hx%list_elem_of_singleton].
              ** left. eauto.
              ** right. subst x. split; [lia|]. rewrite Nat.sub_diag. simpl.
                 f_equal. unfold pos. lia.
           ++ rewrite list_lookup_alter_ne in Hb by done. left; eauto.
        -- right. split; [lia|]. by replace (x - i) with (S (x - S i)) by lia.
      * intros [(b & Hb & Hx)|[Hx Hc]].
        -- left. destruct (decide (pos = j)) as [<-|Hne].
           ++ exists (b ++ [i]). rewrite list_lookup_alter_eq, Hb. split; [done|].
              apply elem_of_app. by left.
           ++ exists b. by rewrite list_lookup_alter_ne.
        -- destruct (decide (x = i)) as [->|Hne].
           ++ rewrite Nat.sub_diag in Hc. simpl in Hc. injection Hc as Hc. left.
              assert (pos = j) as <- by (unfold pos; lia).
              destruct (lookup_lt_is_Some_2 blocks pos) as [b Hb];
                [unfold pos; lia|].
              exists (b ++ [i]). rewrite list_lookup_alter_eq, Hb. split; [done|].
              apply elem_of_app. right. by apply list_elem_of_singleton.
           ++ right. split; [lia|].
              by replace (x - i) with (S (x - S i)) in Hc by lia.
    + intros w Hw. rewrite length_alter. apply Hv. by right.
    + apply Forall_lookup. intros j b Hb. rewrite Forall_lookup in Hblocks.
      destruct (decide (pos = j)) as [<-|Hne].
      * rewrite list_lookup_alter_eq in Hb.
        destruct (blocks !! pos) as [b0|] eqn:Hb0; simplify_eq/=.
        destruct (Hblocks _ _ Hb0) as [Hs Hlt]. split.
        -- apply StronglySorted_app_2; [|done|repeat constructor].
           intros a c Ha ->%list_elem_of_singleton.
           rewrite Forall_forall in Hlt. by apply Hlt.
        -- apply Forall_app. split; [|repeat constructor; lia].
           eapply Forall_impl; [done|]. intros a Ha. simpl in Ha. lia.
      * rewrite list_lookup_alter_ne in Hb by done.
        destruct (Hblocks _ _ Hb) as [Hs Hlt]. split; [done|].
        eapply Forall_impl; [done|]. intros a Ha. simpl in Ha. lia.
Qed.

Lemma to_partition_blocks n codeword blocks :
  to_partition (seq 0 n) codeword = Done blocks →
  (∀ v, v ∈ codeword → (1 ≤ v)%Z) →
  Forall (StronglySorted lt) blocks ∧
  ∀ j x, (∃ b, blocks !! j = Some b ∧ x ∈ b) ↔
         codeword !! x = Some (Z.of_nat (S j)).
Proof.
  unfold to_partition. intros Hrun Hpos.
  destruct codeword as [|v vs]; [done|].
  change (fill (seq 0 n) 0 (v :: vs) (replicate (Z.to_nat (foldl Z.max v vs)) [])
          = Done blocks) in Hrun.
  apply fill_seq_spec in Hrun as (_ & Hsorted & Hmem).
  - split; [done|]. intros j x. rewrite Hmem, Nat.sub_0_r. split.
    + intros [(b & Hb & Hx)|[_ Hc]]; [|done].
      apply lookup_replicate in Hb as [-> _]. by apply elem_of_nil in Hx.
    + intros Hc. right. split; [lia | done].
  - intros w Hw. rewrite length_replicate. split; [by apply Hpos|].
    assert (Hle : (w ≤ foldl Z.max v vs)%Z).
    { apply elem_of_cons in Hw as [->|Hw];
        [apply foldl_max_le | by apply foldl_max_bound]. }
    assert (1 ≤ v)%Z by (apply Hpos; left).
    pose proof (foldl_max_le v vs). lia.
  - apply Forall_forall. intros b [-> _]%elem_of_replicate.
    split; constructor.
Qed.

(** In a string that grows, a value above the largest of the prefix comes
    after the value one below it. *)
Lemma grows_earlier s : ∀ m x v,
  grows m s → s !! x = Some (v + 1)%Z → (m < v)%Z →
  ∃ y, y < x ∧ s !! y = Some v.
Proof.
  induction s as [|a s IH]; intros m x v Hg Hx Hv; [done|].
  destruct Hg as [Ha Hg]. destruct x as [|x]; simpl in Hx.
  - injection Hx as ->. lia.
  - destruct (decide (Z.max m a < v)%Z) as [Hlt|Hge].
    + destruct (IH _ _ _ Hg Hx Hlt) as (y & Hy & Hsy).
      exists (S y). split; [lia | done].
    + exists 0. split; [lia|]. simpl. f_equal. lia.
Qed.

Lemma codeword_earlier s x v :
  grows 1 s → (1%Z :: s) !! x = Some (v + 1)%Z → (1 ≤ v)%Z →
  ∃ y, y < x ∧ (1%Z :: s) !! y = Some v.
Proof.
  intros Hg Hx Hv. destruct x as [|x]; simpl in Hx; [injection Hx as Hx; lia|].
  destruct (decide (v = 1%Z)) as [->|Hne].
  - exists 0. split; [lia | done].
  - destruct (grows_earlier s 1 x v Hg Hx) as (y & Hy & Hsy); [lia|].
    exists (S y). split; [lia | done].
Qed.

Lemma sorted_head_le b x y :
  StronglySorted lt b → head b = Some x → y ∈ b → x ≤ y.
Proof.
  intros Hs Hx Hy. destruct b as [|a b]; [done|]. injection Hx as ->.
  apply StronglySorted_inv in Hs as [_ Hall].
  apply elem_of_cons in Hy as [->|Hy]; [lia|].
  rewrite Forall_forall in Hall. specialize (Hall _ Hy). lia.
Qed.

Lemma head_elem_of {A} (b : list A) x : head b = Some x → x ∈ b.
Proof. destruct b; [done|]. intros [= ->]. by left. Qed.

Lemma codewords_of_positive n k c v :
  0 < n → c ∈ codewords_of n k → v ∈ c → (1 ≤ v)%Z.
Proof.
  intros Hn (_ & s & -> & Hg)%codewords_of_spec Hv; [|done].
  apply elem_of_cons in Hv as [->|Hv]; [lia|]. by eapply grows_positive.
Qed.

(** The blocks of a codeword are a canonical listing of a partition of
    the positions. *)
Lemma codeword_blocks_canonical n k c blocks :
  0 < n → c ∈ codewords_of n k →
  to_partition (seq 0 n) c = Done blocks →
  set_partition n blocks ∧ canonical blocks ∧
  length blocks = Z.to_nat (foldl Z.max 1%Z c).
Proof.
  intros Hn Hc Hrun.
  destruct (codeword_to_partition (seq 0 n) k c) as (p & Hp & Hlen & Hpart).
  { destruct n; [lia | done]. }
  { by rewrite length_seq. }
  rewrite Hrun in Hp. injection Hp as <-.
  destruct Hpart as (Hne & Hperm & _).
  destruct (to_partition_blocks n c blocks Hrun) as [Hsorted Hmem].
  { intros v. by apply codewords_of_positive with n k. }
  split; [done|]. split; [|done]. split; [done|].
  intros j b b' x x' Hb Hb' Hx Hx'.
  assert (Hcx' : c !! x' = Some (Z.of_nat (S (S j)))).
  { apply Hmem. exists b'. split; [done|]. by apply head_elem_of. }
  apply codewords_of_spec in Hc as (_ & s & -> & Hg); [|done].
  destruct (codeword_earlier s x' (Z.of_nat (S j)) Hg) as (y & Hy & Hcy); [|lia|].
  { rewrite Hcx'. f_equal. lia. }
  apply Hmem in Hcy as (b0 & Hb0 & Hyb). rewrite Hb in Hb0. injection Hb0 as <-.
  rewrite Forall_lookup in Hsorted.
  pose proof (sorted_head_le b x y (Hsorted _ _ Hb) Hx Hyb). lia.
Qed.

(** Two codewords with the same blocks are the same codeword. *)
Lemma codeword_blocks_inj n k c1 c2 blocks :
  0 < n → c1 ∈ codewords_of n k → c2 ∈ codewords_of n k →
  to_partition (seq 0 n) c1 = Done blocks →
  to_partition (seq 0 n) c2 = Done blocks →
  c1 = c2.
Proof.
  intros Hn Hc1 Hc2 H1 H2.
  destruct (to_partition_blocks n c1 blocks H1) as [_ Hm1].
  { intros v. by apply codewords_of_positive with n k. }
  destruct (to_partition_blocks n c2 blocks H2) as [_ Hm2].
  { intros v. by apply codewords_of_positive with n k. }
  assert (Hsub : ∀ a b : list Z, (∀ v : Z, v ∈ a → (1 ≤ v)%Z) →
    (∀ j x, (∃ b0, blocks !! j = Some b0 ∧ x ∈ b0) ↔ a !! x = Some (Z.of_nat (S j))) →
    (∀ j x, (∃ b0, blocks !! j = Some b0 ∧ x ∈ b0) ↔ b !! x = Some (Z.of_nat (S j))) →
    ∀ x v, a !! x = Some v → b !! x = Some v).
  { intros a b Hpos Ha Hb x v Hx.
    assert (1 ≤ v)%Z by (apply Hpos; by eapply list_elem_of_lookup_2).
    replace v with (Z.of_nat (S (Z.to_nat (v - 1)))) in * by lia.
    by apply Hb, Ha. }
  apply list_eq. intros x.
  destruct (c1 !! x) as [v|] eqn:Hx1.
  - symmetry. apply (Hsub c1 c2); try done.
    intros w. by apply codewords_of_positive with n k.
  - destruct (c2 !! x) as [v|] eqn:Hx2; [|done].
    apply (Hsub c2 c1) in Hx2; [congruence|..]; try done.
    intros w. by apply codewords_of_positive with n k.
Qed.

Lemma elem_of_concat {A} (ls : list (list A)) x :
  x ∈ concat ls ↔ ∃ l, l ∈ ls ∧ x ∈ l.
Proof.
  induction ls as [|l0 ls IH]; simpl.
  - split; [by intros ?%elem_of_nil | by intros (? & ?%elem_of_nil & _)].
  - rewrite elem_of_app, IH. split.
    + intros [?|(l & ? & ?)]; [exists l0; split; [by left | done]|].
      exists l. split; [by right | done].
    + intros (l & [->|?]%elem_of_cons & ?); [by left | right; eauto].
Qed.

(** Every canonical listing comes from a codeword: the one that names for
    each position its block. *)
Lemma block_index_spec blocks : ∀ j b x,
  NoDup (concat blocks) → blocks !! j = Some b → x ∈ b →
  block_index blocks x = j.
Proof.
  induction blocks as [|b0 blocks IH]; intros j b x Hnd Hb Hx; [done|].
  simpl in Hnd. apply NoDup_app in Hnd as (_ & Hdisj & Hnd).
  destruct j as [|j]; simpl in *.
  - injection Hb as ->. by rewrite decide_True.
  - rewrite decide_False; [f_equal; by eapply IH|].
    intros Hx0. apply (Hdisj _ Hx0). apply elem_of_concat.
    exists b. split; [by eapply list_elem_of_lookup_2 | done].
Qed.

Lemma block_index_lookup blocks x :
  x ∈ concat blocks → ∃ b, blocks !! block_index blocks x = Some b ∧ x ∈ b.
Proof.
  induction blocks as [|b0 blocks IH]; simpl; [by intros ?%elem_of_nil|].
  intros [Hx|Hx]%elem_of_app.
  - rewrite decide_True by done. eauto.
  - destruct (decide (x ∈ b0)); simpl; eauto.
Qed.

Lemma code_of_lookup n blocks x v :
  code_of n blocks !! x = Some v ↔
  x < n ∧ v = Z.of_nat (S (block_index blocks x)).
Proof.
  unfold code_of. rewrite list_lookup_fmap. split.
  - destruct (seq 0 n !! x) as [y|] eqn:Hy; [|done].
    apply lookup_seq in Hy as [-> Hy]. simpl. intros [= <-]. done.
  - intros [Hx ->]. by rewrite lookup_seq_lt.
Qed.

Lemma set_partition_NoDup n blocks : set_partition n blocks → NoDup (concat blocks).
Proof. intros [_ Hperm]. rewrite Hperm. apply NoDup_seq. Qed.

Lemma set_partition_elem_of n blocks x :
  set_partition n blocks → x ∈ concat blocks ↔ x < n.
Proof. intros [_ Hperm]. rewrite Hperm, elem_of_seq. lia. Qed.

Lemma set_partition_block n blocks j b x :
  set_partition n blocks → blocks !! j = Some b → x ∈ b →
  x < n ∧ block_index blocks x = j.
Proof.
  intros Hpart Hb Hx. split.
  - apply (set_partition_elem_of n blocks); [done|]. apply elem_of_concat.
    exists b. split; [by eapply list_elem_of_lookup_2 | done].
  - eapply block_index_spec; [by eapply set_partition_NoDup | done..].
Qed.

Lemma nonempty_head {A} (b : list A) : b ≠ [] → ∃ x, head b = Some x.
Proof. destruct b; [done|]. eauto. Qed.

(** In a canonical listing a position of a later block comes after the
    least position of the block before it. *)
Lemma canonical_earlier n blocks x j :
  set_partition n blocks → canonical blocks →
  x < n → block_index blocks x = S j →
  ∃ h, h < x ∧ block_index blocks h = j.
Proof.
  intros Hpart [Hsorted Hheads] Hx Hj.
  destruct (block_index_lookup blocks x) as (b' & Hb' & Hxb').
  { by apply (set_partition_elem_of n). }
  rewrite Hj in Hb'.
  destruct (lookup_lt_is_Some_2 blocks j) as [b Hb].
  { apply lookup_lt_Some in Hb'. lia. }
  pose proof Hpart as [Hne _]. rewrite Forall_lookup in Hne, Hsorted.
  destruct (nonempty_head b (Hne _ _ Hb)) as [h Hh].
  destruct (nonempty_head b' (Hne _ _ Hb')) as [h' Hh'].
  pose proof (Hheads _ _ _ _ _ Hb Hb' Hh Hh').
  pose proof (sorted_head_le b' h' x (Hsorted _ _ Hb') Hh' Hxb').
  exists h. split; [lia|].
  by apply (set_partition_block n blocks j b h), head_elem_of.
Qed.

Lemma grows_within_index k s : ∀ m,
  (∀ x v, s !! x = Some v →
     (1 ≤ v ≤ k)%Z ∧
     ((v ≤ m + 1)%Z ∨ ∃ y w, y < x ∧ s !! y = Some w ∧ (v ≤ w + 1)%Z)) →
  grows_within k m s.
Proof.
  induction s as [|a s IH]; intros m Hs; [done|]. simpl.
  destruct (Hs 0 a) as [Ha [Hle|(y & _ & Hy & _)]]; [done| |lia].
  split; [lia|]. split; [lia|]. apply IH. intros x v Hx.
  destruct (Hs (S x) v Hx) as [Hv [Hle'|(y & w & Hy & Hw & Hvw)]].
  - split; [done|]. left. lia.
  - split; [done|]. destruct y as [|y]; simpl in Hw.
    + injection Hw as ->. left. lia.
    + right. exists y, w. split; [lia | done].
Qed.

Lemma code_of_codeword n k blocks :
  0 < n → set_partition n blocks → canonical blocks →
  length blocks ≤ k →
  code_of n blocks ∈ codewords_of n (Z.of_nat k).
Proof.
  intros Hn Hpart Hcan Hk.
  assert (Hlt : ∀ x, x < n → block_index blocks x < length blocks).
  { intros x Hx. destruct (block_index_lookup blocks x) as (b & Hb & _).
    - by apply (set_partition_elem_of n).
    - by eapply lookup_lt_Some. }
  assert (Hzero : block_index blocks 0 = 0).
  { destruct (block_index blocks 0) as [|j] eqn:Hj; [done|].
    destruct (canonical_earlier n blocks 0 j) as (h & Hh & _); try done. lia. }
  apply codewords_of_complete; [pose proof (Hlt 0 Hn); lia|].
  split; [unfold code_of; by rewrite length_fmap, length_seq|].
  destruct (code_of n blocks) as [|v s] eqn:Hc.
  { apply (f_equal length) in Hc. unfold code_of in Hc.
    rewrite length_fmap, length_seq in Hc. simpl in Hc. lia. }
  assert (Hlook : ∀ x w, (v :: s) !! x = Some w ↔
                         x < n ∧ w = Z.of_nat (S (block_index blocks x))).
  { intros x w. rewrite <- Hc. apply code_of_lookup. }
  exists s. split.
  - destruct (proj1 (Hlook 0 v) eq_refl) as [_ ->]. by rewrite Hzero.
  - apply grows_within_index. intros x w Hx.
    apply (Hlook (S x) w) in Hx as [Hx ->].
    pose proof (Hlt _ Hx). split; [lia|].
    destruct (block_index blocks (S x)) as [|j] eqn:Hj; [left; lia|].
    destruct (canonical_earlier n blocks (S x) j) as (h & Hh & Hhj); try done.
    destruct h as [|y].
    + left. rewrite Hzero in Hhj. subst j. lia.
    + right. exists y, (Z.of_nat (S j)). split; [lia|]. split; [|lia].
      apply (Hlook (S y)). split; [lia|]. by rewrite Hhj.
Qed.

Lemma sorted_lt_ext (l1 : list nat) : ∀ l2,
  StronglySorted lt l1 → StronglySorted lt l2 →
  (∀ x, x ∈ l1 ↔ x ∈ l2) → l1 = l2.
Proof.
  induction l1 as [|a l1 IH]; intros [|b l2] H1 H2 Hext; [done|..].
  - exfalso. apply (elem_of_nil b), Hext. by left.
  - exfalso. apply (elem_of_nil a), Hext. by left.
  - apply StronglySorted_inv in H1 as [H1 Ha], H2 as [H2 Hb].
    rewrite Forall_forall in Ha, Hb.
    assert (a = b) as <-.
    { assert (Hab : a ∈ b :: l2) by (apply Hext; by left).
      assert (Hba : b ∈ a :: l1) by (apply Hext; by left).
      apply elem_of_cons in Hab as [?|Hab]; [done|].
      apply elem_of_cons in Hba as [?|Hba]; [done|].
      specialize (Ha _ Hba). specialize (Hb _ Hab). lia. }
    f_equal. apply IH; [done..|]. intros x. split; intros Hx.
    + assert (Hx' : x ∈ a :: l2) by (apply Hext; by right).
      apply elem_of_cons in Hx' as [->|?]; [|done].
      specialize (Ha _ Hx). lia.
    + assert (Hx' : x ∈ a :: l1) by (apply Hext; by right).
      apply elem_of_cons in Hx' as [->|?]; [|done].
      specialize (Hb _ Hx). lia.
Qed.

Lemma blocks_ext (blocks1 blocks2 : list (list nat)) :
  Forall (λ b, b ≠ []) blocks1 → Forall (λ b, b ≠ []) blocks2 →
  Forall (StronglySorted lt) blocks1 → Forall (StronglySorted lt) blocks2 →
  (∀ j x, (∃ b, blocks1 !! j = Some b ∧ x ∈ b) ↔
          (∃ b, blocks2 !! j = Some b ∧ x ∈ b)) →
  blocks1 = blocks2.
Proof.
  rewrite !Forall_lookup. intros Hne1 Hne2 Hs1 Hs2 Hext.
  apply list_eq. intros j.
  destruct (blocks1 !! j) as [b1|] eqn:Hb1, (blocks2 !! j) as [b2|] eqn:Hb2.
  - f_equal. apply sorted_lt_ext; [by eapply Hs1 | by eapply Hs2 |].
    intros x. split; intros Hx.
    + destruct (proj1 (Hext j x)) as (b & Hb & Hxb); [eauto|]. congruence.
    + destruct (proj2 (Hext j x)) as (b & Hb & Hxb); [eauto|]. congruence.
  - destruct (nonempty_head b1 (Hne1 _ _ Hb1)) as [x Hx%head_elem_of].
    destruct (proj1 (Hext j x)) as (b & Hb & _); [eauto|]. congruence.
  - destruct (nonempty_head b2 (Hne2 _ _ Hb2)) as [x Hx%head_elem_of].
    destruct (proj2 (Hext j x)) as (b & Hb & _); [eauto|]. congruence.
  - done.
Qed.

Lemma code_of_blocks n k blocks :
  0 < n → set_partition n blocks → canonical blocks →
  length blocks ≤ k →
  to_partition (seq 0 n) (code_of n blocks) = Done blocks.
Proof.
  intros Hn Hpart Hcan Hk.
  pose proof (code_of_codeword n k blocks Hn Hpart Hcan Hk) as Hc.
  destruct (codeword_to_partition (seq 0 n) (Z.of_nat k) (code_of n blocks))
    as (blocks' & Hrun & _ & Hne' & _).
  { destruct n; [lia | done]. }
  { by rewrite length_seq. }
  rewrite Hrun. f_equal.
  destruct (to_partition_blocks n _ blocks' Hrun) as [Hsorted' Hmem].
  { intros v. by apply codewords_of_positive with n (Z.of_nat k). }
  apply blocks_ext; [done | apply Hpart | done | apply Hcan |].
  intros j x. rewrite Hmem, code_of_lookup. split.
  - intros [Hx Hj]. assert (block_index blocks x = j) as <- by lia.
    apply block_index_lookup. by apply (set_partition_elem_of n).
  - intros (b & Hb & Hx).
    destruct (set_partition_block n blocks j b x) as [Hlt ->]; done.
Qed.

Lemma grows_within_max k m s :
  grows_within k m s → (foldl Z.max m s ≤ Z.max m k)%Z.
Proof.
  revert m. induction s as [|c s IH]; intros m; simpl; [lia|].
  intros (Hc & Hk & Hg). specialize (IH _ Hg). lia.
Qed.

Lemma nonempty_concat_length {A} (partition : list (list A)) :
  Forall (λ s, s ≠ []) partition → length partition ≤ length (concat partition).
Proof.
  induction 1 as [|s partition Hs _ IH]; simpl; [done|].
  rewrite length_app. destruct s; [done | simpl; lia].
Qed.

Lemma set_partition_length n blocks : set_partition n blocks → length blocks ≤ n.
Proof.
  intros [Hne Hperm]. apply nonempty_concat_length in Hne.
  apply Permutation_length in Hperm. rewrite length_seq in Hperm. lia.
Qed.

Lemma Forall2_NoDup_inj {A B} (R : A → B → Prop) l k :
  Forall2 R l k → NoDup l →
  (∀ x x' y, x ∈ l → x' ∈ l → R x y → R x' y → x = x') → NoDup k.
Proof.
  intros Hall Hnd Hinj. apply NoDup_alt. intros i j y Hi Hj.
  destruct (Forall2_lookup_r _ _ _ _ _ Hall Hi) as (x & Hx & Hxy).
  destruct (Forall2_lookup_r _ _ _ _ _ Hall Hj) as (x' & Hx' & Hxy').
  assert (x = x') as <- by (eapply Hinj; eauto using list_elem_of_lookup_2).
  by eapply NoDup_lookup.
Qed.

(** In a list without repeats the subsets tell the positions. *)
Lemma at_positions_inj {A} (elements : list A) blocks1 blocks2 partition :
  NoDup elements →
  at_positions elements blocks1 partition →
  at_positions elements blocks2 partition →
  blocks1 = blocks2.
Proof.
  intros Hnd H1. revert blocks2.
  induction H1 as [|b s bs ss Hbs _ IH]; intros blocks2 H2.
  - by apply Forall2_nil_inv_r in H2.
  - apply Forall2_cons_inv_r in H2 as (b' & bs' & Hbs' & H2 & ->).
    f_equal; [|by apply IH].
    clear -Hnd Hbs Hbs'. revert b' Hbs'.
    induction Hbs as [|i x b s Hi _ IH]; intros b' Hbs'.
    + by apply Forall2_nil_inv_r in Hbs'.
    + apply Forall2_cons_inv_r in Hbs' as (i' & b'' & Hi' & Hbs' & ->).
      f_equal; [by eapply NoDup_lookup | by apply IH].
Qed.

(** With a bound [k ≥ 1] the partitions that [get_partitions] returns are,
    read as blocks of positions, the canonical listings of the partitions
    of the positions into at most [k] blocks, each once. *)
Lemma get_partitions_blocks {A} fuel (elements : list A) (k : nat) partitions :
  get_partitions fuel elements (Z.of_nat k) = Done partitions → 1 ≤ k →
  ∃ blockss,
    Forall2 (at_positions elements) blockss partitions ∧
    NoDup blockss ∧
    (∀ blocks, blocks ∈ blockss ↔
       set_partition (length elements) blocks ∧ canonical blocks ∧
       length blocks ≤ k) ∧
    (NoDup elements → NoDup partitions).
Proof.
  intros [Hne Hall]%get_partitions_inv Hk.
  pose proof (nonempty_length _ Hne) as Hn.
  set (n := length elements) in *.
  assert (Hseq : seq 0 n ≠ []) by (destruct n; [lia | done]).
  destruct (Forall2_choose (λ c blocks, to_partition (seq 0 n) c = Done blocks)
              (codewords_of n (Z.of_nat k))) as [blockss Hbs].
  { intros c Hc.
    destruct (codeword_to_partition (seq 0 n) (Z.of_nat k) c) as (b & Hb & _);
      [done | by rewrite length_seq | eauto]. }
  assert (Hpos : Forall2 (at_positions elements) blockss partitions).
  { apply Forall2_same_length_lookup. split.
    - rewrite <- (Forall2_length _ _ _ Hbs). exact (Forall2_length _ _ _ Hall).
    - intros i blocks p Hi Hp.
      destruct (Forall2_lookup_r _ _ _ _ _ Hbs Hi) as (c & Hc & Hcb).
      destruct (Forall2_lookup_l _ _ _ _ _ Hall Hc) as (p' & Hp' & Hcp).
      rewrite Hp in Hp'. injection Hp' as <-.
      destruct (to_partition_at_positions _ _ _ Hcp) as (blocks' & Hb' & Hat).
      fold n in Hb'. rewrite Hcb in Hb'. by injection Hb' as <-. }
  exists blockss. split; [done|]. split; [|split].
  - eapply Forall2_NoDup_inj; [done | apply codewords_of_NoDup |].
    intros c1 c2 blocks Hc1 Hc2 H1 H2.
    by apply (codeword_blocks_inj n (Z.of_nat k) c1 c2 blocks).
  - intros blocks. split.
    + intros [i Hi]%list_elem_of_lookup.
      destruct (Forall2_lookup_r _ _ _ _ _ Hbs Hi) as (c & Hc%list_elem_of_lookup_2 & Hcb).
      destruct (codeword_blocks_canonical n (Z.of_nat k) c blocks)
        as (Hpart & Hcan & Hlen); [done..|].
      split; [done|]. split; [done|].
      apply codewords_of_complete in Hc as (_ & s & -> & Hg); [|lia].
      apply grows_within_max in Hg.
      change (foldl Z.max 1%Z (1%Z :: s)) with (foldl Z.max 1%Z s) in Hlen. lia.
    + intros (Hpart & Hcan & Hlen).
      pose proof (code_of_codeword n k blocks Hn Hpart Hcan Hlen)
        as [i Hi]%list_elem_of_lookup.
      destruct (Forall2_lookup_l _ _ _ _ _ Hbs Hi) as (blocks' & Hb' & Hrun).
      rewrite (code_of_blocks n k blocks) in Hrun by done.
      injection Hrun as <-. by eapply list_elem_of_lookup_2.
  - intros Hnd. apply NoDup_alt. intros i j p Hi Hj.
    destruct (Forall2_lookup_r _ _ _ _ _ Hpos Hi) as (b1 & Hb1 & Hat1).
    destruct (Forall2_lookup_r _ _ _ _ _ Hpos Hj) as (b2 & Hb2 & Hat2).
    assert (b1 = b2) as <- by (by eapply at_positions_inj).
    assert (Hbnd : NoDup blockss).
    { eapply Forall2_NoDup_inj; [done | apply codewords_of_NoDup |].
      intros c1 c2 blocks Hc1 Hc2 H1 H2.
      by apply (codeword_blocks_inj n (Z.of_nat k) c1 c2 blocks). }
    by eapply NoDup_lookup.
Qed.

(** * The claims *)

(** C1 (as amended): [simplify] returns exactly when [remove_small_inputs]
    and then [remove_small_outputs], run in that order on the caller's
    transaction object, return; the value of the call is [None], and the
    reduced transaction is the state of that object after the call. *)
Theorem simplify_in_place fuel t v t' :
  simplify fuel t = Done (v, t') ↔
  v = PyNone ∧
  ∃ t1, remove_small_inputs t = Done (PyTransaction, t1) ∧
        remove_small_outputs fuel t1 = Done (PyTransaction, t').
Proof. apply simplify_inv. Qed.

(** C1 (as stated) fails on the balanced transaction of figure 6: the call
    returns [None], for no fuel the transaction. *)
Lemma simplify_figure6_none :
  balanced figure6 ∧
  simplify 10 figure6 =
    Done (PyNone,
          Transaction "t0" [("a2", 10%Z); ("a1", 20%Z)]
            [("b3", 3%Z); ("b2", 7%Z); ("b1", 19%Z)] 1) ∧
  ∀ fuel t', simplify fuel figure6 ≠ Done (PyTransaction, t').
Proof.
  split; [done|]. split; [by vm_compute|].
  intros fuel t' [? _]%simplify_inv. done.
Qed.

(** C2 (the code breaks it): on a balanced transaction with two equal
    inputs of which the fee covers one, [remove_small_inputs] drops both
    and takes one value off the fee; the result is not balanced. *)
Theorem remove_small_inputs_twin_unbalanced :
  balanced twin_inputs ∧
  remove_small_inputs twin_inputs =
    Done (PyTransaction, Transaction "t0" [("b", 5%Z)] [("c", 6%Z)] 0) ∧
  ¬ balanced (Transaction "t0" [("b", 5%Z)] [("c", 6%Z)] 0).
Proof.
  split; [done|]. split; [by vm_compute|]. unfold balanced. by vm_compute.
Qed.

(** C3: [is_connectable] holds exactly when the input sum lies between the
    output sum and the output sum plus the fee; with a fee that is not
    negative it holds when the sums are equal and when they differ by the
    fee, and it fails one above that and whenever the input sum is smaller. *)
Theorem is_connectable_iff input_subset output_subset fee :
  let S := sum_values input_subset in
  let O := sum_values output_subset in
  (is_connectable input_subset output_subset fee = true ↔ (O ≤ S ≤ O + fee)%Z) ∧
  ((0 ≤ fee)%Z → S = O → is_connectable input_subset output_subset fee = true) ∧
  ((0 ≤ fee)%Z → S = (O + fee)%Z →
     is_connectable input_subset output_subset fee = true) ∧
  (S = (O + fee + 1)%Z → is_connectable input_subset output_subset fee = false) ∧
  ((S < O)%Z → is_connectable input_subset output_subset fee = false).
Proof.
  intros S O. split_and!.
  - apply is_connectable_bounds.
  - intros Hfee HS. apply is_connectable_bounds. fold S O. lia.
  - intros Hfee HS. apply is_connectable_bounds. fold S O. lia.
  - intros HS. apply not_true_is_false. rewrite is_connectable_bounds. fold S O. lia.
  - intros HS. apply not_true_is_false. rewrite is_connectable_bounds. fold S O. lia.
Qed.

Lemma is_connectable_iff_witness :
  (is_connectable [("a", 7%Z)] [("b", 5%Z)] 2 = true ↔ (5 ≤ 7 ≤ 5 + 2)%Z) ∧
  is_connectable [("a", 5%Z)] [("b", 5%Z)] 2 = true ∧
  is_connectable [("a", 7%Z)] [("b", 5%Z)] 2 = true ∧
  is_connectable [("a", 8%Z)] [("b", 5%Z)] 2 = false ∧
  is_connectable [("a", 4%Z)] [("b", 5%Z)] 2 = false.
Proof.
  split_and!.
  - exact (proj1 (is_connectable_iff [("a", 7%Z)] [("b", 5%Z)] 2)).
  - apply (proj1 (proj2 (is_connectable_iff [("a", 5%Z)] [("b", 5%Z)] 2)));
      [lia | reflexivity].
  - apply (proj1 (proj2 (proj2 (is_connectable_iff [("a", 7%Z)] [("b", 5%Z)] 2))));
      [lia | reflexivity].
  - apply (proj1 (proj2 (proj2 (proj2
             (is_connectable_iff [("a", 8%Z)] [("b", 5%Z)] 2))))).
    reflexivity.
  - apply (proj2 (proj2 (proj2 (proj2
             (is_connectable_iff [("a", 4%Z)] [("b", 5%Z)] 2))))).
    reflexivity.
Defined.

(** C4: every acceptable partition that [get_acceptable_partitions]
    returns pairs as many input subsets as output subsets, and in every
    aligned pair the input sum less the output sum is between 0 and the
    fee of the transaction. *)
Theorem acceptable_partitions_within_fee fuel t partitions partition :
  get_acceptable_partitions fuel t = Done partitions →
  partition ∈ partitions →
  length partition.1 = length partition.2 ∧
  ∀ i a b, partition.1 !! i = Some a → partition.2 !! i = Some b →
    (0 ≤ sum_values a - sum_values b ≤ tx_fee t)%Z.
Proof.
  intros H Hp. apply get_acceptable_partitions_within in H.
  by apply (proj1 (Forall_forall _ _) H).
Qed.

Lemma acceptable_partitions_within_fee_witness :
  length [[("a1", 20%Z)]; [("a2", 10%Z)]] = length [[("b1", 19%Z)]; [("b2", 7%Z); ("b3", 3%Z)]] ∧
  ∀ i a b,
    [[("a1", 20%Z)]; [("a2", 10%Z)]] !! i = Some a →
    [[("b1", 19%Z)]; [("b2", 7%Z); ("b3", 3%Z)]] !! i = Some b →
    (0 ≤ sum_values a - sum_values b ≤ 1)%Z.
Proof.
  apply (acceptable_partitions_within_fee 10 figure6
           [([[("a1", 20%Z)]; [("a2", 10%Z)]],
             [[("b1", 19%Z)]; [("b2", 7%Z); ("b3", 3%Z)]])]
           ([[("a1", 20%Z)]; [("a2", 10%Z)]],
             [[("b1", 19%Z)]; [("b2", 7%Z); ("b3", 3%Z)]])).
  - vm_compute. reflexivity.
  - apply list_elem_of_here.
Defined.

(** C5 (as amended): the generator has no error for a bound below 1. On a
    list with an element and such a bound it returns, in the first
    iteration of its loop, the one partition that keeps all elements in a
    single subset. *)
Theorem get_partitions_bound_below_one {A} fuel (elements : list A) max_size :
  elements ≠ [] → (max_size < 1)%Z →
  get_partitions (S fuel) elements max_size = Done [[elements]].
Proof. apply get_partitions_below. Qed.

Lemma get_partitions_bound_below_one_witness :
  get_partitions 1 ["x"; "y"] 0 = Done [[["x"; "y"]]].
Proof. apply (get_partitions_bound_below_one 0 ["x"; "y"] 0); [done | lia]. Defined.

(** C5 (as stated) fails: with the bound 0 the call returns a partition,
    and on the empty list it neither returns nor raises, whatever the fuel. *)
Lemma get_partitions_no_invalid_input :
  get_partitions 1 ["x"] 0 = Done [[["x"]]] ∧
  (∀ fuel e, get_partitions fuel ["x"] 0 ≠ Raised e) ∧
  (∀ fuel, get_partitions fuel (@nil string) 1 = OutOfFuel).
Proof.
  split; [done|]. split.
  - intros [|fuel] e; [done|]. by rewrite get_partitions_below.
  - intros fuel. apply get_partitions_empty.
Qed.

(** C6: on a list of [n ≥ 1] elements with the bound [n], the loop returns
    as its codewords the restricted growth strings of length [n], none of
    them twice, and the call one partition for each: as many as the [n]-th
    Bell number. Read as blocks of positions, the partitions returned are
    the canonical listings of the partitions of the [n] positions, every
    one of them and none twice; when no two elements are equal the list
    returned has no partition twice either. *)
Theorem partitions_count_bell {A} (elements : list A) :
  elements ≠ [] →
  let n := length elements in
  ∃ F codewords partitions,
    (∀ f, get_codewords (F + f) n (Z.of_nat n) = Done codewords ∧
          get_partitions (F + f) elements (Z.of_nat n) = Done partitions) ∧
    NoDup codewords ∧
    (∀ c, c ∈ codewords ↔
          length c = n ∧ ∃ s, c = 1%Z :: s ∧ grows_within (Z.of_nat n) 1 s) ∧
    length codewords = bell n ∧
    length partitions = bell n ∧
    (∃ blockss,
       Forall2 (at_positions elements) blockss partitions ∧
       NoDup blockss ∧
       (∀ blocks, blocks ∈ blockss ↔ set_partition n blocks ∧ canonical blocks)) ∧
    (NoDup elements → NoDup partitions).
Proof.
  intros Hne n. pose proof (nonempty_length _ Hne) as Hn. fold n in Hn.
  destruct (get_codewords_total n (Z.of_nat n) Hn) as [F1 H1].
  destruct (get_partitions_total elements (Z.of_nat n) Hne) as (F2 & ps & H2).
  exists (F1 + F2), (codewords_of n (Z.of_nat n)), ps.
  assert (Hcount : length (codewords_of n (Z.of_nat n)) = bell n).
  { unfold codewords_of. rewrite decide_True by lia. by apply rgs_all_count. }
  destruct (get_partitions_blocks _ elements n ps (H2 0) Hn)
    as (blockss & Hpos & Hnd & Hexact & Hnd').
  split_and!.
  - intros f. split.
    + rewrite <- Nat.add_assoc. apply H1.
    + rewrite (Nat.add_comm F1 F2), <- Nat.add_assoc. apply H2.
  - apply codewords_of_NoDup.
  - intros c. apply codewords_of_complete. lia.
  - done.
  - destruct (get_partitions_inv _ _ _ _ (H2 0)) as [_ Hall].
    apply Forall2_length in Hall. fold n in Hall. lia.
  - exists blockss. split; [done|]. split; [done|].
    intros blocks. rewrite Hexact. fold n. split; [tauto|].
    intros [Hpart Hcan]. split; [done|]. split; [done|].
    by apply set_partition_length.
  - done.
Qed.

Lemma partitions_count_bell_witness :
  ∃ F codewords partitions,
    (∀ f, get_codewords (F + f) 3 3 = Done codewords ∧
          get_partitions (F + f) ["a"; "b"; "c"] 3 = Done partitions) ∧
    NoDup codewords ∧
    (∀ c, c ∈ codewords ↔
          length c = 3 ∧ ∃ s, c = 1%Z :: s ∧ grows_within 3 1 s) ∧
    length codewords = bell 3 ∧
    length partitions = bell 3 ∧
    (∃ blockss,
       Forall2 (at_positions ["a"; "b"; "c"]) blockss partitions ∧
       NoDup blockss ∧
       (∀ blocks, blocks ∈ blockss ↔ set_partition 3 blocks ∧ canonical blocks)) ∧
    (NoDup ["a"; "b"; "c"] → NoDup partitions).
Proof. apply (partitions_count_bell ["a"; "b"; "c"]). done. Defined.

(** C7: with a bound between 1 and the length, every partition that
    [get_partitions] returns on a list with an element has no empty subset;
    its subsets are made of the positions of the list, each taken exactly
    once, so they are disjoint and together hold the elements of the list. *)
Theorem partitions_are_partitions {A} fuel (elements : list A) max_size
    partitions partition :
  elements ≠ [] → (1 ≤ max_size ≤ Z.of_nat (length elements))%Z →
  get_partitions fuel elements max_size = Done partitions →
  partition ∈ partitions →
  Forall (λ s, s ≠ []) partition ∧
  concat partition ≡ₚ elements ∧
  ∃ blocks,
    Forall2 (Forall2 (λ i x, elements !! i = Some x)) blocks partition ∧
    NoDup (concat blocks) ∧
    concat blocks ≡ₚ seq 0 (length elements).
Proof.
  intros Hne _ [_ Hall]%get_partitions_inv Hp.
  apply list_elem_of_lookup in Hp as [i Hi].
  destruct (Forall2_lookup_r _ _ _ _ _ Hall Hi) as (c & Hc & Hrun).
  destruct (codeword_to_partition elements max_size c Hne) as (p & Hp & _ & Hpart).
  { apply list_elem_of_lookup. eauto. }
  rewrite Hp in Hrun. injection Hrun as ->. exact Hpart.
Qed.

Lemma partitions_are_partitions_witness :
  Forall (λ s, s ≠ []) [["a"; "c"]; ["b"]] ∧
  concat [["a"; "c"]; ["b"]] ≡ₚ ["a"; "b"; "c"] ∧
  ∃ blocks,
    Forall2 (Forall2 (λ i x, ["a"; "b"; "c"] !! i = Some x)) blocks
      [["a"; "c"]; ["b"]] ∧
    NoDup (concat blocks) ∧
    concat blocks ≡ₚ seq 0 (length ["a"; "b"; "c"]).
Proof.
  apply (partitions_are_partitions 10 ["a"; "b"; "c"] 3
           [[["a"; "b"; "c"]]; [["a"; "b"]; ["c"]]; [["a"; "c"]; ["b"]];
            [["a"]; ["b"; "c"]]; [["a"]; ["b"]; ["c"]]]).
  - done.
  - simpl. lia.
  - reflexivity.
  - apply list_elem_of_further, list_elem_of_further, list_elem_of_here.
Defined.

(** C8: on the transaction of figure 6, inputs (a1,20) and (a2,10), outputs
    (b1,19), (b2,7) and (b3,3), fee 1, [untangle] returns an acceptable
    partition that pairs the subset of a1 with the subset of b1 and the
    subset of a2 with the subset of b2 and b3. *)
Theorem untangle_figure6_separable :
  ∃ fuel partitions t',
    untangle fuel figure6 = Done (partitions, t') ∧
    ∃ partition i j,
      partition ∈ partitions ∧
      length partition.1 = 2 ∧ length partition.2 = 2 ∧
      partition.1 !! i = Some [("a1", 20%Z)] ∧
      partition.2 !! i = Some [("b1", 19%Z)] ∧
      partition.1 !! j = Some [("a2", 10%Z)] ∧
      ∃ outputs, partition.2 !! j = Some outputs ∧
                 outputs ≡ₚ [("b2", 7%Z); ("b3", 3%Z)].
Proof.
  exists 10. eexists. eexists. split; [vm_compute; reflexivity|].
  eexists. exists 1, 0. split; [apply list_elem_of_here|]. simpl.
  split_and!; try done.
  eexists. split; [done|]. apply Permutation_swap.
Qed.

(** C9: for a length of at least 1 and any bound, [get_codewords] returns
    once it has fuel enough, and so does [get_partitions] on a list with an
    element. *)
Theorem get_codewords_terminates :
  (∀ n k, 0 < n → ∃ F codewords, ∀ f, get_codewords (F + f) n k = Done codewords) ∧
  (∀ (A : Type) (elements : list A) max_size, elements ≠ [] →
     ∃ F partitions, ∀ f, get_partitions (F + f) elements max_size = Done partitions).
Proof.
  split.
  - intros n k Hn. destruct (get_codewords_total n k Hn) as [F HF]. eauto.
  - intros A elements max_size. apply get_partitions_total.
Qed.

Lemma get_codewords_terminates_witness :
  (∃ F codewords, ∀ f, get_codewords (F + f) 4 (-2) = Done codewords) ∧
  (∃ F partitions, ∀ f, get_partitions (F + f) ["a"; "b"; "c"; "d"] 7 = Done partitions).
Proof.
  split.
  - apply (proj1 get_codewords_terminates 4 (-2)%Z). lia.
  - apply (proj2 get_codewords_terminates string ["a"; "b"; "c"; "d"] 7%Z). done.
Defined.



(** * Further properties *)

(** ** [group_partitions_by_size] *)

Lemma group_fold_lookup {A} (partitions : list (list (list A))) size :
  ∀ d : gmap nat (list (list (list A))),
  foldl group_step d partitions !! size =
  match d !! size, filter (λ p, length p = size) partitions with
  | Some bucket, found => Some (bucket ++ found)
  | None, [] => None
  | None, found => Some found
  end.
Proof.
  induction partitions as [|p ps IH]; intros d; simpl.
  - rewrite filter_nil. destruct (d !! size); [by rewrite app_nil_r | done].
  - rewrite IH. unfold group_step.
    destruct (decide (length p = size)) as [Hp|Hp].
    + rewrite (filter_cons_True _ p) by done. rewrite Hp.
      destruct (d !! size) as [bucket|]; rewrite lookup_insert_eq.
      * by rewrite <- (assoc_L (++)).
      * done.
    + rewrite (filter_cons_False _ p) by done.
      by destruct (d !! length p); rewrite lookup_insert_ne.
Qed.

(** X4: the dictionary has under a key the partitions with that many
    subsets, all of them and in the order of the list, and has no key for a
    size that no partition has. *)
Theorem group_partitions_lookup {A} (partitions : list (list (list A))) size :
  match group_partitions_by_size partitions !! size with
  | Some bucket =>
      bucket ≠ [] ∧ bucket = filter (λ p, length p = size) partitions
  | None => ∀ p, p ∈ partitions → length p ≠ size
  end.
Proof.
  unfold group_partitions_by_size. rewrite group_fold_lookup, lookup_empty.
  destruct (filter _ partitions) as [|p ps] eqn:Hf; [|done].
  intros p Hp Hsize.
  by apply (filter_nil_not_elem_of _ _ p Hf).
Qed.

(** ** [get_codewords] and [get_partitions] under any bound *)

Lemma rgs_all_count_bound n k :
  0 < n → 1 ≤ k →
  length (rgs_all (Z.of_nat k) n) = sum_to k (λ j, stirling2 n (S j)).
Proof.
  intros Hn Hk. destruct n as [|r]; [lia|].
  unfold rgs_all. rewrite length_map.
  change (rgs_ext (Z.of_nat k) 1 r) with (rgs_ext (Z.of_nat k) (Z.of_nat 1) r).
  rewrite (rgs_ext_count r 1 k) by lia.
  replace (S (k - 1)) with k by lia.
  apply sum_to_ext. intros j. rewrite <- ext_count_stirling. simpl. lia.
Qed.

Lemma get_partitions_elem {A} fuel (elements : list A) max_size partitions p :
  get_partitions fuel elements max_size = Done partitions → p ∈ partitions →
  elements ≠ [] ∧
  ∃ c, c ∈ codewords_of (length elements) max_size ∧
       to_partition elements c = Done p ∧
       length p = Z.to_nat (foldl Z.max 1%Z c) ∧
       is_partition_of elements p.
Proof.
  intros [Hne Hall]%get_partitions_inv Hp. split; [done|].
  apply list_elem_of_lookup in Hp as [i Hi].
  destruct (Forall2_lookup_r _ _ _ _ _ Hall Hi) as (c & Hc & Hrun).
  assert (Hin : c ∈ codewords_of (length elements) max_size)
    by (apply list_elem_of_lookup; eauto).
  destruct (codeword_to_partition elements max_size c Hne Hin)
    as (p' & Hp' & Hlen & Hpart).
  rewrite Hp' in Hrun. injection Hrun as ->. eauto.
Qed.

Lemma get_partitions_of_codeword {A} fuel (elements : list A) max_size partitions c :
  get_partitions fuel elements max_size = Done partitions →
  c ∈ codewords_of (length elements) max_size →
  ∃ p, p ∈ partitions ∧ to_partition elements c = Done p.
Proof.
  intros [Hne Hall]%get_partitions_inv [i Hi]%list_elem_of_lookup.
  destruct (Forall2_lookup_l _ _ _ _ _ Hall Hi) as (p & Hp & Hrun).
  exists p. split; [|done]. apply list_elem_of_lookup. eauto.
Qed.

Lemma foldl_max_ones m r : (1 ≤ m)%Z → foldl Z.max m (replicate r 1%Z) = m.
Proof.
  intros Hm. induction r as [|r IH]; simpl; [done|].
  by replace (Z.max m 1) with m by lia.
Qed.

Lemma foldl_max_climb j : ∀ m,
  foldl Z.max m (seqZ (m + 1) (Z.of_nat j)) = (m + Z.of_nat j)%Z.
Proof.
  induction j as [|j IH]; intros m.
  - simpl. lia.
  - rewrite seqZ_cons by lia. simpl foldl.
    replace (Z.pred (Z.of_nat (S j))) with (Z.of_nat j) by lia.
    replace (Z.succ (m + 1)) with ((m + 1) + 1)%Z by lia.
    replace (Z.max m (m + 1)) with (m + 1)%Z by lia.
    rewrite IH. lia.
Qed.

Lemma grows_within_ones k m r :
  (1 ≤ m)%Z → (1 ≤ k)%Z → grows_within k m (replicate r 1%Z).
Proof.
  intros Hm Hk. induction r as [|r IH]; simpl; [done|].
  split_and!; [lia.. |]. by replace (Z.max m 1) with m by lia.
Qed.

Lemma grows_within_climb k j : ∀ m rest,
  (1 ≤ m)%Z → (m + Z.of_nat j ≤ k)%Z →
  grows_within k (m + Z.of_nat j) rest →
  grows_within k m (seqZ (m + 1) (Z.of_nat j) ++ rest).
Proof.
  induction j as [|j IH]; intros m rest Hm Hk Hrest.
  - simpl. by replace (m + Z.of_nat 0)%Z with m in Hrest by lia.
  - rewrite seqZ_cons by lia. simpl.
    replace (Z.pred (Z.of_nat (S j))) with (Z.of_nat j) by lia.
    replace (Z.succ (m + 1)) with ((m + 1) + 1)%Z by lia.
    replace (Z.max m (m + 1)) with (m + 1)%Z by lia.
    split_and!; [lia.. |]. apply IH; [lia | lia |].
    by replace (m + 1 + Z.of_nat j)%Z with (m + Z.of_nat (S j))%Z by lia.
Qed.

(** A codeword whose entries reach [i]: the values 1 to [i], then ones. *)
Lemma codeword_with_max n k i :
  1 ≤ i ≤ n → (Z.of_nat i ≤ k)%Z →
  ∃ c, c ∈ codewords_of n k ∧ foldl Z.max 1%Z c = Z.of_nat i.
Proof.
  intros Hi Hk.
  exists (1%Z :: seqZ (1 + 1) (Z.of_nat (i - 1)) ++ replicate (n - i) 1%Z). split.
  - apply codewords_of_complete; [lia|]. split.
    + simpl. rewrite length_app, length_seqZ, length_replicate. lia.
    + eexists. split; [done|]. apply grows_within_climb; [lia | lia |].
      apply grows_within_ones; lia.
  - simpl. rewrite foldl_app, foldl_max_climb, foldl_max_ones; lia.
Qed.

(** X5: on a list of [n ≥ 1] elements with a bound [k ≥ 1], [get_partitions]
    returns as many partitions as the Stirling numbers of the second kind
    [S(n,1)], ..., [S(n,k)] add up to. *)
Theorem partitions_count_stirling {A} (elements : list A) (k : nat) :
  elements ≠ [] → 1 ≤ k →
  ∃ F partitions,
    (∀ f, get_partitions (F + f) elements (Z.of_nat k) = Done partitions) ∧
    length partitions = sum_to k (λ j, stirling2 (length elements) (S j)).
Proof.
  intros Hne Hk.
  destruct (get_partitions_total elements (Z.of_nat k) Hne) as (F & ps & HF).
  exists F, ps. split; [done|].
  destruct (get_partitions_inv _ _ _ _ (HF 0)) as [_ Hall].
  apply Forall2_length in Hall. rewrite <- Hall.
  unfold codewords_of. rewrite decide_True by lia.
  apply rgs_all_count_bound; [by apply nonempty_length | done].
Qed.

Lemma partitions_count_stirling_witness :
  ∃ F partitions,
    (∀ f, get_partitions (F + f) ["a"; "b"; "c"; "d"] 2 = Done partitions) ∧
    length partitions = sum_to 2 (λ j, stirling2 4 (S j)).
Proof. apply (partitions_count_stirling ["a"; "b"; "c"; "d"] 2); [done | lia]. Defined.

Lemma partition_size_bounds {A} fuel (elements : list A) max_size partitions p :
  (1 ≤ max_size)%Z →
  get_partitions fuel elements max_size = Done partitions → p ∈ partitions →
  1 ≤ length p ≤ length elements ∧ (Z.of_nat (length p) ≤ max_size)%Z.
Proof.
  intros Hk Hrun Hp.
  destruct (get_partitions_elem _ _ _ _ _ Hrun Hp)
    as (Hne & c & Hc & _ & Hlen & Hnon & Hperm & _).
  apply codewords_of_complete in Hc as (_ & s & -> & Hg); [|done].
  apply grows_within_max in Hg.
  change (foldl Z.max 1%Z (1%Z :: s)) with (foldl Z.max 1%Z s) in Hlen.
  pose proof (foldl_max_le 1 s) as Hone. apply nonempty_concat_length in Hnon.
  rewrite Hperm in Hnon. lia.
Qed.

Lemma partition_size_occurs {A} fuel (elements : list A) max_size partitions size :
  get_partitions fuel elements max_size = Done partitions →
  1 ≤ size ≤ length elements → (Z.of_nat size ≤ max_size)%Z →
  ∃ p, p ∈ partitions ∧ length p = size.
Proof.
  intros Hrun Hsize Hle.
  destruct (codeword_with_max (length elements) max_size size Hsize Hle)
    as (c & Hc & Hmax).
  destruct (get_partitions_of_codeword _ _ _ _ _ Hrun Hc) as (p & Hp & Hto).
  exists p. split; [done|].
  destruct (get_partitions_elem _ _ _ _ _ Hrun Hp) as (Hne & _).
  destruct (codeword_to_partition elements max_size c Hne Hc)
    as (p' & Hp' & Hlen & _).
  rewrite Hp' in Hto. injection Hto as ->. rewrite Hlen.
  destruct c as [|c0 c]; simpl in *; lia.
Qed.

(** X6: with a bound [k ≥ 1] every partition that [get_partitions] returns
    has at least one subset and no more than [k] and no more than there are
    elements, and every number of subsets in that range is the size of a
    returned partition. *)
Theorem partitions_sizes {A} fuel (elements : list A) max_size partitions :
  (1 ≤ max_size)%Z →
  get_partitions fuel elements max_size = Done partitions →
  (∀ p, p ∈ partitions →
     1 ≤ length p ≤ length elements ∧ (Z.of_nat (length p) ≤ max_size)%Z) ∧
  (∀ size, 1 ≤ size ≤ length elements → (Z.of_nat size ≤ max_size)%Z →
     ∃ p, p ∈ partitions ∧ length p = size).
Proof.
  intros Hk Hrun. split.
  - intros p. by apply (partition_size_bounds fuel).
  - intros size. by apply (partition_size_occurs fuel _ max_size).
Qed.

Lemma partitions_sizes_witness :
  (∀ p, p ∈ [[["a"; "b"; "c"]]; [["a"; "b"]; ["c"]]; [["a"; "c"]; ["b"]];
             [["a"]; ["b"; "c"]]] →
     1 ≤ length p ≤ length ["a"; "b"; "c"] ∧ (Z.of_nat (length p) ≤ 2)%Z) ∧
  (∀ size, 1 ≤ size ≤ length ["a"; "b"; "c"] → (Z.of_nat size ≤ 2)%Z →
     ∃ p, p ∈ [[["a"; "b"; "c"]]; [["a"; "b"]; ["c"]]; [["a"; "c"]; ["b"]];
               [["a"]; ["b"; "c"]]] ∧ length p = size).
Proof.
  apply (partitions_sizes 10 ["a"; "b"; "c"] 2); [lia | reflexivity].
Defined.

(** ** The matcher *)

Lemma picks_perm {A} (l : list A) x rest : (x, rest) ∈ picks l → l ≡ₚ x :: rest.
Proof.
  revert x rest. induction l as [|y l IH]; intros x rest; simpl.
  - by intros ?%elem_of_nil.
  - intros [[= -> ->]|Hin]%elem_of_cons; [done|].
    apply list_elem_of_In, in_map_iff in Hin as ([x' rest'] & [= -> <-] & Hin).
    apply list_elem_of_In, IH in Hin. simpl. rewrite Hin. apply Permutation_swap.
Qed.

Lemma permutations_of_perm {A} r : ∀ (l ordering : list A),
  r = length l → ordering ∈ permutations_of r l → ordering ≡ₚ l.
Proof.
  induction r as [|r IH]; intros l o Hr Ho; simpl in Ho.
  - apply list_elem_of_singleton in Ho as ->. by destruct l.
  - apply list_elem_of_In, in_flat_map in Ho as ([x rest] & Hpick & Ho).
    apply in_map_iff in Ho as (o' & <- & Ho'). simpl in *.
    apply list_elem_of_In, picks_perm in Hpick.
    rewrite Hpick. f_equiv. apply IH; [|by apply list_elem_of_In].
    apply Permutation_length in Hpick. simpl in Hpick. lia.
Qed.

(** Over lists of the same length the loop looks at every aligned pair up
    to the first that fails, and raises nothing. *)
Lemma pairs_connectable_zip fee input_partition : ∀ output_ordering before after,
  length input_partition = length output_ordering →
  length before = length after →
  pairs_connectable (seq (length before) (length input_partition))
    (before ++ input_partition) (after ++ output_ordering) fee =
  Done (aligned_connectable input_partition output_ordering fee).
Proof.
  induction input_partition as [|a ip IH]; intros o pre1 pre2 Hlen Hpre.
  - by destruct o.
  - destruct o as [|b o]; [done|]. simpl in Hlen. simpl seq.
    cbn [pairs_connectable]. rewrite py_get_middle, Hpre, py_get_middle.
    cbn [mbind outcome_bind]. unfold aligned_connectable. simpl.
    destruct (is_connectable a b fee); [|done]. simpl.
    rewrite <- Hpre, <- (snoc_app pre1 a ip), <- (snoc_app pre2 b o).
    replace (S (length pre1)) with (length (pre1 ++ [a]))
      by (rewrite length_app; simpl; lia).
    apply IH; [lia|]. rewrite !length_app. simpl. lia.
Qed.

Lemma for_each_keep {A B} (keep : A → bool) (g : A → B) l : ∀ acc,
  for_each l (λ acc x, acceptable ← Done (keep x);
                       if acceptable : bool then Done (acc ++ [g x]) else Done acc)
    acc =
  Done (acc ++ map g (filter (λ x, keep x = true) l)).
Proof.
  induction l as [|x l IH]; intros acc.
  - simpl. by rewrite app_nil_r.
  - rewrite filter_cons. cbn [for_each mbind outcome_bind].
    destruct (decide (keep x = true)) as [Hx|Hx].
    + rewrite Hx. cbn [mbind outcome_bind]. rewrite IH. simpl.
      by rewrite <- (assoc_L (++)).
    + apply not_true_is_false in Hx. rewrite Hx. apply IH.
Qed.

Lemma for_each_ext {A S} (l : list A) (body1 body2 : S → A → outcome S) s :
  (∀ s x, x ∈ l → body1 s x = body2 s x) →
  for_each l body1 s = for_each l body2 s.
Proof.
  revert s. induction l as [|x l IH]; intros s Hext; simpl; [done|].
  rewrite Hext by left. destruct (body2 s x); simpl; [|done..].
  apply IH. intros s' y Hy. apply Hext. by right.
Qed.

Lemma get_acceptable_connections_eq size input_partition output_partition fee :
  length input_partition = size → length output_partition = size →
  get_acceptable_connections size input_partition output_partition fee =
  Done (map (λ o, (input_partition, o))
          (filter (λ o, aligned_connectable input_partition o fee = true)
             (permutations output_partition size))).
Proof.
  intros Hin Hout. unfold get_acceptable_connections. rewrite Hout.
  etrans; [|exact (for_each_keep
    (λ o, aligned_connectable input_partition o fee)
    (λ o, (input_partition, o)) (permutations output_partition size) [])].
  apply for_each_ext. intros acc o Ho.
  apply permutations_of_length in Ho.
  pose proof (pairs_connectable_zip fee input_partition o [] []) as Hzip.
  simpl in Hzip. rewrite Hin in Hzip. rewrite Hzip by (done || lia). done.
Qed.

(** X7: for an input partition and an output partition of [partition_size]
    subsets each, [get_acceptable_connections] raises nothing and returns,
    in the order [itertools] yields them, the input partition paired with
    exactly those orderings of the output partition's subsets in which
    every aligned pair passes [is_connectable]; each is a reordering of the
    output partition. *)
Theorem get_acceptable_connections_exact size input_partition output_partition fee :
  length input_partition = size → length output_partition = size →
  get_acceptable_connections size input_partition output_partition fee =
    Done (map (λ o, (input_partition, o))
            (filter (λ o, aligned_connectable input_partition o fee = true)
               (permutations output_partition size))) ∧
  ∀ o, o ∈ permutations output_partition size →
       o ≡ₚ output_partition ∧ length o = size.
Proof.
  intros Hin Hout. split; [by apply get_acceptable_connections_eq|].
  intros o Ho. split; [|by eapply permutations_of_length].
  by apply (permutations_of_perm size).
Qed.

Lemma get_acceptable_connections_exact_witness :
  get_acceptable_connections 2 [[("a", 5%Z)]; [("b", 3%Z)]]
    [[("c", 3%Z)]; [("d", 5%Z)]] 0 =
    Done (map (λ o, ([[("a", 5%Z)]; [("b", 3%Z)]], o))
            (filter (λ o, aligned_connectable [[("a", 5%Z)]; [("b", 3%Z)]] o 0 = true)
               (permutations [[("c", 3%Z)]; [("d", 5%Z)]] 2))) ∧
  ∀ o, o ∈ permutations [[("c", 3%Z)]; [("d", 5%Z)]] 2 →
       o ≡ₚ [[("c", 3%Z)]; [("d", 5%Z)]] ∧ length o = 2.
Proof.
  apply (get_acceptable_connections_exact 2 [[("a", 5%Z)]; [("b", 3%Z)]]
           [[("c", 3%Z)]; [("d", 5%Z)]] 0); reflexivity.
Defined.

(** ** [get_acceptable_partitions] *)

Lemma get_acceptable_partitions_unfold fuel t :
  get_acceptable_partitions fuel t =
  let max_partition_size := length (tx_inputs t) `min` length (tx_outputs t) in
  input_partitions ← get_partitions fuel (tx_inputs t) (Z.of_nat max_partition_size);
  output_partitions ← get_partitions fuel (tx_outputs t) (Z.of_nat max_partition_size);
  match_sizes max_partition_size (group_partitions_by_size input_partitions)
    (group_partitions_by_size output_partitions) (tx_fee t).
Proof. reflexivity. Qed.

Lemma group_lookup_filter {A} (partitions : list (list (list A))) size bucket :
  group_partitions_by_size partitions !! size = Some bucket →
  bucket = filter (λ p, length p = size) partitions.
Proof.
  unfold group_partitions_by_size. rewrite group_fold_lookup, lookup_empty.
  destruct (filter _ partitions); [done | by intros [= <-]].
Qed.

Lemma group_lookup_some {A} (partitions : list (list (list A))) size p :
  p ∈ partitions → length p = size →
  ∃ bucket, group_partitions_by_size partitions !! size = Some bucket.
Proof.
  intros Hp Hsize. unfold group_partitions_by_size.
  rewrite group_fold_lookup, lookup_empty.
  destruct (filter _ partitions) as [|q qs] eqn:Hf; [|eauto].
  by destruct (filter_nil_not_elem_of _ _ p Hf).
Qed.

Lemma for_each_total {A S} (l : list A) (body : S → A → outcome S) :
  (∀ s x, x ∈ l → ∃ s', body s x = Done s') →
  ∀ s, ∃ r, for_each l body s = Done r.
Proof.
  induction l as [|x l IH]; intros Hbody s; simpl; [eauto|].
  destruct (Hbody s x) as [s' ->]; [left|]. simpl.
  apply IH. intros s1 y Hy. apply Hbody. by right.
Qed.

Lemma aligned_connectable_lookup fee input_partition : ∀ output_ordering i a b,
  aligned_connectable input_partition output_ordering fee = true →
  input_partition !! i = Some a → output_ordering !! i = Some b →
  is_connectable a b fee = true.
Proof.
  unfold aligned_connectable.
  induction input_partition as [|a' ip IH]; intros [|b' o] i a b; try done.
  simpl. intros [Hab Hrest]%andb_true_iff. destruct i as [|i]; simpl.
  - by intros [= <-] [= <-].
  - by apply IH.
Qed.

Lemma py_item_some {V} (d : gmap nat V) key v :
  d !! key = Some v → py_item d key = Done v.
Proof. unfold py_item. by intros ->. Qed.

Lemma match_sizes_total n (ips ops : list (list (list entry))) fee :
  (∀ size, 2 ≤ size ≤ n → ∃ p, p ∈ ips ∧ length p = size) →
  (∀ size, 2 ≤ size ≤ n → ∃ p, p ∈ ops ∧ length p = size) →
  ∃ partitions,
    match_sizes n (group_partitions_by_size ips) (group_partitions_by_size ops) fee
    = Done partitions.
Proof.
  intros Hips Hops. unfold match_sizes. apply for_each_total.
  intros acc i Hi%elem_of_seq.
  destruct (Hips i) as (ip0 & Hip0 & Hlen0); [lia|].
  destruct (group_lookup_some ips i ip0 Hip0 Hlen0) as [ib Hib].
  rewrite (py_item_some _ _ _ Hib). cbn [mbind outcome_bind].
  apply group_partitions_sizes in Hib.
  apply for_each_total. intros acc1 ip Hip.
  destruct (Hops i) as (op0 & Hop0 & Hlenop); [lia|].
  destruct (group_lookup_some ops i op0 Hop0 Hlenop) as [ob Hob].
  rewrite (py_item_some _ _ _ Hob). cbn [mbind outcome_bind].
  apply group_partitions_sizes in Hob.
  apply for_each_total. intros acc2 op Hop.
  rewrite get_acceptable_connections_eq.
  - simpl. eauto.
  - by apply (proj1 (Forall_forall _ _) Hib).
  - by apply (proj1 (Forall_forall _ _) Hob).
Qed.

Lemma get_partitions_never_raises {A} fuel (elements : list A) max_size e :
  get_partitions fuel elements max_size ≠ Raised e.
Proof.
  intros Hraise. destruct elements as [|x elements].
  - by rewrite get_partitions_empty in Hraise.
  - destruct (get_partitions_total (x :: elements) max_size) as (F & ps & HF);
      [done|].
    specialize (HF fuel). unfold get_partitions in *.
    destruct (get_codewords fuel _ _) as [cws| |] eqn:Hc; simpl in Hraise.
    + apply (codewords_loop_more _ F) in Hc; [|done].
      unfold get_codewords in HF. rewrite (Nat.add_comm F fuel), Hc in HF.
      simpl in HF. congruence.
    + apply (codewords_loop_more _ F) in Hc; [|done].
      unfold get_codewords in HF. rewrite (Nat.add_comm F fuel), Hc in HF. done.
    + done.
Qed.

Lemma get_acceptable_partitions_shape fuel t partitions :
  get_acceptable_partitions fuel t = Done partitions →
  Forall (untangling t) partitions.
Proof.
  rewrite get_acceptable_partitions_unfold. cbv zeta.
  intros (ips & Hips & (ops & Hops & H)%bind_done)%bind_done. revert H.
  unfold match_sizes. apply for_each_invariant; [constructor|].
  intros acc i acc' Hi%elem_of_seq Hacc (ib & Hib%py_item_done & H)%bind_done.
  revert H. apply group_lookup_filter in Hib.
  apply for_each_invariant; [done|].
  intros acc1 ip acc1' Hip Hacc1 (ob & Hob%py_item_done & H)%bind_done.
  revert H. apply group_lookup_filter in Hob.
  rewrite Hib in Hip. apply list_elem_of_filter in Hip as [Hiplen Hip].
  apply for_each_invariant; [done|].
  intros acc2 op acc2' Hop Hacc2 (conns & Hc & [= <-])%bind_done.
  rewrite Hob in Hop. apply list_elem_of_filter in Hop as [Hoplen Hop].
  rewrite get_acceptable_connections_eq in Hc by done. injection Hc as <-.
  apply Forall_app. split; [done|].
  apply Forall_forall. intros ap (o & <- & Ho)%list_elem_of_In%in_map_iff.
  apply list_elem_of_In, list_elem_of_filter in Ho as [Hal Ho].
  pose proof (permutations_of_length _ _ _ Ho) as Holen.
  apply (permutations_of_perm i) in Ho; [|done].
  destruct (get_partitions_elem _ _ _ _ _ Hips Hip) as (_ & _ & _ & _ & _ & Hpin).
  destruct (get_partitions_elem _ _ _ _ _ Hops Hop) as (_ & _ & _ & _ & _ & Hpout).
  unfold untangling. simpl. split_and!; [done | eauto | lia | lia |].
  split; simpl; [lia|]. intros j a b Ha Hb.
  pose proof (aligned_connectable_lookup _ _ _ _ _ _ Hal Ha Hb) as Hc.
  apply is_connectable_bounds in Hc. lia.
Qed.

Lemma get_acceptable_partitions_total t :
  tx_inputs t ≠ [] → tx_outputs t ≠ [] →
  ∃ F partitions, ∀ f, get_acceptable_partitions (F + f) t = Done partitions.
Proof.
  intros Hin Hout.
  set (n := length (tx_inputs t) `min` length (tx_outputs t)).
  destruct (get_partitions_total (tx_inputs t) (Z.of_nat n) Hin) as (F1 & ips & H1).
  destruct (get_partitions_total (tx_outputs t) (Z.of_nat n) Hout) as (F2 & ops & H2).
  destruct (match_sizes_total n ips ops (tx_fee t)) as [aps Haps].
  { intros size Hsize. eapply partition_size_occurs; [apply (H1 0) | lia | lia]. }
  { intros size Hsize. eapply partition_size_occurs; [apply (H2 0) | lia | lia]. }
  exists (F1 + F2), aps. intros f.
  rewrite get_acceptable_partitions_unfold. cbv zeta. fold n.
  rewrite <- Nat.add_assoc, H1. cbn [mbind outcome_bind].
  replace (F1 + (F2 + f)) with (F2 + (F1 + f)) by lia. rewrite H2. exact Haps.
Qed.

(** X8: on a transaction with an input and an output,
    [get_acceptable_partitions] returns once it has fuel enough: no key is
    missing from its dictionaries and no subscript is out of range. *)
Theorem get_acceptable_partitions_returns t :
  tx_inputs t ≠ [] → tx_outputs t ≠ [] →
  ∃ F partitions, ∀ f, get_acceptable_partitions (F + f) t = Done partitions.
Proof. apply get_acceptable_partitions_total. Qed.

Lemma get_acceptable_partitions_returns_witness :
  ∃ F partitions, ∀ f, get_acceptable_partitions (F + f) figure10 = Done partitions.
Proof. apply (get_acceptable_partitions_returns figure10); done. Defined.

Lemma get_acceptable_partitions_no_side fuel t :
  tx_inputs t = [] ∨ tx_outputs t = [] →
  get_acceptable_partitions fuel t = OutOfFuel.
Proof.
  rewrite get_acceptable_partitions_unfold. cbv zeta. intros [Hin|Hout].
  - by rewrite Hin, get_partitions_empty.
  - rewrite Hout, get_partitions_empty.
    destruct (get_partitions fuel (tx_inputs t) _) as [ips|e|] eqn:Hips;
      [done | | done].
    by apply get_partitions_never_raises in Hips.
Qed.

(** X9: on a transaction without inputs or without outputs
    [get_acceptable_partitions] neither returns nor raises: the loop of
    [get_codewords] uses up whatever fuel it is given. *)
Theorem get_acceptable_partitions_empty_side fuel t :
  tx_inputs t = [] ∨ tx_outputs t = [] →
  get_acceptable_partitions fuel t = OutOfFuel.
Proof. apply get_acceptable_partitions_no_side. Qed.

Lemma get_acceptable_partitions_empty_side_witness :
  get_acceptable_partitions 1000 (Transaction "t0" [("a", 5%Z)] [] 5) = OutOfFuel.
Proof.
  apply (get_acceptable_partitions_empty_side 1000
           (Transaction "t0" [("a", 5%Z)] [] 5)).
  right. reflexivity.
Defined.

(** X10: on a transaction with an input and an output but a single input or
    a single output, [get_acceptable_partitions] returns the empty list:
    sizes start at 2. *)
Theorem get_acceptable_partitions_single t :
  tx_inputs t ≠ [] → tx_outputs t ≠ [] →
  length (tx_inputs t) = 1 ∨ length (tx_outputs t) = 1 →
  ∃ F, ∀ f, get_acceptable_partitions (F + f) t = Done [].
Proof.
  intros Hin Hout Hone.
  destruct (get_acceptable_partitions_total t Hin Hout) as (F & aps & HF).
  exists F. intros f. rewrite HF. f_equal.
  specialize (HF 0). rewrite get_acceptable_partitions_unfold in HF. cbv zeta in HF.
  apply bind_done in HF as (ips & _ & (ops & _ & HF)%bind_done).
  apply nonempty_length in Hin, Hout.
  replace (length (tx_inputs t) `min` length (tx_outputs t)) with 1 in HF by lia.
  by injection HF as <-.
Qed.

Lemma get_acceptable_partitions_single_witness :
  ∃ F, ∀ f,
    get_acceptable_partitions (F + f)
      (Transaction "t0" [("a", 9%Z)] [("b", 4%Z); ("c", 4%Z)] 1) = Done [].
Proof.
  apply (get_acceptable_partitions_single
           (Transaction "t0" [("a", 9%Z)] [("b", 4%Z); ("c", 4%Z)] 1));
    [done | done | by left].
Defined.

(** X11: every pair that [get_acceptable_partitions] returns is a partition
    of the inputs against a reordering of a partition of the outputs, both
    with the same number of subsets, between 2 and the smaller of the
    numbers of inputs and outputs, every aligned pair within the fee. *)
Theorem acceptable_partitions_untangle fuel t partitions partition :
  get_acceptable_partitions fuel t = Done partitions →
  partition ∈ partitions →
  untangling t partition.
Proof.
  intros H Hp. apply get_acceptable_partitions_shape in H.
  by apply (proj1 (Forall_forall _ _) H).
Qed.

Lemma acceptable_partitions_untangle_witness :
  untangling figure6
    ([[("a1", 20%Z)]; [("a2", 10%Z)]],
     [[("b1", 19%Z)]; [("b2", 7%Z); ("b3", 3%Z)]]).
Proof.
  apply (acceptable_partitions_untangle 10 figure6
           [([[("a1", 20%Z)]; [("a2", 10%Z)]],
             [[("b1", 19%Z)]; [("b2", 7%Z); ("b3", 3%Z)]])]).
  - vm_compute. reflexivity.
  - apply list_elem_of_here.
Defined.

(** ** [remove_small_inputs] *)

Global Instance key_le_trans {A} (key : A → Z) :
  Transitive (λ a b, (key a ≤ key b)%Z).
Proof. intros a b c. lia. Qed.

Lemma py_sort_strongly_sorted {A} (key : A → Z) l :
  StronglySorted (λ a b, (key a ≤ key b)%Z) (py_sort key l).
Proof. apply Sorted_StronglySorted; [apply _ | apply py_sort_sorted]. Qed.

Lemma StronglySorted_filter {A} (R : relation A) (P : A → Prop)
    `{!∀ x, Decision (P x)} l :
  StronglySorted R l → StronglySorted R (filter P l).
Proof.
  induction 1 as [|x l Hl IH Hx]; [constructor|].
  rewrite filter_cons. destruct (decide (P x)); [|done].
  constructor; [done|].
  apply Forall_forall. intros y [_ Hy]%list_elem_of_filter.
  by apply (proj1 (Forall_forall _ _) Hx).
Qed.

(** Sorting a list that is in order leaves it as it is. *)
Lemma py_sort_id {A} (key : A → Z) l :
  Sorted (λ a b, (key a ≤ key b)%Z) l → py_sort key l = l.
Proof.
  induction 1 as [|x l Hl IH Hx]; simpl; [done|].
  rewrite IH. destruct Hx as [|y l Hxy]; simpl; [done|].
  by rewrite (proj2 (Z.leb_le _ _) Hxy).
Qed.

Lemma remove_small_inputs_left t v t' :
  remove_small_inputs t = Done (v, t') →
  v = PyTransaction ∧
  tx_id t' = tx_id t ∧ tx_outputs t' = tx_outputs t ∧
  StronglySorted (λ a b, (a.2 ≤ b.2)%Z) (tx_inputs t') ∧
  ∀ x, x ∈ tx_inputs t' → x ∈ tx_inputs t ∧ (tx_fee t' < x.2)%Z.
Proof.
  intros Hrun.
  pose proof (remove_small_inputs_spec t) as Hspec. cbv zeta in Hspec.
  set (marked := (mark_small_inputs _ _ _).1) in Hspec. clearbody marked.
  destruct Hspec as (rest & t1 & Ht1 & Hs & Hstop & Hid & Hout & Hfee & Hin).
  rewrite Ht1 in Hrun. injection Hrun as <- <-.
  pose proof (py_sort_strongly_sorted sort_key (tx_inputs t)) as Hsorted.
  rewrite Hs in Hsorted. apply StronglySorted_app_1_r in Hsorted.
  split_and!; try done.
  - rewrite Hin. by apply StronglySorted_filter.
  - intros x. rewrite Hin. intros [_ Hx]%list_elem_of_filter. split.
    + rewrite <- (py_sort_perm sort_key (tx_inputs t)), Hs.
      apply elem_of_app. by right.
    + destruct rest as [|y rest]; [by apply elem_of_nil in Hx|].
      apply StronglySorted_inv in Hsorted as [_ Hy].
      apply elem_of_cons in Hx as [->|Hx]; [done|].
      apply (proj1 (Forall_forall _ _) Hy) in Hx. unfold sort_key in Hx. lia.
Qed.

(** X12: [remove_small_inputs] leaves inputs of the transaction it was
    given, in ascending order of value and each worth more than the fee it
    leaves; it changes neither the identifier nor the outputs. *)
Theorem remove_small_inputs_leaves t v t' :
  remove_small_inputs t = Done (v, t') →
  tx_id t' = tx_id t ∧ tx_outputs t' = tx_outputs t ∧
  Sorted (λ a b, (a.2 ≤ b.2)%Z) (tx_inputs t') ∧
  ∀ x, x ∈ tx_inputs t' → x ∈ tx_inputs t ∧ (tx_fee t' < x.2)%Z.
Proof.
  intros (_ & Hid & Hout & Hsorted & Hin)%remove_small_inputs_left.
  split_and!; try done. by apply StronglySorted_Sorted.
Qed.

Lemma remove_small_inputs_leaves_witness :
  "t0" = "t0" ∧ [("b1", 49%Z); ("b2", 39%Z)] = [("b1", 49%Z); ("b2", 39%Z)] ∧
  Sorted (λ a b : entry, (a.2 ≤ b.2)%Z) [("a2", 40%Z); ("a1", 50%Z)] ∧
  ∀ x : entry, x ∈ [("a2", 40%Z); ("a1", 50%Z)] →
    x ∈ [("a1", 50%Z); ("a2", 40%Z); ("a3", 1%Z)] ∧ (2 < x.2)%Z.
Proof.
  apply (remove_small_inputs_leaves figure10 PyTransaction
           (Transaction "t0" [("a2", 40%Z); ("a1", 50%Z)]
              [("b1", 49%Z); ("b2", 39%Z)] 2)).
  vm_compute. reflexivity.
Defined.

(** X13: a second [remove_small_inputs] changes nothing: after the first no
    input is left that the fee covers. *)
Theorem remove_small_inputs_idempotent t v t' :
  remove_small_inputs t = Done (v, t') →
  remove_small_inputs t' = Done (PyTransaction, t').
Proof.
  intros (_ & _ & _ & Hsorted & Hin)%remove_small_inputs_left.
  unfold remove_small_inputs.
  rewrite py_sort_id by (by apply StronglySorted_Sorted).
  assert (Hmark : mark_small_inputs (tx_inputs t') (tx_fee t') [] = ([], tx_fee t')).
  { destruct (tx_inputs t') as [|x l]; [done|]. simpl.
    destruct (Hin x) as [_ Hx]; [left|].
    by rewrite (proj2 (Z.leb_gt _ _) Hx). }
  rewrite Hmark. rewrite filter_all by (intros x _; apply not_elem_of_nil).
  by destruct t'.
Qed.

Lemma remove_small_inputs_idempotent_witness :
  remove_small_inputs
    (Transaction "t0" [("a2", 40%Z); ("a1", 50%Z)] [("b1", 49%Z); ("b2", 39%Z)] 2) =
  Done (PyTransaction,
        Transaction "t0" [("a2", 40%Z); ("a1", 50%Z)] [("b1", 49%Z); ("b2", 39%Z)] 2).
Proof.
  apply (remove_small_inputs_idempotent figure10 PyTransaction).
  vm_compute. reflexivity.
Defined.

(** ** [remove_small_outputs] *)

Lemma lower_min_flow_spec indices input_partition output_partition :
  ∀ min_flow,
  (∀ i, i ∈ indices → i < length input_partition ∧ i < length output_partition) →
  ∃ m, lower_min_flow indices input_partition output_partition min_flow = Done m ∧
       (m ≤ min_flow)%Z.
Proof.
  induction indices as [|i indices IH]; intros min_flow Hin; simpl.
  - exists min_flow. split; [done | lia].
  - destruct (Hin i) as [Hi1 Hi2]; [left|].
    apply lookup_lt_is_Some_2 in Hi1 as [a Ha], Hi2 as [b Hb].
    unfold py_get. rewrite Ha, Hb. simpl.
    destruct (IH (if (sum_values a - sum_values b <? min_flow)%Z
                  then (sum_values a - sum_values b)%Z else min_flow))
      as (m & Hm & Hle); [intros j Hj; apply Hin; by right|].
    exists m. split; [done|].
    destruct (sum_values a - sum_values b <? min_flow)%Z eqn:Hlt; lia.
Qed.

(** On a pair within the fee the body of the loop raises nothing and
    leaves [delta] at least what it was and at most the larger of it and
    the fee. *)
Lemma raise_delta_spec fee delta partition :
  within_fee fee partition → 1 ≤ length partition.1 →
  ∃ d, raise_delta delta partition = Done d ∧ (delta ≤ d ≤ Z.max delta fee)%Z.
Proof.
  intros [Hlen Hflow] Hone. unfold raise_delta.
  destruct (lookup_lt_is_Some_2 partition.1 0) as [a Ha]; [lia|].
  destruct (lookup_lt_is_Some_2 partition.2 0) as [b Hb]; [lia|].
  unfold py_get at 1 2. rewrite Ha, Hb. simpl.
  destruct (lower_min_flow_spec (seq 1 (length partition.1 - 1)) partition.1
              partition.2 (sum_values a - sum_values b)) as (m & -> & Hm).
  { intros i Hi%elem_of_seq. lia. }
  simpl. eexists. split; [done|].
  specialize (Hflow 0 a b Ha Hb).
  destruct (m >? delta)%Z eqn:Hgt; lia.
Qed.

Lemma delta_loop_spec fee partitions : ∀ delta,
  Forall (λ p, within_fee fee p ∧ 1 ≤ length p.1) partitions →
  ∃ d, for_each partitions raise_delta delta = Done d ∧
       (delta ≤ d ≤ Z.max delta fee)%Z.
Proof.
  induction partitions as [|p ps IH]; intros delta Hall; simpl.
  - exists delta. split; [done | lia].
  - apply Forall_cons in Hall as [[Hp Hone] Hall].
    destruct (raise_delta_spec fee delta p Hp Hone) as (d1 & -> & Hd1). simpl.
    destruct (IH d1 Hall) as (d & Hd & Hle). exists d. split; [done | lia].
Qed.

Lemma filter_ext_in {A} (P Q : A → Prop)
    `{!∀ x, Decision (P x), !∀ x, Decision (Q x)} (l : list A) :
  (∀ x, x ∈ l → (P x ↔ Q x)) → filter P l = filter Q l.
Proof.
  induction l as [|x l IH]; intros Hiff; [done|].
  rewrite !filter_cons, IH by (intros y Hy; apply Hiff; by right).
  assert (Hx : P x ↔ Q x) by (apply Hiff; left).
  destruct (decide (P x)), (decide (Q x)); tauto.
Qed.

(** What [remove_small_outputs] does once the acceptable partitions are
    there. *)
Lemma remove_small_outputs_run fuel t partitions :
  get_acceptable_partitions fuel t = Done partitions →
  ∃ delta,
    (0 ≤ delta ≤ Z.max 0 (tx_fee t))%Z ∧
    for_each partitions raise_delta 0%Z = Done delta ∧
    remove_small_outputs fuel t =
    Done (PyTransaction,
          {| tx_id := tx_id t;
             tx_inputs := tx_inputs t;
             tx_outputs :=
               filter (λ x, (delta < x.2)%Z) (py_sort sort_key (tx_outputs t));
             tx_fee :=
               (tx_fee t + sum_values
                  (filter (λ x, (x.2 ≤ delta)%Z)
                     (py_sort sort_key (tx_outputs t))))%Z |}).
Proof.
  intros Hrun. pose proof (get_acceptable_partitions_shape _ _ _ Hrun) as Hshape.
  destruct (delta_loop_spec (tx_fee t) partitions 0%Z) as (delta & Hdelta & Hle).
  { eapply Forall_impl; [exact Hshape|].
    intros p (_ & _ & Htwo & _ & Hwithin). split; [done | lia]. }
  exists delta. split; [done|]. split; [done|].
  unfold remove_small_outputs. rewrite Hrun. cbn [mbind outcome_bind].
  rewrite Hdelta. cbn [mbind outcome_bind].
  rewrite mark_small_outputs_spec. simpl. do 3 f_equal.
  apply filter_ext_in. intros x Hx. rewrite list_elem_of_filter. split.
  - intros Hnot. destruct (decide (x.2 ≤ delta)%Z); [|lia]. tauto.
  - intros Hgt [Hle' _]. lia.
Qed.

(** X14: on a transaction with an input and an output,
    [remove_small_outputs] returns once it has fuel enough: the loop over
    the flows of a returned partition never subscripts out of range. *)
Theorem remove_small_outputs_returns t :
  tx_inputs t ≠ [] → tx_outputs t ≠ [] →
  ∃ F t', ∀ f, remove_small_outputs (F + f) t = Done (PyTransaction, t').
Proof.
  intros Hin Hout.
  destruct (get_acceptable_partitions_total t Hin Hout) as (F & aps & HF).
  destruct (remove_small_outputs_run _ _ _ (HF 0)) as (delta & _ & Hdelta & _).
  exists F. eexists. intros f.
  destruct (remove_small_outputs_run _ _ _ (HF f)) as (delta' & _ & Hdelta' & ->).
  rewrite Hdelta in Hdelta'. injection Hdelta' as <-. reflexivity.
Qed.

Lemma remove_small_outputs_returns_witness :
  ∃ F t', ∀ f, remove_small_outputs (F + f) figure6 = Done (PyTransaction, t').
Proof. apply (remove_small_outputs_returns figure6); done. Defined.

(** X15: when [remove_small_outputs] returns it has kept, in ascending
    order of value, exactly the outputs worth more than some [delta]
    between 0 and the fee (0 for a negative fee), and has added the values
    of the others to the fee; the inputs are as they were. No output worth
    more than the fee is removed. *)
Theorem remove_small_outputs_leaves fuel t v t' :
  remove_small_outputs fuel t = Done (v, t') →
  ∃ delta,
    (0 ≤ delta ≤ Z.max 0 (tx_fee t))%Z ∧
    tx_inputs t' = tx_inputs t ∧
    tx_outputs t' = filter (λ x, (delta < x.2)%Z) (py_sort sort_key (tx_outputs t)) ∧
    tx_fee t' =
      (tx_fee t + sum_values
         (filter (λ x, (x.2 ≤ delta)%Z) (py_sort sort_key (tx_outputs t))))%Z ∧
    (∀ x, x ∈ tx_outputs t → (Z.max 0 (tx_fee t) < x.2)%Z → x ∈ tx_outputs t').
Proof.
  intros Hrun.
  destruct (get_acceptable_partitions fuel t) as [aps| |] eqn:Haps;
    [|by unfold remove_small_outputs in Hrun; rewrite Haps in Hrun..].
  destruct (remove_small_outputs_run _ _ _ Haps) as (delta & Hle & _ & Heq).
  rewrite Heq in Hrun. injection Hrun as <- <-. simpl.
  exists delta. split; [exact Hle|]. do 3 (split; [done|]).
  intros x Hx Hbig. apply list_elem_of_filter. split; [lia|].
  by rewrite (py_sort_perm sort_key (tx_outputs t)).
Qed.

Lemma remove_small_outputs_leaves_witness :
  ∃ delta,
    (0 ≤ delta ≤ Z.max 0 4)%Z ∧
    [("a1", 20%Z); ("a2", 10%Z)] = [("a1", 20%Z); ("a2", 10%Z)] ∧
    [("b2", 8%Z); ("b1", 17%Z)] =
      filter (λ x : entry, (delta < x.2)%Z)
        (py_sort sort_key [("b1", 17%Z); ("b2", 8%Z); ("b3", 1%Z)]) ∧
    5%Z =
      (4 + sum_values
         (filter (λ x : entry, (x.2 ≤ delta)%Z)
            (py_sort sort_key [("b1", 17%Z); ("b2", 8%Z); ("b3", 1%Z)])))%Z ∧
    (∀ x : entry, x ∈ [("b1", 17%Z); ("b2", 8%Z); ("b3", 1%Z)] →
       (Z.max 0 4 < x.2)%Z → x ∈ [("b2", 8%Z); ("b1", 17%Z)]).
Proof.
  apply (remove_small_outputs_leaves 10
           (Transaction "t1" [("a1", 20%Z); ("a2", 10%Z)]
              [("b1", 17%Z); ("b2", 8%Z); ("b3", 1%Z)] 4) PyTransaction
           (Transaction "t1" [("a1", 20%Z); ("a2", 10%Z)]
              [("b2", 8%Z); ("b1", 17%Z)] 5)).
  vm_compute. reflexivity.
Defined.

(** ** [simplify] and [untangle] *)

Lemma mark_small_inputs_all inputs : ∀ fee marked,
  Forall (λ x, (0 ≤ x.2)%Z) inputs → (sum_values inputs ≤ fee)%Z →
  mark_small_inputs inputs fee marked =
  (marked ++ inputs, (fee - sum_values inputs)%Z).
Proof.
  induction inputs as [|x inputs IH]; intros fee marked Hpos Hsum; simpl.
  - rewrite app_nil_r. change (sum_values []) with 0%Z. f_equal. lia.
  - apply Forall_cons in Hpos as [Hx Hpos]. rewrite sum_values_cons in *.
    assert (Hrest : (0 ≤ sum_values inputs)%Z).
    { clear -Hpos. induction Hpos as [|y l Hy _ IHl]; [done|].
      rewrite sum_values_cons. lia. }
    rewrite (proj2 (Z.leb_le _ _)) by lia.
    rewrite IH by (done || lia). rewrite <- (assoc_L (++)). f_equal. lia.
Qed.

(** When the fee covers all inputs, none is left. *)
Lemma remove_small_inputs_all t :
  (∀ x, x ∈ tx_inputs t → (0 ≤ x.2)%Z) →
  (sum_values (tx_inputs t) ≤ tx_fee t)%Z →
  ∃ t', remove_small_inputs t = Done (PyTransaction, t') ∧ tx_inputs t' = [].
Proof.
  intros Hpos Hsum. unfold remove_small_inputs.
  rewrite mark_small_inputs_all.
  - eexists. split; [done|]. simpl. apply filter_not_in_self.
  - apply Forall_forall. intros x Hx. apply Hpos.
    by rewrite <- (py_sort_perm sort_key (tx_inputs t)).
  - by rewrite (sum_values_perm _ _ (py_sort_perm sort_key (tx_inputs t))).
Qed.

(** X16: on a transaction whose fee covers the sum of its inputs, none of
    them negative, [simplify] and [untangle] never return:
    [remove_small_inputs] removes every input, and on no inputs the loop of
    [get_codewords] does not end. *)
Theorem untangle_fee_covers_inputs fuel t :
  (∀ x, x ∈ tx_inputs t → (0 ≤ x.2)%Z) →
  (sum_values (tx_inputs t) ≤ tx_fee t)%Z →
  simplify fuel t = OutOfFuel ∧ untangle fuel t = OutOfFuel.
Proof.
  intros Hpos Hsum.
  destruct (remove_small_inputs_all t Hpos Hsum) as (t1 & Ht1 & Hempty).
  assert (Hs : simplify fuel t = OutOfFuel).
  { unfold simplify. rewrite Ht1. simpl. unfold remove_small_outputs.
    rewrite get_acceptable_partitions_unfold. cbv zeta.
    by rewrite Hempty, get_partitions_empty. }
  split; [done|]. unfold untangle. by rewrite Hs.
Qed.

Lemma untangle_fee_covers_inputs_witness :
  simplify 1000 (Transaction "t0" [("a", 7%Z); ("b", 3%Z)] [("c", 0%Z)] 10) = OutOfFuel ∧
  untangle 1000 (Transaction "t0" [("a", 7%Z); ("b", 3%Z)] [("c", 0%Z)] 10) = OutOfFuel.
Proof.
  apply (untangle_fee_covers_inputs 1000
           (Transaction "t0" [("a", 7%Z); ("b", 3%Z)] [("c", 0%Z)] 10)).
  - intros x Hx. simpl in Hx.
    apply elem_of_cons in Hx as [->|Hx]; [simpl; lia|].
    apply elem_of_cons in Hx as [->|Hx]; [simpl; lia|].
    by apply elem_of_nil in Hx.
  - vm_compute. discriminate.
Defined.

(** More fuel does not change what a call returns or raises. *)
Lemma get_partitions_more {A} fuel extra (elements : list A) max_size r :
  get_partitions fuel elements max_size = r → r ≠ OutOfFuel →
  get_partitions (fuel + extra) elements max_size = r.
Proof.
  unfold get_partitions. intros Hr Hne.
  destruct (get_codewords fuel (length elements) max_size) as [cws|e|] eqn:Hc.
  - apply (codewords_loop_more _ extra) in Hc; [|done].
    unfold get_codewords. by rewrite Hc.
  - apply (codewords_loop_more _ extra) in Hc; [|done].
    unfold get_codewords. by rewrite Hc.
  - simpl in Hr. congruence.
Qed.

Lemma get_acceptable_partitions_more fuel extra t r :
  get_acceptable_partitions fuel t = r → r ≠ OutOfFuel →
  get_acceptable_partitions (fuel + extra) t = r.
Proof.
  rewrite !get_acceptable_partitions_unfold. cbv zeta. intros Hr Hne.
  destruct (get_partitions fuel (tx_inputs t) _) as [ips|e|] eqn:Hips.
  - rewrite (get_partitions_more _ extra _ _ _ Hips) by done.
    cbn [mbind outcome_bind] in *.
    destruct (get_partitions fuel (tx_outputs t) _) as [ops|e|] eqn:Hops.
    + by rewrite (get_partitions_more _ extra _ _ _ Hops).
    + by rewrite (get_partitions_more _ extra _ _ _ Hops).
    + simpl in Hr. congruence.
  - by rewrite (get_partitions_more _ extra _ _ _ Hips).
  - simpl in Hr. congruence.
Qed.

Lemma remove_small_outputs_more fuel extra t r :
  remove_small_outputs fuel t = r → r ≠ OutOfFuel →
  remove_small_outputs (fuel + extra) t = r.
Proof.
  unfold remove_small_outputs. intros Hr Hne.
  destruct (get_acceptable_partitions fuel t) as [aps|e|] eqn:Haps.
  - by rewrite (get_acceptable_partitions_more _ extra _ _ Haps).
  - by rewrite (get_acceptable_partitions_more _ extra _ _ Haps).
  - simpl in Hr. congruence.
Qed.

Lemma simplify_more fuel extra t r :
  simplify fuel t = r → r ≠ OutOfFuel → simplify (fuel + extra) t = r.
Proof.
  unfold simplify. intros Hr Hne.
  destruct (remove_small_inputs t) as [[v1 t1]|e|]; simpl in *; [|done..].
  destruct v1; simpl in *; [done|].
  destruct (remove_small_outputs fuel t1) as [[v2 t2]|e|] eqn:H2.
  - by rewrite (remove_small_outputs_more _ extra _ _ H2).
  - by rewrite (remove_small_outputs_more _ extra _ _ H2).
  - simpl in Hr. congruence.
Qed.

Lemma simplify_agree f1 f2 t r1 r2 :
  simplify f1 t = r1 → simplify f2 t = r2 →
  r1 ≠ OutOfFuel → r2 ≠ OutOfFuel → r1 = r2.
Proof.
  intros H1 H2 Hn1 Hn2.
  apply (simplify_more _ f2) in H1; [|done].
  apply (simplify_more _ f1) in H2; [|done].
  rewrite (Nat.add_comm f2 f1) in H2. congruence.
Qed.

(** [simplify] returns only transactions with an input and never raises. *)
Lemma simplify_done fuel t v t' :
  simplify fuel t = Done (v, t') → tx_inputs t' ≠ [].
Proof.
  intros (_ & t1 & _ & H2)%simplify_inv Hempty.
  pose proof H2 as (delta & marked & _ & _ & _ & Hin & _)%remove_small_outputs_spec.
  unfold remove_small_outputs in H2.
  rewrite get_acceptable_partitions_no_side in H2; [done|].
  left. congruence.
Qed.

(** X17: on a balanced transaction no two inputs of which are equal,
    [simplify] leaves a balanced transaction when it returns. *)
Theorem simplify_balanced fuel t v t' :
  NoDup (tx_inputs t) → balanced t →
  simplify fuel t = Done (v, t') → balanced t'.
Proof.
  intros Hnodup Hbal (_ & t1 & H1 & H2)%simplify_inv.
  eapply outputs_step_balance; [exact H2|].
  by eapply inputs_step_balance.
Qed.

Lemma simplify_balanced_witness :
  balanced (Transaction "t0" [("a2", 40%Z); ("a1", 50%Z)]
              [("b2", 39%Z); ("b1", 49%Z)] 2).
Proof.
  apply (simplify_balanced 10 figure10 PyNone).
  - apply (bool_decide_unpack _). vm_compute. exact I.
  - reflexivity.
  - vm_compute. reflexivity.
Defined.

(** X18: what [untangle] returns are the acceptable partitions of the
    transaction as [simplify] left it: each is a partition of the reduced
    inputs against a reordering of a partition of the reduced outputs, of
    two subsets or more, every aligned pair within the reduced fee. *)
Theorem untangle_results fuel t partitions t' :
  untangle fuel t = Done (partitions, t') →
  simplify fuel t = Done (PyNone, t') ∧
  get_acceptable_partitions fuel t' = Done partitions ∧
  ∀ p, p ∈ partitions → untangling t' p.
Proof.
  unfold untangle. intros ([v t1] & Hs & (aps & Haps & [= <- <-])%bind_done)%bind_done.
  pose proof Hs as [-> _]%simplify_inv. split; [done|]. split; [done|].
  intros p Hp. apply get_acceptable_partitions_shape in Haps.
  by apply (proj1 (Forall_forall _ _) Haps).
Qed.

Lemma untangle_results_witness :
  simplify 10 figure6 =
    Done (PyNone,
          Transaction "t0" [("a2", 10%Z); ("a1", 20%Z)]
            [("b3", 3%Z); ("b2", 7%Z); ("b1", 19%Z)] 1) ∧
  get_acceptable_partitions 10
    (Transaction "t0" [("a2", 10%Z); ("a1", 20%Z)]
       [("b3", 3%Z); ("b2", 7%Z); ("b1", 19%Z)] 1) =
    Done [([[("a2", 10%Z)]; [("a1", 20%Z)]],
           [[("b3", 3%Z); ("b2", 7%Z)]; [("b1", 19%Z)]])] ∧
  ∀ p, p ∈ [([[("a2", 10%Z)]; [("a1", 20%Z)]],
             [[("b3", 3%Z); ("b2", 7%Z)]; [("b1", 19%Z)]])] →
       untangling (Transaction "t0" [("a2", 10%Z); ("a1", 20%Z)]
                     [("b3", 3%Z); ("b2", 7%Z); ("b1", 19%Z)] 1) p.
Proof.
  apply (untangle_results 10 figure6). vm_compute. reflexivity.
Defined.

(** X19: when [simplify] returns a transaction that still has an output,
    [untangle] returns once it has fuel enough; when [simplify] returns a
    transaction without outputs, [untangle] never returns. *)
Theorem untangle_returns fuel t v t' :
  simplify fuel t = Done (v, t') →
  (tx_outputs t' ≠ [] →
     ∃ F partitions, ∀ f, untangle (F + f) t = Done (partitions, t')) ∧
  (tx_outputs t' = [] → ∀ fuel', untangle fuel' t = OutOfFuel).
Proof.
  intros Hs. split.
  - intros Hout. pose proof (simplify_done _ _ _ _ Hs) as Hin.
    destruct (get_acceptable_partitions_total t' Hin Hout) as (F & aps & HF).
    exists (fuel + F), aps. intros f. unfold untangle.
    rewrite <- Nat.add_assoc, (simplify_more _ _ _ _ Hs) by done.
    cbn [mbind outcome_bind].
    replace (fuel + (F + f)) with (F + (fuel + f)) by lia. by rewrite HF.
  - intros Hout fuel'. unfold untangle.
    destruct (simplify fuel' t) as [[v2 t2]|e|] eqn:Hs2; [| |done].
    + assert (Heq : Done (v, t') = Done (v2, t2))
        by (by eapply simplify_agree).
      injection Heq as <- <-. cbn [mbind outcome_bind].
      rewrite get_acceptable_partitions_no_side; [done | by right].
    + by pose proof (simplify_agree _ _ _ _ _ Hs Hs2 ltac:(done) ltac:(done)).
Qed.

Lemma untangle_returns_witness :
  (tx_outputs (Transaction "t0" [("a", 100%Z); ("b", 100%Z)] [] 200) ≠ [] →
     ∃ F partitions, ∀ f,
       untangle (F + f) all_dust =
       Done (partitions, Transaction "t0" [("a", 100%Z); ("b", 100%Z)] [] 200)) ∧
  (tx_outputs (Transaction "t0" [("a", 100%Z); ("b", 100%Z)] [] 200) = [] →
     ∀ fuel', untangle fuel' all_dust = OutOfFuel).
Proof.
  apply (untangle_returns 20 all_dust PyNone). vm_compute. reflexivity.
Defined.

(** ** [get_days] *)

Lemma days_loop_steps end_day n : ∀ current_day days f,
  (current_day + Z.of_nat n * day_us ≤ end_day)%Z →
  (end_day < current_day + Z.of_nat (S n) * day_us)%Z →
  (current_day + Z.of_nat (S n) * day_us ≤ datetime_max)%Z →
  days_loop (S (S n) + f) current_day end_day days =
  DaysDone (days ++ map (λ i, (current_day + Z.of_nat i * day_us)%Z) (seq 0 (S n))).
Proof.
  unfold day_us, datetime_max.
  induction n as [|n IH]; intros current days f Hlow Hhigh Hmax.
  - cbn [Nat.add days_loop]. unfold day_us, datetime_max.
    rewrite (proj2 (Z.leb_le current end_day)) by lia.
    rewrite (proj2 (Z.leb_le _ _)) by lia.
    rewrite (proj2 (Z.leb_gt _ _)) by lia.
    simpl. do 3 f_equal. lia.
  - change (S (S (S n)) + f) with (S (S (S n) + f)). cbn [days_loop].
    unfold day_us, datetime_max.
    rewrite (proj2 (Z.leb_le current end_day)) by lia.
    rewrite (proj2 (Z.leb_le _ _)) by lia.
    rewrite IH by lia.
    rewrite <- (assoc_L (++)). do 2 f_equal.
    change (seq 0 (S (S n))) with (0 :: seq 1 (S n)).
    rewrite <- seq_shift. cbn [map app]. rewrite map_map.
    f_equal; [lia|]. apply map_ext. intros i. lia.
Qed.

Lemma days_loop_overflow end_day n : ∀ current_day days f,
  (current_day + Z.of_nat n * day_us ≤ end_day)%Z →
  (datetime_max < current_day + Z.of_nat (S n) * day_us)%Z →
  days_loop (S n + f) current_day end_day days = DaysOverflow.
Proof.
  unfold day_us, datetime_max.
  induction n as [|n IH]; intros current days f Hlow Hmax.
  - cbn [Nat.add days_loop]. unfold day_us, datetime_max.
    rewrite (proj2 (Z.leb_le current end_day)) by lia.
    by rewrite (proj2 (Z.leb_gt _ _)) by lia.
  - change (S (S n) + f) with (S (S n + f)). cbn [days_loop].
    unfold day_us, datetime_max.
    rewrite (proj2 (Z.leb_le current end_day)) by lia.
    destruct (current + 86400000000 <=? 315537897599999999)%Z eqn:Hstep; [|done].
    apply IH; lia.
Qed.

(** X20: for a start not after the end, [get_days] returns the start and
    every whole day after it up to the end, the end itself when it is a
    whole number of days after the start; for a start after the end it
    returns the empty list; and when the day after the last one listed is
    past the last [datetime] it raises [OverflowError] instead. *)
Theorem get_days_range (start_day end_day : datetime) :
  let n := Z.to_nat ((end_day - start_day) / day_us) in
  ((start_day ≤ end_day)%Z →
   (start_day + Z.of_nat (S n) * day_us ≤ datetime_max)%Z →
   ∀ f, get_days (S (S n) + f) start_day end_day =
        DaysDone (map (λ i, (start_day + Z.of_nat i * day_us)%Z) (seq 0 (S n)))) ∧
  ((start_day ≤ end_day)%Z → ((end_day - start_day) mod day_us = 0)%Z →
   (start_day + Z.of_nat n * day_us)%Z = end_day) ∧
  ((end_day < start_day)%Z → ∀ f, get_days (S f) start_day end_day = DaysDone []) ∧
  ((start_day ≤ end_day)%Z →
   (datetime_max < start_day + Z.of_nat (S n) * day_us)%Z →
   ∀ f, get_days (S n + f) start_day end_day = DaysOverflow).
Proof.
  intros n.
  assert (Hdiv : (start_day ≤ end_day)%Z →
    (start_day + Z.of_nat n * day_us ≤ end_day)%Z ∧
    (end_day < start_day + Z.of_nat (S n) * day_us)%Z).
  { intros Hle. unfold n.
    pose proof (Z.div_mod (end_day - start_day) day_us ltac:(done)) as Hdm.
    pose proof (Z.mod_pos_bound (end_day - start_day) day_us ltac:(done)) as Hmod.
    assert (0 ≤ (end_day - start_day) / day_us)%Z
      by (apply Z.div_pos; [lia | done]).
    rewrite Nat2Z.inj_succ, Z2Nat.id by done. lia. }
  split_and!.
  - intros Hle Hmax f. destruct (Hdiv Hle) as [Hlow Hhigh].
    unfold get_days. by rewrite days_loop_steps.
  - intros Hle Hmod. unfold n.
    pose proof (Z.div_mod (end_day - start_day) day_us ltac:(done)) as Hdm.
    assert (0 ≤ (end_day - start_day) / day_us)%Z
      by (apply Z.div_pos; [lia | done]).
    rewrite Z2Nat.id by done. lia.
  - intros Hlt f. unfold get_days. cbn [days_loop].
    by rewrite (proj2 (Z.leb_gt _ _)) by lia.
  - intros Hle Hmax f. destruct (Hdiv Hle) as [Hlow Hhigh].
    unfold get_days. by apply days_loop_overflow.
Qed.

Lemma get_days_range_witness :
  get_days 5 (3 * day_us)%Z (5 * day_us)%Z =
    DaysDone [(3 * day_us)%Z; (3 * day_us + 1 * day_us)%Z; (3 * day_us + 2 * day_us)%Z] ∧
  (3 * day_us + 2 * day_us)%Z = (5 * day_us)%Z ∧
  get_days 1 (5 * day_us)%Z (3 * day_us)%Z = DaysDone [] ∧
  get_days 1 datetime_max datetime_max = DaysOverflow.
Proof.
  split_and!.
  - apply (proj1 (get_days_range (3 * day_us)%Z (5 * day_us)%Z)
             ltac:(done) ltac:(done) 1).
  - apply (proj1 (proj2 (get_days_range (3 * day_us)%Z (5 * day_us)%Z))); done.
  - apply (proj1 (proj2 (proj2 (get_days_range (5 * day_us)%Z (3 * day_us)%Z)))).
    done.
  - apply (proj2 (proj2 (proj2 (get_days_range datetime_max datetime_max)))
             ltac:(done) ltac:(done) 0).
Defined.

(** ** The formatters *)

Lemma str_app_assoc (a b c : string) : (a +:+ b) +:+ c = a +:+ b +:+ c.
Proof.
  induction a as [|x a IH]; [done|].
  change (String x ((a +:+ b) +:+ c) = String x (a +:+ b +:+ c)). by rewrite IH.
Qed.

Lemma str_app_nil_r (a : string) : a +:+ "" = a.
Proof.
  induction a as [|x a IH]; [done|].
  change (String x (a +:+ "") = String x a). by rewrite IH.
Qed.

Lemma str_length_app (a b : string) :
  String.length (a +:+ b) = String.length a + String.length b.
Proof.
  induction a as [|x a IH]; [done|].
  change (S (String.length (a +:+ b)) = S (String.length a + String.length b)).
  by rewrite IH.
Qed.

Lemma substring_prefix (a b : string) :
  String.substring 0 (String.length a) (a +:+ b) = a.
Proof.
  induction a as [|x a IH]; [by destruct b|].
  change (String x (String.substring 0 (String.length a) (a +:+ b)) = String x a).
  by rewrite IH.
Qed.

Lemma drop_last3_sep (a : string) : drop_last3 (a +:+ " - ") = a.
Proof.
  unfold drop_last3. rewrite str_length_app. simpl String.length.
  replace (String.length a + 3 - 3) with (String.length a) by lia.
  apply substring_prefix.
Qed.

Lemma concat_sep_cons (sep x : string) (l : list string) :
  l ≠ [] → String.concat sep (x :: l) = x +:+ sep +:+ String.concat sep l.
Proof. by destruct l. Qed.

Lemma append_elements_concat {A} (fmt : A → string) rest : ∀ first before,
  append_elements fmt rest (before +:+ fmt first) =
  before +:+ String.concat " " (map fmt (first :: rest)).
Proof.
  induction rest as [|x rest IH]; intros first before; [done|].
  cbn [append_elements].
  replace ((before +:+ fmt first) +:+ " " +:+ fmt x)
    with ((before +:+ fmt first +:+ " ") +:+ fmt x)
    by (by rewrite !str_app_assoc).
  rewrite IH. cbn [map]. rewrite (concat_sep_cons " " (fmt first)) by done.
  by rewrite !str_app_assoc.
Qed.

Lemma subset_to_string_nonempty {A} (fmt : A → string) subset :
  subset ≠ [] → subset_to_string fmt subset = Done (show_subset fmt subset).
Proof.
  destruct subset as [|x rest]; [done|]. intros _.
  unfold subset_to_string, show_subset.
  change (py_get (x :: rest) 0) with (Done x). cbn [mbind outcome_bind].
  change (drop 1 (x :: rest)) with rest.
  rewrite (append_elements_concat fmt rest x "[").
  by rewrite str_app_assoc.
Qed.

Lemma partition_string_loop {A} (fmt : A → string) partition : ∀ acc,
  partition ≠ [] → Forall (λ s, s ≠ []) partition →
  for_each partition
    (λ partition_string subset,
       subset_string ← subset_to_string fmt subset;
       Done (partition_string +:+ subset_string +:+ " - "))
    acc =
  Done (acc +:+ String.concat " - " (map (show_subset fmt) partition) +:+ " - ").
Proof.
  induction partition as [|s partition IH]; intros acc Hne Hall; [done|].
  apply Forall_cons in Hall as [Hs Hall]. cbn [for_each].
  rewrite subset_to_string_nonempty by done. cbn [mbind outcome_bind].
  destruct partition as [|s' partition]; [done|].
  rewrite IH by done. cbn [map].
  rewrite (concat_sep_cons " - " (show_subset fmt s)) by done.
  by rewrite !str_app_assoc.
Qed.

Lemma partition_string_raises {A} (fmt : A → string) partition : ∀ acc,
  [] ∈ partition →
  for_each partition
    (λ partition_string subset,
       subset_string ← subset_to_string fmt subset;
       Done (partition_string +:+ subset_string +:+ " - "))
    acc =
  Raised IndexError.
Proof.
  induction partition as [|s partition IH]; intros acc Hin.
  - by apply elem_of_nil in Hin.
  - cbn [for_each]. destruct s as [|x s]; [done|].
    rewrite subset_to_string_nonempty by done. cbn [mbind outcome_bind].
    apply IH. by apply elem_of_cons in Hin as [?|?].
Qed.

(** X21: on a partition without an empty subset,
    [single_partition_to_string] returns the subsets, each in square
    brackets with its elements separated by a space, joined by [" - "],
    with no separator at the end (the empty string for no subsets); on a
    partition with an empty subset it raises [IndexError]. It returns on
    every partition that [get_partitions] returns. *)
Theorem single_partition_to_string_spec {A} (fmt : A → string)
    (partition : list (list A)) :
  (Forall (λ s, s ≠ []) partition →
   single_partition_to_string fmt partition =
   Done (String.concat " - " (map (show_subset fmt) partition))) ∧
  ([] ∈ partition →
   single_partition_to_string fmt partition = Raised IndexError) ∧
  (∀ fuel elements max_size partitions,
     get_partitions fuel elements max_size = Done partitions →
     partition ∈ partitions →
     single_partition_to_string fmt partition =
     Done (String.concat " - " (map (show_subset fmt) partition))).
Proof.
  assert (Hok : Forall (λ s, s ≠ []) partition →
    single_partition_to_string fmt partition =
    Done (String.concat " - " (map (show_subset fmt) partition))).
  { intros Hall. unfold single_partition_to_string.
    destruct (decide (partition = [])) as [->|Hne]; [done|].
    rewrite partition_string_loop by done. cbn [mbind outcome_bind].
    f_equal. apply drop_last3_sep. }
  split_and!; [done | |].
  - intros Hin. unfold single_partition_to_string.
    by rewrite partition_string_raises.
  - intros fuel elements max_size partitions Hrun Hp. apply Hok.
    by destruct (get_partitions_elem _ _ _ _ _ Hrun Hp)
      as (_ & _ & _ & _ & _ & Hnon & _).
Qed.

Lemma single_partition_to_string_spec_witness :
  single_partition_to_string id [["a"; "c"]; ["b"]] = Done "[a c] - [b]" ∧
  single_partition_to_string id [["a"]; []] = Raised IndexError ∧
  single_partition_to_string id [["a"]; ["b"; "c"]] = Done "[a] - [b c]".
Proof.
  split_and!.
  - apply (proj1 (single_partition_to_string_spec id [["a"; "c"]; ["b"]])).
    by repeat constructor.
  - apply (proj1 (proj2 (single_partition_to_string_spec id [["a"]; []]))).
    apply list_elem_of_further, list_elem_of_here.
  - apply (proj2 (proj2 (single_partition_to_string_spec id [["a"]; ["b"; "c"]]))
             10 ["a"; "b"; "c"] 3%Z
             [[["a"; "b"; "c"]]; [["a"; "b"]; ["c"]]; [["a"; "c"]; ["b"]];
              [["a"]; ["b"; "c"]]; [["a"]; ["b"]; ["c"]]]).
    + reflexivity.
    + do 3 apply list_elem_of_further. apply list_elem_of_here.
Defined.

Lemma tx_string_loop repr_str (input_partition : list (list entry)) :
  ∀ (output_partition before after : list (list entry)) acc,
  length before = length after →
  length input_partition ≤ length output_partition →
  for_each (seq (length before) (length input_partition))
    (λ tx_partition_string i,
       input_subset ← py_get (before ++ input_partition) i;
       let input := map fst input_subset in
       output_subset ← py_get (after ++ output_partition) i;
       let output := map fst output_subset in
       Done (tx_partition_string +:+ show_names repr_str input +:+ " --> "
             +:+ show_names repr_str output +:+ String (Ascii.ascii_of_nat 10) ""))
    acc =
  Done (acc +:+ concat_strings
                  (map (show_pair repr_str) (zip input_partition output_partition))).
Proof.
  induction input_partition as [|a ip IH]; intros o pre1 pre2 acc Hpre Hlen.
  - simpl. by rewrite str_app_nil_r.
  - destruct o as [|b o]; [simpl in Hlen; lia|]. simpl in Hlen.
    cbn [length seq for_each]. rewrite py_get_middle. cbn [mbind outcome_bind].
    rewrite Hpre, py_get_middle. cbn [mbind outcome_bind].
    rewrite <- Hpre.
    pose proof (IH o (pre1 ++ [a]) (pre2 ++ [b])
      (acc +:+ show_names repr_str (map fst a) +:+ " --> "
       +:+ show_names repr_str (map fst b) +:+ String (Ascii.ascii_of_nat 10) ""))
      as IH'.
    rewrite !length_app in IH'. simpl in IH'.
    rewrite Nat.add_1_r in IH'.
    erewrite for_each_ext; [rewrite IH' by lia|].
    + cbn [zip zip_with map concat_strings foldr]. unfold show_pair at 2.
      cbn [fst snd]. f_equal. by rewrite !str_app_assoc.
    + intros s' i Hi. by rewrite !snoc_app.
Qed.

Lemma tx_string_raises repr_str (input_partition : list (list entry)) :
  ∀ (output_partition before after : list (list entry)) acc,
  length before = length after →
  length output_partition < length input_partition →
  for_each (seq (length before) (length input_partition))
    (λ tx_partition_string i,
       input_subset ← py_get (before ++ input_partition) i;
       let input := map fst input_subset in
       output_subset ← py_get (after ++ output_partition) i;
       let output := map fst output_subset in
       Done (tx_partition_string +:+ show_names repr_str input +:+ " --> "
             +:+ show_names repr_str output +:+ String (Ascii.ascii_of_nat 10) ""))
    acc =
  Raised IndexError.
Proof.
  induction input_partition as [|a ip IH]; intros o pre1 pre2 acc Hpre Hlen.
  - simpl in Hlen. lia.
  - cbn [length seq for_each]. rewrite py_get_middle. cbn [mbind outcome_bind].
    destruct o as [|b o].
    + unfold py_get. rewrite app_nil_r, Hpre, lookup_ge_None_2 by lia. done.
    + simpl in Hlen. rewrite Hpre, py_get_middle. cbn [mbind outcome_bind].
      rewrite <- Hpre.
      pose proof (IH o (pre1 ++ [a]) (pre2 ++ [b])
        (acc +:+ show_names repr_str (map fst a) +:+ " --> "
         +:+ show_names repr_str (map fst b) +:+ String (Ascii.ascii_of_nat 10) ""))
        as IH'.
      rewrite !length_app in IH'. simpl in IH'.
      rewrite Nat.add_1_r in IH'.
      erewrite for_each_ext; [apply IH'; lia|].
      intros s' i Hi. by rewrite !snoc_app.
Qed.

(** X22: when the output side has at least as many subsets as the input
    side, [tx_partition_to_string] returns one line for each input subset,
    naming its entries and those of the output subset at the same position,
    and ignores further output subsets; when the output side has fewer
    subsets it raises [IndexError]. It returns on every pair that
    [get_acceptable_partitions] returns. *)
Theorem tx_partition_to_string_spec repr_str (tx_partition : acceptable_partition) :
  (length tx_partition.1 ≤ length tx_partition.2 →
   tx_partition_to_string repr_str tx_partition =
   Done (concat_strings
           (map (show_pair repr_str) (zip tx_partition.1 tx_partition.2)))) ∧
  (length tx_partition.2 < length tx_partition.1 →
   tx_partition_to_string repr_str tx_partition = Raised IndexError) ∧
  (∀ fuel t partitions,
     get_acceptable_partitions fuel t = Done partitions →
     tx_partition ∈ partitions →
     tx_partition_to_string repr_str tx_partition =
     Done (concat_strings
             (map (show_pair repr_str) (zip tx_partition.1 tx_partition.2)))).
Proof.
  assert (Hok : length tx_partition.1 ≤ length tx_partition.2 →
    tx_partition_to_string repr_str tx_partition =
    Done (concat_strings
            (map (show_pair repr_str) (zip tx_partition.1 tx_partition.2)))).
  { intros Hlen. unfold tx_partition_to_string.
    exact (tx_string_loop repr_str tx_partition.1 tx_partition.2 [] [] ""
             eq_refl Hlen). }
  split_and!; [done | |].
  - intros Hlen. unfold tx_partition_to_string.
    exact (tx_string_raises repr_str tx_partition.1 tx_partition.2 [] [] ""
             eq_refl Hlen).
  - intros fuel t partitions Hrun Hp. apply Hok.
    apply get_acceptable_partitions_within in Hrun.
    apply (proj1 (Forall_forall _ _) Hrun) in Hp as [Hlen _]. lia.
Qed.

Lemma tx_partition_to_string_spec_witness :
  tx_partition_to_string id ([[("a1", 20%Z)]; [("a2", 10%Z)]],
                             [[("b1", 19%Z)]; [("b2", 7%Z); ("b3", 3%Z)]]) =
    Done (concat_strings
            (map (show_pair id)
               (zip [[("a1", 20%Z)]; [("a2", 10%Z)]]
                    [[("b1", 19%Z)]; [("b2", 7%Z); ("b3", 3%Z)]]))) ∧
  tx_partition_to_string id ([[("a1", 20%Z)]; [("a2", 10%Z)]], [[("b1", 19%Z)]]) =
    Raised IndexError.
Proof.
  split.
  - apply (proj2 (proj2 (tx_partition_to_string_spec id
             ([[("a1", 20%Z)]; [("a2", 10%Z)]],
              [[("b1", 19%Z)]; [("b2", 7%Z); ("b3", 3%Z)]]))) 10 figure6
             [([[("a1", 20%Z)]; [("a2", 10%Z)]],
               [[("b1", 19%Z)]; [("b2", 7%Z); ("b3", 3%Z)]])]).
    + vm_compute. reflexivity.
    + apply list_elem_of_here.
  - apply (proj1 (proj2 (tx_partition_to_string_spec id
             ([[("a1", 20%Z)]; [("a2", 10%Z)]], [[("b1", 19%Z)]])))).
    simpl. lia.
Defined.

(** ** The partitions of each size *)

Lemma filter_flat_map {A B} (P : B → Prop) `{!∀ y, Decision (P y)}
    (g : A → list B) l :
  filter P (flat_map g l) = flat_map (λ x, filter P (g x)) l.
Proof.
  induction l as [|x l IH]; simpl; [done|]. by rewrite filter_app, IH.
Qed.

Lemma filter_map_length {A B} (P : B → Prop) `{!∀ y, Decision (P y)}
    (g : A → B) l :
  length (filter P (map g l)) = length (filter (λ x, P (g x)) l).
Proof.
  induction l as [|x l IH]; simpl; [done|].
  rewrite !filter_cons. destruct (decide (P (g x))); simpl; by rewrite IH.
Qed.

Lemma filter_none {A} (P : A → Prop) `{!∀ x, Decision (P x)} (l : list A) :
  (∀ x, x ∈ l → ¬ P x) → filter P l = [].
Proof.
  induction l as [|x l IH]; intros Hnone; [done|].
  rewrite filter_cons_False by (apply Hnone; left).
  apply IH. intros y Hy. apply Hnone. by right.
Qed.

(** The extensions of a prefix that end with a given largest entry. *)
Lemma rgs_ext_count_max r : ∀ m k j,
  1 ≤ m → m + j ≤ k →
  length (filter (λ s, foldl Z.max (Z.of_nat m) s = Z.of_nat (m + j))
            (rgs_ext (Z.of_nat k) (Z.of_nat m) r)) =
  ext_count r m j.
Proof.
  induction r as [|r IH]; intros m k j Hm Hk.
  - simpl rgs_ext. rewrite filter_cons, filter_nil. simpl foldl.
    destruct j as [|j]; simpl.
    + rewrite decide_True by (f_equal; lia). done.
    + rewrite decide_False by lia. done.
  - cbn [rgs_ext]. unfold next_values. rewrite filter_flat_map.
    assert (Hlow : ∀ len, len ≤ m →
      length (flat_map
        (λ c, filter (λ s, foldl Z.max (Z.of_nat m) s = Z.of_nat (m + j))
                (map (cons c) (rgs_ext (Z.of_nat k) (Z.max (Z.of_nat m) c) r)))
        (seqZ 1 (Z.of_nat len))) =
      len * ext_count r m j).
    { intros len Hlen. rewrite (flat_map_length_same _ _ (ext_count r m j)).
      - rewrite length_seqZ. f_equal. lia.
      - intros c Hc%elem_of_seqZ. rewrite filter_map_length. cbn [foldl].
        replace (Z.max (Z.of_nat m) c) with (Z.of_nat m) by lia.
        by apply IH. }
    cbn [ext_count]. destruct (decide (m = k)) as [->|Hne].
    + replace (Z.min (Z.of_nat k + 1) (Z.of_nat k)) with (Z.of_nat k) by lia.
      rewrite Hlow by done. replace j with 0 by lia. lia.
    + replace (Z.min (Z.of_nat m + 1) (Z.of_nat k)) with (Z.of_nat (S m)) by lia.
      rewrite seqZ_S, flat_map_app, length_app, Hlow by done.
      simpl flat_map. rewrite app_nil_r, filter_map_length. cbn [foldl].
      replace (Z.max (Z.of_nat m) (1 + Z.of_nat m)) with (Z.of_nat (S m)) by lia.
      f_equal. destruct j as [|j].
      * rewrite filter_none; [done|]. intros s _ Hs.
        pose proof (foldl_max_le (Z.of_nat (S m)) s). lia.
      * replace (m + S j) with (S m + j) by lia. apply IH; lia.
Qed.

Lemma Forall2_filter_length {A B} (R : A → B → Prop) (P : A → Prop) (Q : B → Prop)
    `{!∀ x, Decision (P x), !∀ y, Decision (Q y)} l k :
  Forall2 R l k → (∀ x y, R x y → (P x ↔ Q y)) →
  length (filter P l) = length (filter Q k).
Proof.
  intros Hall Hiff. induction Hall as [|x y l k Hxy _ IH]; [done|].
  rewrite !filter_cons. specialize (Hiff x y Hxy).
  destruct (decide (P x)), (decide (Q y)); simpl; try tauto; by rewrite IH.
Qed.

Lemma partitions_of_size_count {A} fuel (elements : list A) (k size : nat) partitions :
  get_partitions fuel elements (Z.of_nat k) = Done partitions →
  1 ≤ size ≤ k →
  length (filter (λ p, length p = size) partitions) =
  stirling2 (length elements) size.
Proof.
  intros Hrun Hsize.
  pose proof Hrun as [Hne Hall]%get_partitions_inv.
  rewrite <- (Forall2_filter_length
    (λ c p, to_partition elements c = Done p
            ∧ c ∈ codewords_of (length elements) (Z.of_nat k))
    (λ c, foldl Z.max 1%Z c = Z.of_nat size) (λ p, length p = size)
    (codewords_of (length elements) (Z.of_nat k)) partitions).
  - unfold codewords_of. rewrite decide_True by lia.
    destruct (length elements) as [|r] eqn:Hlen;
      [by apply nonempty_length in Hne; lia|].
    unfold rgs_all. rewrite filter_map_length. cbn [foldl].
    destruct size as [|j]; [lia|].
    trans (ext_count r 1 j).
    + rewrite <- (rgs_ext_count_max r 1 k j) by lia. done.
    + rewrite <- ext_count_stirling. simpl. lia.
  - apply Forall2_same_length_lookup. split; [exact (Forall2_length _ _ _ Hall)|].
    intros i c p Hc Hp. split; [exact (Forall2_lookup_lr _ _ _ _ _ _ Hall Hc Hp)|].
    apply list_elem_of_lookup. eauto.
  - intros c p [Hto Hc].
    destruct (codeword_to_partition elements (Z.of_nat k) c Hne Hc)
      as (p' & Hp' & Hlen & _).
    rewrite Hp' in Hto. injection Hto as ->. rewrite Hlen.
    pose proof (foldl_max_le 1 c). lia.
Qed.

(** X23: with a bound [k ≥ 1], of the partitions that [get_partitions]
    returns on [n] elements those with exactly [j] subsets, for [j] from 1
    to [k], number the Stirling number of the second kind [S(n,j)]; so many
    does [group_partitions_by_size] keep under the key [j]. *)
Theorem partitions_per_size {A} fuel (elements : list A) (k size : nat) partitions :
  get_partitions fuel elements (Z.of_nat k) = Done partitions →
  1 ≤ size ≤ k →
  length (filter (λ p, length p = size) partitions) =
    stirling2 (length elements) size ∧
  (0 < stirling2 (length elements) size →
   ∃ bucket, group_partitions_by_size partitions !! size = Some bucket ∧
             length bucket = stirling2 (length elements) size).
Proof.
  intros Hrun Hsize.
  pose proof (partitions_of_size_count _ _ _ _ _ Hrun Hsize) as Hcount.
  split; [done|]. intros Hpos.
  unfold group_partitions_by_size. rewrite group_fold_lookup, lookup_empty.
  destruct (filter _ partitions) as [|p ps] eqn:Hf; [simpl in Hcount; lia|].
  eauto.
Qed.

Lemma partitions_per_size_witness :
  length (filter (λ p : list (list string), length p = 2)
            [[["a"; "b"; "c"]]; [["a"; "b"]; ["c"]]; [["a"; "c"]; ["b"]];
             [["a"]; ["b"; "c"]]; [["a"]; ["b"]; ["c"]]]) =
    stirling2 (length ["a"; "b"; "c"]) 2 ∧
  (0 < stirling2 (length ["a"; "b"; "c"]) 2 →
   ∃ bucket,
     group_partitions_by_size
       [[["a"; "b"; "c"]]; [["a"; "b"]; ["c"]]; [["a"; "c"]; ["b"]];
        [["a"]; ["b"; "c"]]; [["a"]; ["b"]; ["c"]]] !! 2 = Some bucket ∧
     length bucket = stirling2 (length ["a"; "b"; "c"]) 2).
Proof.
  apply (partitions_per_size 10 ["a"; "b"; "c"] 3 2); [reflexivity | lia].
Defined.

(** ** The order of the codewords *)

Lemma seqZ_sorted m n : StronglySorted Z.lt (seqZ m n).
Proof.
  destruct (decide (n ≤ 0)%Z) as [Hn|Hn]; [rewrite seqZ_nil by done; constructor|].
  rewrite <- (Z2Nat.id n) by lia. generalize (Z.to_nat n). clear n Hn. intros len.
  induction len as [|len IH]; [constructor|].
  rewrite seqZ_S. apply StronglySorted_app_2; [|done|repeat constructor].
  intros x y Hx%elem_of_seqZ Hy%list_elem_of_singleton. lia.
Qed.

Lemma map_cons_sorted c l :
  StronglySorted lex_lt l → StronglySorted lex_lt (map (cons c) l).
Proof.
  induction 1 as [|s l Hl IH Hall]; simpl; constructor; [done|].
  apply Forall_forall. intros s' (s2 & <- & Hs2)%list_elem_of_In%in_map_iff.
  simpl. right. split; [done|].
  rewrite Forall_forall in Hall. by apply Hall, list_elem_of_In.
Qed.

Lemma flat_map_cons_sorted (h : Z → list (list Z)) cs :
  StronglySorted Z.lt cs → (∀ c, StronglySorted lex_lt (h c)) →
  StronglySorted lex_lt (flat_map (λ c, map (cons c) (h c)) cs).
Proof.
  intros Hcs Hh. induction Hcs as [|c cs Hcs IH Hall]; simpl; [constructor|].
  apply StronglySorted_app_2; [|by apply map_cons_sorted|done].
  intros s1 s2 (t1 & <- & _)%list_elem_of_In%in_map_iff
    (c' & Hc' & (t2 & <- & _)%in_map_iff)%list_elem_of_In%in_flat_map.
  simpl. left. rewrite Forall_forall in Hall. by apply Hall, list_elem_of_In.
Qed.

Lemma rgs_ext_sorted k r : ∀ m, StronglySorted lex_lt (rgs_ext k m r).
Proof.
  induction r as [|r IH]; intros m; cbn [rgs_ext]; [repeat constructor|].
  apply (flat_map_cons_sorted (λ c, rgs_ext k (Z.max m c) r)); [|by intros].
  apply seqZ_sorted.
Qed.

Lemma rgs_ext_head k r : ∀ m,
  (1 ≤ m)%Z → (1 ≤ k)%Z → head (rgs_ext k m r) = Some (replicate r 1%Z).
Proof.
  induction r as [|r IH]; intros m Hm Hk; cbn [rgs_ext]; [done|].
  unfold next_values. rewrite seqZ_cons by lia. cbn [flat_map].
  specialize (IH (Z.max m 1) ltac:(lia) Hk).
  destruct (rgs_ext k (Z.max m 1) r) as [|s l]; [done|].
  simpl in IH. injection IH as ->. done.
Qed.

Lemma codewords_of_head n k : head (codewords_of (S n) k) = Some (replicate (S n) 1%Z).
Proof.
  unfold codewords_of. destruct (decide (1 ≤ k)%Z) as [Hk|Hk]; [|done].
  cbn [rgs_all]. pose proof (rgs_ext_head k n 1 ltac:(lia) Hk) as Hhead.
  destruct (rgs_ext k 1 n) as [|s l]; [done|].
  simpl in Hhead. injection Hhead as ->. done.
Qed.

Lemma lex_lt_irrefl a : ¬ lex_lt a a.
Proof. induction a as [|x a IH]; simpl; [tauto|]. intros [?|[_ ?]]; [lia|tauto]. Qed.

(** X24: when [get_codewords] returns, the codewords stand in strictly
    increasing order, as Python compares lists; the first one is all ones,
    and none is listed twice. *)
Theorem get_codewords_increasing fuel n k codewords :
  get_codewords fuel n k = Done codewords →
  StronglySorted lex_lt codewords ∧
  head codewords = Some (replicate n 1%Z) ∧
  NoDup codewords.
Proof.
  intros [Hn ->]%get_codewords_done.
  assert (Hsorted : StronglySorted lex_lt (codewords_of n k)).
  { unfold codewords_of. destruct (decide (1 ≤ k)%Z); [|repeat constructor].
    destruct n as [|r]; [lia|]. apply map_cons_sorted, rgs_ext_sorted. }
  split; [done|]. split.
  - destruct n as [|r]; [lia|]. apply codewords_of_head.
  - induction Hsorted as [|c l Hl IH Hall]; constructor; [|done].
    intros Hin. rewrite Forall_forall in Hall.
    by apply (lex_lt_irrefl c), Hall.
Qed.

Lemma get_codewords_increasing_witness :
  StronglySorted lex_lt
    [[1; 1; 1]; [1; 1; 2]; [1; 2; 1]; [1; 2; 2]; [1; 2; 3]]%Z ∧
  head [[1; 1; 1]; [1; 1; 2]; [1; 2; 1]; [1; 2; 2]; [1; 2; 3]]%Z =
    Some (replicate 3 1%Z) ∧
  NoDup [[1; 1; 1]; [1; 1; 2]; [1; 2; 1]; [1; 2; 2]; [1; 2; 3]]%Z.
Proof. apply (get_codewords_increasing 10 3 3). reflexivity. Defined.

(** X25: the first partition that [get_partitions] returns is the list
    itself as the only subset, whatever the bound. *)
Theorem get_partitions_first {A} fuel (elements : list A) max_size partitions :
  get_partitions fuel elements max_size = Done partitions →
  head partitions = Some [elements].
Proof.
  intros [Hne Hall]%get_partitions_inv.
  destruct elements as [|x l]; [done|]. simpl length in Hall.
  pose proof (codewords_of_head (length l) max_size) as Hhead.
  destruct Hall as [|c p cws ps Hc _]; [done|].
  simpl in Hhead. injection Hhead as ->. simpl. f_equal.
  pose proof (to_partition_ones (x :: l) ltac:(done)) as Hones.
  change (to_partition (x :: l) (1%Z :: replicate (length l) 1%Z) = Done [x :: l])
    in Hones.
  congruence.
Qed.

Lemma get_partitions_first_witness :
  head [[["a"; "b"; "c"]]; [["a"; "b"]; ["c"]]; [["a"; "c"]; ["b"]];
        [["a"]; ["b"; "c"]]; [["a"]; ["b"]; ["c"]]] = Some [["a"; "b"; "c"]].
Proof. apply (get_partitions_first 10 ["a"; "b"; "c"] 3). reflexivity. Defined.

(** ** The partitions under any bound *)

(** X26: with a bound [k ≥ 1] the partitions that [get_partitions] returns
    are, read as blocks of positions, the canonical listings of the
    partitions of the positions into at most [k] blocks, every one of them
    and none twice; when no two elements are equal the list returned has no
    partition twice either. *)
Theorem partitions_canonical_bound {A} fuel (elements : list A) (k : nat) partitions :
  1 ≤ k →
  get_partitions fuel elements (Z.of_nat k) = Done partitions →
  ∃ blockss,
    Forall2 (at_positions elements) blockss partitions ∧
    NoDup blockss ∧
    (∀ blocks, blocks ∈ blockss ↔
       set_partition (length elements) blocks ∧ canonical blocks ∧
       length blocks ≤ k) ∧
    (NoDup elements → NoDup partitions).
Proof. intros Hk Hrun. by eapply get_partitions_blocks. Qed.

Lemma partitions_canonical_bound_witness :
  ∃ blockss,
    Forall2 (at_positions ["a"; "b"; "c"]) blockss
      [[["a"; "b"; "c"]]; [["a"; "b"]; ["c"]]; [["a"; "c"]; ["b"]];
       [["a"]; ["b"; "c"]]] ∧
    NoDup blockss ∧
    (∀ blocks, blocks ∈ blockss ↔
       set_partition (length ["a"; "b"; "c"]) blocks ∧ canonical blocks ∧
       length blocks ≤ 2) ∧
    (NoDup ["a"; "b"; "c"] →
     NoDup [[["a"; "b"; "c"]]; [["a"; "b"]; ["c"]]; [["a"; "c"]; ["b"]];
            [["a"]; ["b"; "c"]]]).
Proof.
  apply (partitions_canonical_bound 10 ["a"; "b"; "c"] 2); [lia | reflexivity].
Defined.
